(** * Furia's 3D View: the force-directed graph core

    A shallow embedding of the core of [src/main.ts] (the evolved revision,
    classes [GraphView], [GravityGraph] and [LinkParticleSystem]):

    - the identity resolver ([GraphView.generateUniqueNodeId]),
    - the graph store ([GravityGraph.addNode], [addLink], [removeNode],
      [removeLink], [renameNode]),
    - the physics engine ([calculateForces], [updateAllNodes],
      [calcLinkScale]),
    - the particle flow system ([LinkParticleSystem]),
    - the handlers of the live updates ([GraphView.onNoteDeleted],
      [onNoteRenamed]) and the links of a note ([extractLinks]),
    - the colours of folders ([getFolderHierarchy], [getNodeColorForFile],
      [hexToThreeColor], [GravityGraph.updateNodeColors]) and the settings
      ([updateSettingsParameters]),
    - moving with the wheel ([GraphView.handleWheelMovement]).

    Conventions.

    - JavaScript numbers are read as real numbers.  A division whose divisor
      is zero has no real result: it is the one way the arithmetic of the
      program leaves the finite numbers (IEEE gives an infinity or a NaN), so
      division is a partial operation [x ÷ y : option R] and the functions
      that divide live in the option monad.
    - Objects are references into a heap, so that two holders of one mesh
      (the [nodes] map and a link's [from]/[to]) see the same mutations and
      [===] is equality of references.
    - [Math.random()], [performance.now()] and the camera are inputs.
    - JavaScript [Map]s and [Set]s are finite maps and sets; arrays are
      lists.  A loop over a [Map] runs over [map_to_list]; nothing proved
      here depends on the order of its entries.
    - The three.js scene and the disposal of geometries and materials are
      kept where the particle system manages its pool, and left out of the
      graph store.
    - [tick] is the body of [animate] while the simulation is running.
    - Strings are sequences of bytes.  The characters the program looks for
      (brackets, bar, slash, dot, hash, digits) are single bytes that occur
      in no other character of a UTF-8 text; the white space [parseInt]
      skips is given by its bytes.
    - A call that a [TypeError] can end has a [Completion] for result: how it
      ended, and the state it left.
    - Where the question is what an overflow does, the force computation is
      repeated on IEEE doubles ([Double]). *)

From Stdlib Require Import Reals Lra Ascii.
From Stdlib Require PrimFloat.
From stdpp Require Import gmap strings list fin_maps pretty.

Local Open Scope R_scope.

(** ** Numbers *)

(** [x / y] of the source: undefined on a zero divisor. *)
Definition checked_div (x y : R) : option R :=
  if Req_EM_T y 0 then None else Some (x / y).

Infix "÷" := checked_div (at level 40, left associativity).

(** Comparisons of the source as booleans. *)
Definition Rltb (x y : R) : bool := if Rlt_dec x y then true else false.
Definition Rleb (x y : R) : bool := if Rle_dec x y then true else false.
Definition Rgtb (x y : R) : bool := Rltb y x.
Definition Rgeb (x y : R) : bool := Rleb y x.

(** A JavaScript number used as a condition or in [x || d]: zero is falsy. *)
Definition num_or (x d : R) : R := if Req_EM_T x 0 then d else x.

(** A JavaScript string used as a condition: the empty string and
    [undefined] are falsy. *)
Definition truthy (o : option string) : option string :=
  match o with
  | Some s => if decide (s = "") then None else Some s
  | None => None
  end.

Definition str_or (o : option string) (d : string) : string :=
  default d (truthy o).

(** ** three.js vectors *)

Module Vector3.

Record t := mk { x : R; y : R; z : R }.

Definition zero : t := mk 0 0 0.

Definition add (a b : t) : t := mk (x a + x b) (y a + y b) (z a + z b).
Definition sub (a b : t) : t := mk (x a - x b) (y a - y b) (z a - z b).
Definition subVectors (a b : t) : t := sub a b.
Definition multiplyScalar (a : t) (s : R) : t := mk (x a * s) (y a * s) (z a * s).
Definition setScalar (s : R) : t := mk s s s.

Definition lengthSq (a : t) : R := x a * x a + y a * y a + z a * z a.
Definition length (a : t) : R := sqrt (lengthSq a).

Definition distanceToSquared (a b : t) : R :=
  let dx := x a - x b in
  let dy := y a - y b in
  let dz := z a - z b in
  dx * dx + dy * dy + dz * dz.
Definition distanceTo (a b : t) : R := sqrt (distanceToSquared a b).

(** [divideScalar(s)] is [multiplyScalar(1 / s)]. *)
Definition divideScalar (a : t) (s : R) : option t :=
  inv ← 1 ÷ s; Some (multiplyScalar a inv).

(** [normalize()] is [divideScalar(length() || 1)]. *)
Definition normalize (a : t) : option t :=
  divideScalar a (num_or (length a) 1).

(** [lerpVectors(v1, v2, alpha)]. *)
Definition lerpVectors (v1 v2 : t) (alpha : R) : t :=
  mk (x v1 + (x v2 - x v1) * alpha)
     (y v1 + (y v2 - y v1) * alpha)
     (z v1 + (z v2 - z v1) * alpha).

End Vector3.

Abbreviation Vector3 := Vector3.t.

(** ** three.js colours *)

Record Color := mkColor { red : R; green : R; blue : R }.

Definition white : Color := mkColor 1 1 1.

Definition colorMultiplyScalar (c : Color) (s : R) : Color :=
  mkColor (red c * s) (green c * s) (blue c * s).

(** ** Strings *)

(** [s.split('/')] *)
Fixpoint splitSlash (s : string) : list string :=
  match s with
  | EmptyString => [EmptyString]
  | String c s' =>
      if decide (c = "/"%char) then EmptyString :: splitSlash s'
      else
        match splitSlash s' with
        | segment :: rest => String c segment :: rest
        | [] => [String c EmptyString]
        end
  end.

(** ** The colours of folders *)

(** [getFolderHierarchy]; [String.concat "/"] is [join('/')]. *)
Definition getFolderHierarchy (folderPath : string) : list string :=
  if bool_decide (folderPath = "" ∨ folderPath = "/") then []
  else
    let parts := filter (λ part, (0 < String.length part)%nat) (splitSlash folderPath) in
    (λ i, String.concat "/" (take (S i) parts)) <$> seq 0 (length parts).

(** [s.lastIndexOf(c)]; [None] stands for -1. *)
Fixpoint lastIndexOf (c : ascii) (s : string) : option nat :=
  match s with
  | EmptyString => None
  | String a s' =>
      match lastIndexOf c s' with
      | Some i => Some (S i)
      | None => if decide (a = c) then Some 0%nat else None
      end
  end.

(** [folderColors] is a plain object used as a dictionary.  A lookup of a
    name it has no entry for is answered by [Object.prototype] when that
    defines the name: with a function or an object, not with a string. *)
Definition objectPrototypeNames : list string :=
  ["constructor"; "hasOwnProperty"; "isPrototypeOf"; "propertyIsEnumerable";
   "toLocaleString"; "toString"; "valueOf"; "__defineGetter__"; "__defineSetter__";
   "__lookupGetter__"; "__lookupSetter__"; "__proto__"].

Inductive Property :=
  | OwnValue (value : string)
  | InheritedMember (name : string).

Definition objectGet (o : gmap string string) (key : string) : option Property :=
  match o !! key with
  | Some value => Some (OwnValue value)
  | None =>
      if bool_decide (key ∈ objectPrototypeNames) then Some (InheritedMember key)
      else None
  end.

(** The colour settings as [getNodeColorForFile] reads them: strings, before
    [hexToThreeColor]. *)
Record FolderColorSettings := mkFolderColorSettings {
  folderColors : gmap string string;
  defaultNodeColorHex : string;
}.

(** [color && color !== 'inherited'] *)
Definition usableColor (color : option Property) : option Property :=
  match color with
  | Some (OwnValue value) =>
      if bool_decide (value = "" ∨ value = "inherited") then None
      else Some (OwnValue value)
  | Some (InheritedMember name) => Some (InheritedMember name)
  | None => None
  end.

(** The loop over the hierarchy: the first folder with a usable colour. *)
Fixpoint firstFolderColor (colors : gmap string string) (hierarchy : list string)
    : option Property :=
  match hierarchy with
  | [] => None
  | folder :: hierarchy' =>
      match usableColor (objectGet colors folder) with
      | Some color => Some color
      | None => firstFolderColor colors hierarchy'
      end
  end.

Definition folderPathOf (filePath : string) : string :=
  match lastIndexOf "/" filePath with
  | Some i => String.substring 0 i filePath
  | None => ""
  end.

Definition getNodeColorForFile (filePath : string) (settings : FolderColorSettings)
    : Property :=
  let folderPath := folderPathOf filePath in
  if bool_decide (folderPath = "") then OwnValue (defaultNodeColorHex settings)
  else
    let hierarchy := reverse (getFolderHierarchy folderPath) in
    default (OwnValue (defaultNodeColorHex settings))
            (firstFolderColor (folderColors settings) hierarchy).

(** ** Colours from hex strings *)

(** [hex.replace('#', '')]: the first [#] is removed. *)
Fixpoint removeFirst (c : ascii) (s : string) : string :=
  match s with
  | EmptyString => EmptyString
  | String a s' => if decide (a = c) then s' else String a (removeFirst c s')
  end.

(** A number that [parseInt] returns: [NaN] or an integer.  [-0] is read as
    [0], and an integer beyond 2^53 as it is written. *)
Inductive HexNumber :=
  | NaN
  | Hex (n : Z).

(** The white space and the line terminators of three bytes, in UTF-8:
    U+1680, U+2000 to U+200A, U+2028, U+2029, U+202F, U+205F, U+3000 and
    U+FEFF. *)
Definition threeByteSpaces : list (nat * nat * nat) :=
  [(225, 154, 128); (226, 128, 128); (226, 128, 129); (226, 128, 130);
   (226, 128, 131); (226, 128, 132); (226, 128, 133); (226, 128, 134);
   (226, 128, 135); (226, 128, 136); (226, 128, 137); (226, 128, 138);
   (226, 128, 168); (226, 128, 169); (226, 128, 175); (226, 129, 159);
   (227, 128, 128); (239, 187, 191)]%nat.

(** [TrimString(s, start)]: the white space and the line terminators at the
    start of [s] are dropped.  Those of one byte are TAB, LF, VT, FF, CR and
    SP; U+00A0 has two bytes. *)
Fixpoint trimStart (s : string) : string :=
  match s with
  | String c1 s1 =>
      let b1 := nat_of_ascii c1 in
      if bool_decide (b1 ∈ [9; 10; 11; 12; 13; 32]%nat) then trimStart s1
      else
        match s1 with
        | String c2 s2 =>
            let b2 := nat_of_ascii c2 in
            if bool_decide (b1 = 194 ∧ b2 = 160)%nat then trimStart s2
            else
              match s2 with
              | String c3 s3 =>
                  let b3 := nat_of_ascii c3 in
                  if bool_decide ((b1, b2, b3) ∈ threeByteSpaces) then trimStart s3
                  else s
              | EmptyString => s
              end
        | EmptyString => s
        end
  | EmptyString => s
  end.

(** The value of a digit in radix 16. *)
Definition hexDigit (c : ascii) : option Z :=
  let b := nat_of_ascii c in
  if bool_decide (48 ≤ b ≤ 57)%nat then Some (Z.of_nat b - 48)%Z
  else if bool_decide (97 ≤ b ≤ 102)%nat then Some (Z.of_nat b - 87)%Z
  else if bool_decide (65 ≤ b ≤ 70)%nat then Some (Z.of_nat b - 55)%Z
  else None.

(** The digits at the start of [s], up to the first character that is no
    digit. *)
Fixpoint hexDigits (s : string) : list Z :=
  match s with
  | String c s' =>
      match hexDigit c with
      | Some d => d :: hexDigits s'
      | None => []
      end
  | EmptyString => []
  end.

(** [parseInt(inputString, 16)] *)
Definition parseInt16 (inputString : string) : HexNumber :=
  let S := trimStart inputString in
  let sign :=
    match S with
    | String c _ => if decide (c = "-"%char) then (-1)%Z else 1%Z
    | EmptyString => 1%Z
    end in
  let S :=
    match S with
    | String c S' => if bool_decide (c = "+"%char ∨ c = "-"%char) then S' else S
    | EmptyString => S
    end in
  let S :=
    match S with
    | String c1 (String c2 S') =>
        if bool_decide (c1 = "0"%char ∧ (c2 = "x"%char ∨ c2 = "X"%char)) then S' else S
    | _ => S
    end in
  match hexDigits S with
  | [] => NaN
  | digits => Hex (sign * foldl (λ mathInt d, mathInt * 16 + d) 0 digits)%Z
  end.

(** [hexToThreeColor]; [None] is the [TypeError] of [hex.replace] on a value
    that is no string. *)
Definition hexToThreeColor (hex : Property) : option HexNumber :=
  match hex with
  | OwnValue hex => Some (parseInt16 (removeFirst "#" hex))
  | InheritedMember _ => None
  end.

(** ** Meshes and the graph store *)

(** A reference to a mesh object. *)
Abbreviation MeshRef := nat (only parsing).

(** [PhysicsMesh]: a three.js mesh with its kinematic state, the [userData]
    fields the plugin writes, and the material fields it updates. *)
Record PhysicsMesh := mkMesh {
  position : Vector3;
  velocity : Vector3;
  force : Vector3;
  mass : R;
  scale : Vector3;
  noteTitle : string;
  uniqueId : string;
  filePath : option string;
  materialColor : Color;
  emissive : Color;
  emissiveIntensity : R;
}.

Definition set_position (p : Vector3) (m : PhysicsMesh) : PhysicsMesh :=
  mkMesh p (velocity m) (force m) (mass m) (scale m) (noteTitle m)
         (uniqueId m) (filePath m) (materialColor m) (emissive m) (emissiveIntensity m).
Definition set_velocity (v : Vector3) (m : PhysicsMesh) : PhysicsMesh :=
  mkMesh (position m) v (force m) (mass m) (scale m) (noteTitle m)
         (uniqueId m) (filePath m) (materialColor m) (emissive m) (emissiveIntensity m).
Definition set_force (f : Vector3) (m : PhysicsMesh) : PhysicsMesh :=
  mkMesh (position m) (velocity m) f (mass m) (scale m) (noteTitle m)
         (uniqueId m) (filePath m) (materialColor m) (emissive m) (emissiveIntensity m).
Definition set_scale (s : Vector3) (m : PhysicsMesh) : PhysicsMesh :=
  mkMesh (position m) (velocity m) (force m) (mass m) s (noteTitle m)
         (uniqueId m) (filePath m) (materialColor m) (emissive m) (emissiveIntensity m).
Definition set_uniqueId (i : string) (m : PhysicsMesh) : PhysicsMesh :=
  mkMesh (position m) (velocity m) (force m) (mass m) (scale m) (noteTitle m)
         i (filePath m) (materialColor m) (emissive m) (emissiveIntensity m).
Definition set_filePath (p : option string) (m : PhysicsMesh) : PhysicsMesh :=
  mkMesh (position m) (velocity m) (force m) (mass m) (scale m) (noteTitle m)
         (uniqueId m) p (materialColor m) (emissive m) (emissiveIntensity m).
Definition set_emissiveIntensity (e : R) (m : PhysicsMesh) : PhysicsMesh :=
  mkMesh (position m) (velocity m) (force m) (mass m) (scale m) (noteTitle m)
         (uniqueId m) (filePath m) (materialColor m) (emissive m) e.

(** [new PhysicsMesh(geometry, material)]: a three.js object starts at the
    origin with unit scale; the constructor zeroes velocity and force. *)
Definition newPhysicsMesh (c : Color) : PhysicsMesh :=
  mkMesh Vector3.zero Vector3.zero Vector3.zero 1 (Vector3.setScalar 1)
         "" "" None c c (1 / 2).

Global Instance PhysicsMesh_inhabited : Inhabited PhysicsMesh :=
  populate (newPhysicsMesh white).

(** A link: the two endpoint meshes and the points of its line geometry. *)
Record Link := mkLink {
  from : MeshRef;
  to : MeshRef;
  line : Vector3 * Vector3;
}.

Record PulseData := mkPulse {
  phase : R;
  speed : R;
  baseColor : Color;
  pulseColor : Color;
  emissiveStrenghtMultiplier : R;
}.

Record Forces := mkForces {
  repulsion : R;
  friction : R;
  centerAttraction : R;
  linkStrength : R;
}.

(** What the store reads of [PluginSettings]: the default colour and the
    colours of the folders, and with them [new THREE.Color(hex)] of
    three.js, the colour of a number, which depends on the colour management
    of the library. *)
Record PluginSettings := mkSettings {
  colorSettings : FolderColorSettings;
  threeColor : HexNumber → Color;
}.

Record GravityGraph := mkGraph {
  heap : gmap MeshRef PhysicsMesh;
  nextRef : MeshRef;
  nodes : gmap string MeshRef;
  labels : gmap string string;
  links : list Link;
  forces : Forces;
  maxSpeed : R;
  freeze : bool;
  frozenNodes : gset string;
  velocityTreshold : R;
  baseNodeScale : R;
  linkScaleMultiplier : R;
  nodeFilePaths : gmap string string;
  currentSettings : option PluginSettings;
  nodeToUniqueId : gmap MeshRef string;
  colorPulseData : gmap string PulseData;
}.

(** The constructor. *)
Definition newGravityGraph : GravityGraph :=
  {| heap := ∅; nextRef := 0%nat; nodes := ∅; labels := ∅; links := [];
     forces := mkForces (8 / 10) (5 / 100) (1 / 1000) (3 / 100);
     maxSpeed := 2; freeze := false; frozenNodes := ∅;
     velocityTreshold := 1 / 1000; baseNodeScale := 1;
     linkScaleMultiplier := 1 / 10; nodeFilePaths := ∅;
     currentSettings := None; nodeToUniqueId := ∅; colorPulseData := ∅ |}.

(** Field updates. *)
Definition with_heap (h : gmap MeshRef PhysicsMesh) (g : GravityGraph) : GravityGraph :=
  mkGraph h (nextRef g) (nodes g) (labels g) (links g) (forces g) (maxSpeed g)
          (freeze g) (frozenNodes g) (velocityTreshold g) (baseNodeScale g)
          (linkScaleMultiplier g) (nodeFilePaths g) (currentSettings g)
          (nodeToUniqueId g) (colorPulseData g).
Definition with_links (l : list Link) (g : GravityGraph) : GravityGraph :=
  mkGraph (heap g) (nextRef g) (nodes g) (labels g) l (forces g) (maxSpeed g)
          (freeze g) (frozenNodes g) (velocityTreshold g) (baseNodeScale g)
          (linkScaleMultiplier g) (nodeFilePaths g) (currentSettings g)
          (nodeToUniqueId g) (colorPulseData g).
Definition with_labels (l : gmap string string) (g : GravityGraph) : GravityGraph :=
  mkGraph (heap g) (nextRef g) (nodes g) l (links g) (forces g) (maxSpeed g)
          (freeze g) (frozenNodes g) (velocityTreshold g) (baseNodeScale g)
          (linkScaleMultiplier g) (nodeFilePaths g) (currentSettings g)
          (nodeToUniqueId g) (colorPulseData g).

Definition with_paths (paths : gmap string string) (g : GravityGraph) : GravityGraph :=
  mkGraph (heap g) (nextRef g) (nodes g) (labels g) (links g) (forces g) (maxSpeed g)
          (freeze g) (frozenNodes g) (velocityTreshold g) (baseNodeScale g)
          (linkScaleMultiplier g) paths (currentSettings g)
          (nodeToUniqueId g) (colorPulseData g).

(** How a call ends: it returns, or a [TypeError] ends it.  Either way it
    leaves a state behind. *)
Inductive Completion (A : Type) : Type :=
  | Returned (state : A)
  | Thrown (state : A).

Arguments Returned {A} state.
Arguments Thrown {A} state.

Definition stateOf {A} (c : Completion A) : A :=
  match c with
  | Returned state | Thrown state => state
  end.

(** The completion of a call on the store is read as the store it leaves,
    wherever a store is expected. *)
Definition storeOf (c : Completion GravityGraph) : GravityGraph := stateOf c.

#[warning="-uniform-inheritance"] Coercion storeOf : Completion >-> GravityGraph.

(** A loop whose body may throw: the rounds run until one throws. *)
Fixpoint forEach {A S : Type} (body : S → A → Completion S) (s : S) (l : list A)
    : Completion S :=
  match l with
  | [] => Returned s
  | a :: l' =>
      match body s a with
      | Returned s' => forEach body s' l'
      | Thrown s' => Thrown s'
      end
  end.

(** [mesh.field] through a reference. *)
Definition deref (h : gmap MeshRef PhysicsMesh) (r : MeshRef) : PhysicsMesh := h !!! r.

(** *** Colours of nodes *)

Definition calculateBrightnessMultiplier (baseColor : Color) : R :=
  let brightness :=
    red baseColor * (299 / 1000) + green baseColor * (587 / 1000)
    + blue baseColor * (114 / 1000) in
  0 + (Rmax 0 (85 / 100 - brightness) / (85 / 100)) ^ 2 * 10.

(** [getNodeColor], with [new THREE.Color(...)] of the number it returns;
    [None] is the [TypeError] of [hexToThreeColor]. *)
Definition getNodeColor (settings : option PluginSettings)
    (paths : gmap string string) (uniqueId : string) : option Color :=
  match settings with
  | None => Some white
  | Some s =>
      let colorHex :=
        match truthy (paths !! uniqueId) with
        | None => OwnValue (defaultNodeColorHex (colorSettings s))
        | Some filePath => getNodeColorForFile filePath (colorSettings s)
        end in
      threeColor s <$> hexToThreeColor colorHex
  end.

(** *** Labels *)

Definition removeLabelForNode (uniqueId : string) (g : GravityGraph) : GravityGraph :=
  match labels g !! uniqueId with
  | Some _ => with_labels (delete uniqueId (labels g)) g
  | None => g
  end.

(** *** addNode

    [rndPhase] and [rndSpeed] are the two [Math.random()] draws.  When
    [getNodeColor] throws, the file path is stored already and nothing else
    is done. *)
Definition addNode (uniqueId : string) (filePath displayName : option string)
    (rndPhase rndSpeed : R) (g : GravityGraph) : Completion GravityGraph :=
  let nodeTitle := str_or displayName uniqueId in
  let paths :=
    match truthy filePath with
    | Some p => <[uniqueId := p]> (nodeFilePaths g)
    | None => nodeFilePaths g
    end in
  match getNodeColor (currentSettings g) paths uniqueId with
  | None => Thrown (with_paths paths g)
  | Some nodeColor =>
  let mesh :=
    mkMesh Vector3.zero Vector3.zero Vector3.zero 1 (Vector3.setScalar 1)
           nodeTitle uniqueId filePath nodeColor nodeColor (1 / 2) in
  let ref := nextRef g in
  let multiplier := calculateBrightnessMultiplier nodeColor in
  Returned
  {| heap := <[ref := mesh]> (heap g);
     nextRef := S ref;
     nodes := <[uniqueId := ref]> (nodes g);
     labels := labels g;
     links := links g;
     forces := forces g;
     maxSpeed := maxSpeed g;
     freeze := freeze g;
     frozenNodes := frozenNodes g;
     velocityTreshold := velocityTreshold g;
     baseNodeScale := baseNodeScale g;
     linkScaleMultiplier := linkScaleMultiplier g;
     nodeFilePaths := paths;
     currentSettings := currentSettings g;
     nodeToUniqueId := <[ref := uniqueId]> (nodeToUniqueId g);
     colorPulseData :=
       <[uniqueId := {| phase := rndPhase * PI * 2;
                        speed := 5 / 10 + rndSpeed * (15 / 10);
                        baseColor := nodeColor;
                        pulseColor := colorMultiplyScalar nodeColor multiplier;
                        emissiveStrenghtMultiplier := multiplier |}]>
         (colorPulseData g) |}
  end.

(** *** addLink *)

(** The predicate of [links.some] and [links.findIndex]. *)
Definition joins (a b : MeshRef) (l : Link) : bool :=
  (bool_decide (from l = a) && bool_decide (to l = b))
  || (bool_decide (from l = b) && bool_decide (to l = a)).

Definition addLink (fromUniqueId toUniqueId : string) (g : GravityGraph) : GravityGraph :=
  match nodes g !! fromUniqueId, nodes g !! toUniqueId with
  | Some fromMesh, Some toMesh =>
      let linkExists := existsb (joins fromMesh toMesh) (links g) in
      if linkExists then g
      else
        let geometry := (position (deref (heap g) fromMesh),
                         position (deref (heap g) toMesh)) in
        with_links (links g ++ [mkLink fromMesh toMesh geometry]) g
  | _, _ => g
  end.

(** *** removeNode *)

Definition touches (node : MeshRef) (l : Link) : bool :=
  bool_decide (from l = node) || bool_decide (to l = node).

Definition removeNode (uniqueId : string) (g : GravityGraph) : GravityGraph :=
  match nodes g !! uniqueId with
  | None => g
  | Some node =>
      removeLabelForNode uniqueId
        {| heap := heap g;
           nextRef := nextRef g;
           nodes := delete uniqueId (nodes g);
           labels := labels g;
           links := filter (λ l, negb (touches node l) = true) (links g);
           forces := forces g;
           maxSpeed := maxSpeed g;
           freeze := freeze g;
           frozenNodes := frozenNodes g;
           velocityTreshold := velocityTreshold g;
           baseNodeScale := baseNodeScale g;
           linkScaleMultiplier := linkScaleMultiplier g;
           nodeFilePaths := delete uniqueId (nodeFilePaths g);
           currentSettings := currentSettings g;
           nodeToUniqueId := delete node (nodeToUniqueId g);
           colorPulseData := delete uniqueId (colorPulseData g) |}
  end.

(** *** removeLink *)

(** [links.findIndex(p)]: the first index whose link satisfies [p]. *)
Fixpoint findIndex (p : Link → bool) (l : list Link) : option nat :=
  match l with
  | [] => None
  | x :: l' => if p x then Some 0%nat else S <$> findIndex p l'
  end.

Definition removeLink (fromUniqueId toUniqueId : string) (g : GravityGraph) : GravityGraph :=
  match nodes g !! fromUniqueId, nodes g !! toUniqueId with
  | Some fromNode, Some toNode =>
      match findIndex (joins fromNode toNode) (links g) with
      | Some linkIndex => with_links (delete linkIndex (links g)) g
      | None => g
      end
  | _, _ => g
  end.

(** *** renameNode *)

Definition renameNode (oldUniqueId newUniqueId : string) (newFilePath : option string)
    (g : GravityGraph) : GravityGraph :=
  match nodes g !! oldUniqueId with
  | None => g
  | Some node =>
      let retitle (m : PhysicsMesh) :=
        let m1 := set_uniqueId newUniqueId m in
        match truthy newFilePath with
        | Some p => set_filePath (Some p) m1
        | None => m1
        end in
      let pulse :=
        match colorPulseData g !! oldUniqueId with
        | Some pulseData => <[newUniqueId := pulseData]> (delete oldUniqueId (colorPulseData g))
        | None => colorPulseData g
        end in
      let paths0 := delete oldUniqueId (nodeFilePaths g) in
      let paths :=
        match truthy newFilePath with
        | Some p => <[newUniqueId := p]> paths0
        | None => paths0
        end in
      removeLabelForNode oldUniqueId
        {| heap := alter retitle node (heap g);
           nextRef := nextRef g;
           nodes := <[newUniqueId := node]> (delete oldUniqueId (nodes g));
           labels := labels g;
           links := links g;
           forces := forces g;
           maxSpeed := maxSpeed g;
           freeze := freeze g;
           frozenNodes := frozenNodes g;
           velocityTreshold := velocityTreshold g;
           baseNodeScale := baseNodeScale g;
           linkScaleMultiplier := linkScaleMultiplier g;
           nodeFilePaths := paths;
           currentSettings := currentSettings g;
           nodeToUniqueId := nodeToUniqueId g;
           colorPulseData := pulse |}
  end.

(** [hasNode], [getNode], [getNodeConnectionCount]. *)
Definition hasNode (uniqueId : string) (g : GravityGraph) : bool :=
  bool_decide (is_Some (nodes g !! uniqueId)).

Definition getNode (uniqueId : string) (g : GravityGraph) : option MeshRef :=
  nodes g !! uniqueId.

Definition getNodeConnectionCount (uniqueId : string) (g : GravityGraph) : nat :=
  match nodes g !! uniqueId with
  | None => 0%nat
  | Some node => length (filter (λ l, touches node l = true) (links g))
  end.

(** ** The physics engine *)

(** Sequencing of a loop whose body may fail. *)
Fixpoint foldM {A S : Type} (f : S → A → option S) (s : S) (l : list A) : option S :=
  match l with
  | [] => Some s
  | a :: l' => s' ← f s a; foldM f s' l'
  end.

(** [mesh.force.op(...)] through a reference. *)
Definition update_force (f : Vector3 → Vector3) (r : MeshRef)
    (h : gmap MeshRef PhysicsMesh) : gmap MeshRef PhysicsMesh :=
  alter (λ m, set_force (f (force m)) m) r h.

(** *** calculateForces *)

Definition resetForces (nodeList : list (string * MeshRef))
    (h : gmap MeshRef PhysicsMesh) : gmap MeshRef PhysicsMesh :=
  foldl (λ h '(_, node), update_force (λ _, Vector3.zero) node h) h nodeList.

(** The body of the two nested repulsion loops, for [nodeA = nodeArray[i]]
    and [nodeB = nodeArray[j]]. *)
Definition repulsePair (rep : R) (nodeA nodeB : MeshRef)
    (h : gmap MeshRef PhysicsMesh) : option (gmap MeshRef PhysicsMesh) :=
  let posA := position (deref h nodeA) in
  let posB := position (deref h nodeB) in
  let distance := Vector3.distanceTo posA posB in
  if Rltb distance (1 / 10) then Some h
  else
    repulsionForce ← rep ÷ (distance * distance);
    unit ← Vector3.normalize (Vector3.subVectors posA posB);
    let direction := Vector3.multiplyScalar unit repulsionForce in
    Some (update_force (λ f, Vector3.sub f direction) nodeB
            (update_force (λ f, Vector3.add f direction) nodeA h)).

(** The index pairs [(i, j)] with [i < j < n], in the order the nested
    loops visit them. *)
Definition indexPairs (n : nat) : list (nat * nat) :=
  i ← seq 0 n; j ← seq (S i) (n - S i); [(i, j)].

Definition repulsionPhase (rep : R) (nodeArray : list MeshRef)
    (h : gmap MeshRef PhysicsMesh) : option (gmap MeshRef PhysicsMesh) :=
  foldM (λ h '(i, j),
           match nodeArray !! i, nodeArray !! j with
           | Some nodeA, Some nodeB => repulsePair rep nodeA nodeB h
           | _, _ => Some h
           end)
        h (indexPairs (length nodeArray)).

Definition springLink (strength : R) (h : gmap MeshRef PhysicsMesh) (link : Link)
    : option (gmap MeshRef PhysicsMesh) :=
  let posFrom := position (deref h (from link)) in
  let posTo := position (deref h (to link)) in
  let distance := Vector3.distanceTo posFrom posTo in
  let idealDistance := 25 / 10 in
  let springForce := (distance - idealDistance) * strength in
  unit ← Vector3.normalize (Vector3.subVectors posTo posFrom);
  let direction := Vector3.multiplyScalar unit springForce in
  Some (update_force (λ f, Vector3.sub f direction) (to link)
          (update_force (λ f, Vector3.add f direction) (from link) h)).

Definition centerPhase (c : R) (nodeList : list (string * MeshRef))
    (h : gmap MeshRef PhysicsMesh) : gmap MeshRef PhysicsMesh :=
  foldl (λ h '(_, node),
           alter (λ m, set_force
                         (Vector3.add (force m) (Vector3.multiplyScalar (position m) (- c))) m)
                 node h)
        h nodeList.

Definition calculateForces (g : GravityGraph) : option GravityGraph :=
  let nodeList := map_to_list (nodes g) in
  let h0 := resetForces nodeList (heap g) in
  h1 ← repulsionPhase (repulsion (forces g)) nodeList.*2 h0;
  h2 ← foldM (springLink (linkStrength (forces g))) h1 (links g);
  Some (with_heap (centerPhase (centerAttraction (forces g)) nodeList h2) g).

(** *** calcLinkScale *)

Definition calcLinkScale (g : GravityGraph) (connectionCount : nat) : R :=
  if bool_decide (connectionCount ≤ 1)%nat then 1
  else baseNodeScale g + INR connectionCount * linkScaleMultiplier g.

(** *** updateAllNodes *)

(** The connection counts, through the reverse lookup map. *)
Definition countLink (rev : gmap MeshRef string) (counts : gmap string nat)
    (link : Link) : gmap string nat :=
  match truthy (rev !! from link), truthy (rev !! to link) with
  | Some fromUniqueId, Some toUniqueId =>
      let counts1 := <[fromUniqueId := (default 0 (counts !! fromUniqueId) + 1)%nat]> counts in
      <[toUniqueId := (default 0 (counts1 !! toUniqueId) + 1)%nat]> counts1
  | _, _ => counts
  end.

Definition nodeConnectionCounts (g : GravityGraph) : gmap string nat :=
  foldl (countLink (nodeToUniqueId g)) ∅ (links g).

(** [velocity.add(force)], the friction and the speed limit. *)
Definition integrate (g : GravityGraph) (velocity0 force0 : Vector3) : option Vector3 :=
  let v := Vector3.add velocity0 force0 in
  v ← (if Rgtb (friction (forces g)) 0 then
         let speedSq := Vector3.lengthSq v in
         if Rgtb speedSq (1 / 10000) then
           let speed := sqrt speedSq in
           let frictionMagnitude := friction (forces g) * speedSq in
           q ← frictionMagnitude ÷ speed;
           let frictionScale := 1 - q in
           Some (Vector3.multiplyScalar v (Rmax 0 frictionScale))
         else Some v
       else Some v);
  let currentSpeed := Vector3.length v in
  if Rgtb currentSpeed (maxSpeed g) then
    unit ← Vector3.normalize v; Some (Vector3.multiplyScalar unit (maxSpeed g))
  else Some v.

Definition with_frozen (heap' : gmap MeshRef PhysicsMesh) (frozen' : gset string)
    (g : GravityGraph) : GravityGraph :=
  mkGraph heap' (nextRef g) (nodes g) (labels g) (links g) (forces g) (maxSpeed g)
          (freeze g) frozen' (velocityTreshold g) (baseNodeScale g)
          (linkScaleMultiplier g) (nodeFilePaths g) (currentSettings g)
          (nodeToUniqueId g) (colorPulseData g).

Definition with_pulse (heap' : gmap MeshRef PhysicsMesh) (pulse' : gmap string PulseData)
    (g : GravityGraph) : GravityGraph :=
  mkGraph heap' (nextRef g) (nodes g) (labels g) (links g) (forces g) (maxSpeed g)
          (freeze g) (frozenNodes g) (velocityTreshold g) (baseNodeScale g)
          (linkScaleMultiplier g) (nodeFilePaths g) (currentSettings g)
          (nodeToUniqueId g) pulse'.

(** 1. UPDATE POSITIONS *)
Definition updatePosition (uniqueId : string) (node : MeshRef) (g : GravityGraph)
    : option GravityGraph :=
  let isFrozen := bool_decide (uniqueId ∈ frozenNodes g) in
  let m := deref (heap g) node in
  let threshold := velocityTreshold g in
  if negb isFrozen then
    v ← integrate g (velocity m) (force m);
    if freeze g then
      let speedSq := Vector3.lengthSq v in
      let forceSq := Vector3.lengthSq (force m) in
      let freezeThreshold := threshold * threshold in
      if Rltb speedSq freezeThreshold && Rltb forceSq (freezeThreshold * 100) then
        let stop m := set_force Vector3.zero (set_velocity Vector3.zero m) in
        let move m := set_position (Vector3.add (position m) Vector3.zero) m in
        Some (with_frozen (alter (λ m, move (stop m)) node (heap g))
                          ({[uniqueId]} ∪ frozenNodes g) g)
      else
        let move m := set_position (Vector3.add (position m) v) (set_velocity v m) in
        Some (with_heap (alter move node (heap g)) g)
    else
      let v' := if Rltb (Vector3.lengthSq v) (threshold * threshold)
                then Vector3.zero else v in
      let move m := set_position (Vector3.add (position m) v') (set_velocity v' m) in
      Some (with_heap (alter move node (heap g)) g)
  else
    if Rgtb (Vector3.lengthSq (force m)) (threshold * threshold * 100) then
      Some (with_frozen (heap g) (frozenNodes g ∖ {[uniqueId]}) g)
    else Some g.

(** 2. UPDATE COLORS *)
Definition updateColor (uniqueId : string) (node : MeshRef) (g : GravityGraph)
    : GravityGraph :=
  match colorPulseData g !! uniqueId with
  | Some pulseData =>
      let phase' := phase pulseData + speed pulseData * (16 / 1000) in
      let pulseFactor := (sin phase' + 1) * (5 / 10) in
      let pulseData' :=
        mkPulse phase' (speed pulseData) (baseColor pulseData) (pulseColor pulseData)
                (emissiveStrenghtMultiplier pulseData) in
      with_pulse
        (alter (set_emissiveIntensity (pulseFactor * emissiveStrenghtMultiplier pulseData))
               node (heap g))
        (<[uniqueId := pulseData']> (colorPulseData g)) g
  | None => g
  end.

(** 3. UPDATE NODE SCALES *)
Definition updateScale (counts : gmap string nat) (uniqueId : string) (node : MeshRef)
    (g : GravityGraph) : GravityGraph :=
  let connectionCount := default 0%nat (counts !! uniqueId) in
  let scale := calcLinkScale g connectionCount in
  with_heap (alter (set_scale (Vector3.mk scale scale scale)) node (heap g)) g.

(** 4. UPDATE LABELS.  The camera, with the canvas rectangle, is read as the
    test [shouldBeVisible] on a node position; of a label only its text is
    kept here, its place on the screen is that of [placeLabel] below. *)
Definition updateLabel (camera : option (Vector3 → bool)) (uniqueId : string)
    (node : MeshRef) (st : GravityGraph * gset string) : GravityGraph * gset string :=
  let '(g, visibleLabels) := st in
  match camera with
  | Some shouldBeVisible =>
      if shouldBeVisible (position (deref (heap g) node)) then
        let g' :=
          match labels g !! uniqueId with
          | Some _ => g
          | None =>
              let displayName := str_or (Some (noteTitle (deref (heap g) node))) uniqueId in
              with_labels (<[uniqueId := displayName]> (labels g)) g
          end in
        (g', {[uniqueId]} ∪ visibleLabels)
      else st
  | None => st
  end.

(** The body of the single loop over [this.nodes]. *)
Definition updateNode (counts : gmap string nat) (camera : option (Vector3 → bool))
    (st : GravityGraph * gset string) (entry : string * MeshRef)
    : option (GravityGraph * gset string) :=
  let '(uniqueId, node) := entry in
  g1 ← updatePosition uniqueId node st.1;
  let g2 := updateColor uniqueId node g1 in
  let g3 := updateScale counts uniqueId node g2 in
  Some (updateLabel camera uniqueId node (g3, st.2)).

Definition updateAllNodes (camera : option (Vector3 → bool)) (g : GravityGraph)
    : option GravityGraph :=
  let counts := nodeConnectionCounts g in
  '(g1, visibleLabels) ← foldM (updateNode counts camera) (g, ∅) (map_to_list (nodes g));
  let labels' :=
    match camera with
    | Some _ => filter (λ kv, kv.1 ∈ visibleLabels) (labels g1)
    | None => labels g1
    end in
  let refresh link :=
    mkLink (from link) (to link)
           (position (deref (heap g1) (from link)), position (deref (heap g1) (to link))) in
  Some (with_links (refresh <$> links g1) (with_labels labels' g1)).

(** [animate]: one tick of the simulation. *)
Definition tick (camera : option (Vector3 → bool)) (g : GravityGraph) : option GravityGraph :=
  g1 ← calculateForces g; updateAllNodes camera g1.

(** *** The placement of the labels

    Step 4 of the loop of [updateAllNodes] also places the label of every
    visible node on the screen: it writes a position, a scale and an opacity
    to the style of the label element.  Nothing reads them back, and the
    position of a node no longer changes after its round of the loop, so
    that the styles are those [labelStyles] computes on the store the tick
    leaves.  [LabelView] holds what the placement reads: the position of the
    camera, [v.project(camera)] of three.js, the size of the canvas, and the
    fields [maxVisibleDistance] and [labelScale] of the graph. *)
Module LabelView.

Record t := mk {
  cameraPosition : Vector3;
  project : Vector3 → Vector3;
  rectWidth : R;
  rectHeight : R;
  maxVisibleDistance : R;
  labelScale : R;
}.

End LabelView.

(** What is written to [label.style]: [left] and [top] in pixels, the scale
    of [transform] and [opacity]. *)
Module LabelStyle.

Record t := mk { left : R; top : R; scale : R; opacity : R }.

End LabelStyle.

Definition shouldBeVisible (view : LabelView.t) (nodePosition : Vector3) : bool :=
  let distanceToCamera := Vector3.distanceTo (LabelView.cameraPosition view) nodePosition in
  let screenPosition := LabelView.project view nodePosition in
  Rleb distanceToCamera (LabelView.maxVisibleDistance view)
  && Rltb (Vector3.z screenPosition) 1.

(** The placement of the label of a visible node. *)
Definition placeLabel (view : LabelView.t) (nodePosition : Vector3) : option LabelStyle.t :=
  let distanceToCamera := Vector3.distanceTo (LabelView.cameraPosition view) nodePosition in
  let screenPosition := LabelView.project view nodePosition in
  let x := (Vector3.x screenPosition * (5 / 10) + 5 / 10) * LabelView.rectWidth view in
  let y := (- Vector3.y screenPosition * (5 / 10) + 5 / 10) * LabelView.rectHeight view in
  q ← LabelView.labelScale view ÷ (distanceToCamera * (1 / 10));
  let labelScale := Rmax (5 / 10) (Rmin 2 q) in
  let fadeStart := LabelView.maxVisibleDistance view * (6 / 10) in
  opacity ←
    (if Rgtb distanceToCamera fadeStart then
       fade ← (distanceToCamera - fadeStart) ÷ (LabelView.maxVisibleDistance view - fadeStart);
       Some (1 - fade)
     else Some 1);
  Some (LabelStyle.mk x y labelScale opacity).

Definition labelStyles (view : LabelView.t) (g : GravityGraph)
    : option (gmap string LabelStyle.t) :=
  foldM (λ styles '(uniqueId, node),
           let nodePosition := position (deref (heap g) node) in
           if shouldBeVisible view nodePosition then
             style ← placeLabel view nodePosition;
             Some (<[uniqueId := style]> styles)
           else Some styles)
        ∅ (map_to_list (nodes g)).

(** A tick with a camera, with the styles it gives the labels. *)
Definition tickWithLabels (view : LabelView.t) (g : GravityGraph)
    : option (GravityGraph * gmap string LabelStyle.t) :=
  g' ← tick (Some (shouldBeVisible view)) g;
  styles ← labelStyles view g';
  Some (g', styles).

(** *** The force computation on doubles

    The numbers of the program are IEEE 754 doubles.  The definitions above
    read them as real numbers, which leaves one question open: what an
    overflow does.  [Double] repeats [calculateForces] on the doubles
    themselves.  The store is reduced to what the computation touches: the
    array [Array.from(this.nodes.values())] of the meshes, each with its
    position and its force, and the links as pairs of indices into it. *)
Module Double.

Import PrimFloat.
#[local] Set Warnings "-inexact-float".
Local Open Scope float_scope.

Module Vector3.

Record t := mk { x : float; y : float; z : float }.

Definition zero : t := mk 0 0 0.

Definition add (a b : t) : t := mk (x a + x b) (y a + y b) (z a + z b).
Definition sub (a b : t) : t := mk (x a - x b) (y a - y b) (z a - z b).
Definition subVectors (a b : t) : t := sub a b.
Definition multiplyScalar (a : t) (s : float) : t := mk (x a * s) (y a * s) (z a * s).

Definition length (a : t) : float := sqrt (x a * x a + y a * y a + z a * z a).

Definition distanceToSquared (a b : t) : float :=
  let dx := x a - x b in
  let dy := y a - y b in
  let dz := z a - z b in
  dx * dx + dy * dy + dz * dz.
Definition distanceTo (a b : t) : float := sqrt (distanceToSquared a b).

(** [divideScalar(s)] is [multiplyScalar(1 / s)]. *)
Definition divideScalar (a : t) (s : float) : t := multiplyScalar a (1 / s).

(** [v || d]: zero and NaN are falsy. *)
Definition num_or (v d : float) : float := if (v =? 0) || is_nan v then d else v.

(** [normalize()] is [divideScalar(length() || 1)]. *)
Definition normalize (a : t) : t := divideScalar a (num_or (length a) 1).

End Vector3.

Record Mesh := mkMesh { position : Vector3.t; force : Vector3.t }.

Record Forces := mkForces {
  repulsion : float;
  friction : float;
  centerAttraction : float;
  linkStrength : float;
}.

(** [nodes[i].force.op(...)] *)
Definition update_force (f : Vector3.t → Vector3.t) (i : nat) (nodes : list Mesh)
    : list Mesh :=
  alter (λ m, mkMesh (position m) (f (force m))) i nodes.

(** The body of the two nested repulsion loops. *)
Definition repulsePair (rep : float) (nodes : list Mesh) (ij : nat * nat) : list Mesh :=
  let '(i, j) := ij in
  match nodes !! i, nodes !! j with
  | Some nodeA, Some nodeB =>
      let distance := Vector3.distanceTo (position nodeA) (position nodeB) in
      if distance <? 0.1 then nodes
      else
        let repulsionForce := rep / (distance * distance) in
        let direction :=
          Vector3.multiplyScalar
            (Vector3.normalize (Vector3.subVectors (position nodeA) (position nodeB)))
            repulsionForce in
        update_force (λ f, Vector3.sub f direction) j
          (update_force (λ f, Vector3.add f direction) i nodes)
  | _, _ => nodes
  end.

(** The body of the loop over the links. *)
Definition springLink (strength : float) (nodes : list Mesh) (link : nat * nat)
    : list Mesh :=
  let '(from, to) := link in
  match nodes !! from, nodes !! to with
  | Some nodeFrom, Some nodeTo =>
      let distance := Vector3.distanceTo (position nodeFrom) (position nodeTo) in
      let idealDistance := 2.5 in
      let springForce := (distance - idealDistance) * strength in
      let direction :=
        Vector3.multiplyScalar
          (Vector3.normalize (Vector3.subVectors (position nodeTo) (position nodeFrom)))
          springForce in
      update_force (λ f, Vector3.sub f direction) to
        (update_force (λ f, Vector3.add f direction) from nodes)
  | _, _ => nodes
  end.

Definition calculateForces (forces : Forces) (links : list (nat * nat))
    (nodes : list Mesh) : list Mesh :=
  let nodes0 := (λ m, mkMesh (position m) Vector3.zero) <$> nodes in
  let nodes1 := foldl (repulsePair (repulsion forces)) nodes0 (indexPairs (length nodes)) in
  let nodes2 := foldl (springLink (linkStrength forces)) nodes1 links in
  (λ m, mkMesh (position m)
          (Vector3.add (force m)
             (Vector3.multiplyScalar (position m) (- centerAttraction forces))))
    <$> nodes2.




End Double.

(** [gravityGraph.freeze = settings.freeze], clearing the frozen set when the
    policy is switched off (from [updateSettingsParameters]). *)
Definition setFreeze (enabled : bool) (g : GravityGraph) : GravityGraph :=
  mkGraph (heap g) (nextRef g) (nodes g) (labels g) (links g) (forces g) (maxSpeed g)
          enabled (if enabled then frozenNodes g else ∅) (velocityTreshold g)
          (baseNodeScale g) (linkScaleMultiplier g) (nodeFilePaths g)
          (currentSettings g) (nodeToUniqueId g) (colorPulseData g).

(** *** updateNodeColors *)

Definition with_settings (settings : option PluginSettings) (g : GravityGraph)
    : GravityGraph :=
  mkGraph (heap g) (nextRef g) (nodes g) (labels g) (links g) (forces g) (maxSpeed g)
          (freeze g) (frozenNodes g) (velocityTreshold g) (baseNodeScale g)
          (linkScaleMultiplier g) (nodeFilePaths g) settings
          (nodeToUniqueId g) (colorPulseData g).

(** [material.color.copy(c); material.emissive.set(c)] *)
Definition set_colors (c : Color) (m : PhysicsMesh) : PhysicsMesh :=
  mkMesh (position m) (velocity m) (force m) (mass m) (scale m) (noteTitle m)
         (uniqueId m) (filePath m) c c (emissiveIntensity m).

(** The body of the loop of [updateNodeColors]; it ends by the [TypeError]
    of [getNodeColor] before it changes anything. *)
Definition recolorNode (g : GravityGraph) (entry : string * MeshRef)
    : Completion GravityGraph :=
  let '(uniqueId, node) := entry in
  match getNodeColor (currentSettings g) (nodeFilePaths g) uniqueId with
  | None => Thrown g
  | Some threeColor =>
      let pulse' :=
        match colorPulseData g !! uniqueId with
        | Some pulseData =>
            let multiplier := calculateBrightnessMultiplier threeColor in
            <[uniqueId := mkPulse (phase pulseData) (speed pulseData) threeColor
                                  (colorMultiplyScalar threeColor multiplier) multiplier]>
              (colorPulseData g)
        | None => colorPulseData g
        end in
      Returned (with_pulse (alter (set_colors threeColor) node (heap g)) pulse' g)
  end.

Definition updateNodeColors (settings : PluginSettings) (g : GravityGraph)
    : Completion GravityGraph :=
  forEach recolorNode (with_settings (Some settings) g) (map_to_list (nodes g)).

(** * The particle flow system *)

(** A reference to a pooled particle mesh. *)
Abbreviation ParticleRef := nat (only parsing).

(** What the system touches of a pooled mesh; [disposed] records that
    [geometry.dispose()] and [material.dispose()] were called on it. *)
Record ParticleMesh := mkParticleMesh {
  visible : bool;
  meshPosition : Vector3;
  meshScale : Vector3;
  disposed : bool;
}.

Global Instance ParticleMesh_inhabited : Inhabited ParticleMesh :=
  populate (mkParticleMesh false Vector3.zero (Vector3.setScalar 1) false).

(** The [{from, to}] objects handed to the particle system: references to
    the meshes of the two endpoints. *)
Record ParticleLink := mkParticleLink {
  linkFrom : MeshRef;
  linkTo : MeshRef;
}.

Record Particle := mkParticle {
  mesh : ParticleRef;
  link : ParticleLink;
  progress : R;
  particleSpeed : R;
  direction : Z;
}.

Record LinkParticleSystem := mkParticleSystem {
  meshes : gmap ParticleRef ParticleMesh;
  nextMesh : ParticleRef;
  sceneMeshes : gset ParticleRef;
  particles : list Particle;
  particlePool : list ParticleRef;
  maxParticles : nat;
  spawnRate : R;
  lastSpawn : R;
  particlesDelay : option R;
}.

Definition hide (m : ParticleMesh) : ParticleMesh :=
  mkParticleMesh false (meshPosition m) (meshScale m) (disposed m).
Definition show (m : ParticleMesh) : ParticleMesh :=
  mkParticleMesh true (meshPosition m) (meshScale m) (disposed m).
Definition place (p : Vector3) (m : ParticleMesh) : ParticleMesh :=
  mkParticleMesh (visible m) p (meshScale m) (disposed m).
Definition rescale (s : Vector3) (m : ParticleMesh) : ParticleMesh :=
  mkParticleMesh (visible m) (meshPosition m) s (disposed m).
Definition dispose_mesh (m : ParticleMesh) : ParticleMesh :=
  mkParticleMesh (visible m) (meshPosition m) (meshScale m) true.

(** [clearParticles] *)
Definition clearParticles (s : LinkParticleSystem) : LinkParticleSystem :=
  {| meshes := foldl (λ ms particle, alter hide (mesh particle) ms) (meshes s) (particles s);
     nextMesh := nextMesh s;
     sceneMeshes := sceneMeshes s;
     particles := [];
     particlePool := particlePool s;
     maxParticles := maxParticles s;
     spawnRate := spawnRate s;
     lastSpawn := lastSpawn s;
     particlesDelay := particlesDelay s |}.

(** [dispose] *)
Definition dispose (s : LinkParticleSystem) : LinkParticleSystem :=
  let s1 := clearParticles s in
  {| meshes := foldl (λ ms r, alter dispose_mesh r ms) (meshes s1) (particlePool s1);
     nextMesh := nextMesh s1;
     sceneMeshes := foldl (λ sc r, sc ∖ {[r]}) (sceneMeshes s1) (particlePool s1);
     particles := particles s1;
     particlePool := [];
     maxParticles := maxParticles s1;
     spawnRate := spawnRate s1;
     lastSpawn := lastSpawn s1;
     particlesDelay := particlesDelay s1 |}.

(** One round of the loop of [initializeParticlePool]: a new invisible mesh
    is added to the scene and pushed on the pool. *)
Definition allocateSlot (s : LinkParticleSystem) : LinkParticleSystem :=
  let particle := nextMesh s in
  {| meshes := <[particle := mkParticleMesh false Vector3.zero (Vector3.setScalar 1) false]>
                 (meshes s);
     nextMesh := S particle;
     sceneMeshes := {[particle]} ∪ sceneMeshes s;
     particles := particles s;
     particlePool := particlePool s ++ [particle];
     maxParticles := maxParticles s;
     spawnRate := spawnRate s;
     lastSpawn := lastSpawn s;
     particlesDelay := particlesDelay s |}.

Definition initializeParticlePool (s : LinkParticleSystem) : LinkParticleSystem :=
  Nat.iter (maxParticles s) allocateSlot (dispose s).

(** The constructor; [maxParticles] defaults to 5000. *)
Definition newLinkParticleSystem (maxParticles0 : nat) : LinkParticleSystem :=
  initializeParticlePool
    {| meshes := ∅; nextMesh := 0%nat; sceneMeshes := ∅; particles := [];
       particlePool := []; maxParticles := maxParticles0; spawnRate := 1000;
       lastSpawn := 0; particlesDelay := None |}.

(** [updateParticlePosition]; [nodeHeap] is the heap of the graph, where the
    positions of the endpoints are read. *)
Definition particlePosition (nodeHeap : gmap MeshRef PhysicsMesh) (particle : Particle)
    : Vector3 :=
  let fromPos := position (deref nodeHeap (linkFrom (link particle))) in
  let toPos := position (deref nodeHeap (linkTo (link particle))) in
  let startPos := if bool_decide (direction particle = 1%Z) then fromPos else toPos in
  let endPos := if bool_decide (direction particle = 1%Z) then toPos else fromPos in
  Vector3.lerpVectors startPos endPos (progress particle).

(** [spawnParticle]; [rnd] is the [Math.random()] draw of the speed. *)
Definition spawnParticle (nodeHeap : gmap MeshRef PhysicsMesh) (link0 : ParticleLink)
    (rnd : R) (s : LinkParticleSystem) : LinkParticleSystem :=
  if bool_decide (maxParticles s ≤ length (particles s))%nat then s
  else
    match find (λ r, negb (visible (meshes s !!! r))) (particlePool s) with
    | None => s
    | Some availableParticle =>
        let direction0 := 1%Z in
        let startProgress := if bool_decide (direction0 = 1%Z) then 0 else 1 in
        let particle :=
          mkParticle availableParticle link0 startProgress (3 / 10 + rnd * (4 / 10))
                     direction0 in
        {| meshes := alter (λ m, show (place (particlePosition nodeHeap particle) m))
                           availableParticle (meshes s);
           nextMesh := nextMesh s;
           sceneMeshes := sceneMeshes s;
           particles := particles s ++ [particle];
           particlePool := particlePool s;
           maxParticles := maxParticles s;
           spawnRate := spawnRate s;
           lastSpawn := lastSpawn s;
           particlesDelay := particlesDelay s |}
    end.

(** The body of the loop of [update] over the live particles, for the
    particle at index [i]; the loop runs from the last index down, and a
    particle that reached its end is spliced out. *)
Definition advanceParticle (nodeHeap : gmap MeshRef PhysicsMesh) (deltaTime currentTime : R)
    (entry : nat * Particle) (st : gmap ParticleRef ParticleMesh * list Particle)
    : gmap ParticleRef ParticleMesh * list Particle :=
  let '(i, particle) := entry in
  let '(ms, kept) := st in
  let progress' :=
    progress particle + particleSpeed particle * deltaTime * IZR (direction particle) in
  let particle' :=
    mkParticle (mesh particle) (link particle) progress' (particleSpeed particle)
               (direction particle) in
  if (bool_decide (direction particle = 1%Z) && Rgeb progress' 1)
     || (bool_decide (direction particle = (-1)%Z) && Rleb progress' 0)
  then (alter hide (mesh particle) ms, kept)
  else
    let pulse := 1 + 3 / 10 * sin (currentTime * (5 / 1000) + INR i) in
    (alter (λ m, rescale (Vector3.setScalar pulse)
                   (place (particlePosition nodeHeap particle') m))
           (mesh particle) ms,
     particle' :: kept).

(** [update]; [currentTime] is [performance.now()] and [shuffledLinks] the
    outcome of the random sort of [links].  Besides the new state, the
    spawn attempts handed to [setTimeout] are returned with their delays (a
    delay computed from an unset [particlesDelay] is not a number, which
    [setTimeout] takes as 0). *)
Definition update (nodeHeap : gmap MeshRef PhysicsMesh) (deltaTime currentTime : R)
    (links0 shuffledLinks : list ParticleLink) (s : LinkParticleSystem)
    : LinkParticleSystem * list (R * ParticleLink) :=
  let due := Rgtb (currentTime - lastSpawn s) (spawnRate s)
             && bool_decide (0 < length links0)%nat in
  let scheduled :=
    if due then
      imap (λ index link0, (default 0 ((λ d, INR index * d) <$> particlesDelay s), link0))
           shuffledLinks
    else [] in
  let '(ms, kept) :=
    foldr (advanceParticle nodeHeap deltaTime currentTime) (meshes s, [])
          (imap (λ i particle, (i, particle)) (particles s)) in
  ({| meshes := ms;
      nextMesh := nextMesh s;
      sceneMeshes := sceneMeshes s;
      particles := kept;
      particlePool := particlePool s;
      maxParticles := maxParticles s;
      spawnRate := spawnRate s;
      lastSpawn := if due then currentTime else lastSpawn s;
      particlesDelay := particlesDelay s |},
   scheduled).

Definition setSpawnRate (milliseconds : R) (s : LinkParticleSystem) : LinkParticleSystem :=
  mkParticleSystem (meshes s) (nextMesh s) (sceneMeshes s) (particles s) (particlePool s)
                   (maxParticles s) milliseconds (lastSpawn s) (particlesDelay s).

Definition setParticlesShuffleDelay (delay : R) (s : LinkParticleSystem)
    : LinkParticleSystem :=
  mkParticleSystem (meshes s) (nextMesh s) (sceneMeshes s) (particles s) (particlePool s)
                   (maxParticles s) (spawnRate s) (lastSpawn s) (Some delay).

Definition setMaxParticles (maxParticles0 : nat) (s : LinkParticleSystem)
    : LinkParticleSystem :=
  initializeParticlePool
    (mkParticleSystem (meshes s) (nextMesh s) (sceneMeshes s) (particles s)
                      (particlePool s) maxParticles0 (spawnRate s) (lastSpawn s)
                      (particlesDelay s)).

(** The calls the particle system receives: from the frame loop, from the
    timers set by [update], and from the settings. *)
Inductive ParticleOp :=
  | PSpawn (nodeHeap : gmap MeshRef PhysicsMesh) (link0 : ParticleLink) (rnd : R)
  | PUpdate (nodeHeap : gmap MeshRef PhysicsMesh) (deltaTime currentTime : R)
            (links0 shuffledLinks : list ParticleLink)
  | PSetSpawnRate (milliseconds : R)
  | PSetParticlesShuffleDelay (delay : R)
  | PSetMaxParticles (maxParticles0 : nat)
  | PClearParticles
  | PDispose.

Definition applyParticleOp (s : LinkParticleSystem) (op : ParticleOp) : LinkParticleSystem :=
  match op with
  | PSpawn h l rnd => spawnParticle h l rnd s
  | PUpdate h dt now ls shuffled => (update h dt now ls shuffled s).1
  | PSetSpawnRate ms => setSpawnRate ms s
  | PSetParticlesShuffleDelay d => setParticlesShuffleDelay d s
  | PSetMaxParticles n => setMaxParticles n s
  | PClearParticles => clearParticles s
  | PDispose => dispose s
  end.

(** The spawns and updates: the calls of the hot path. *)
Definition hotPath (op : ParticleOp) : bool :=
  match op with
  | PSpawn _ _ _ | PUpdate _ _ _ _ _ => true
  | _ => false
  end.

(** * The identity resolver *)

(** The three maps of [GraphView] that name the nodes. *)
Record GraphView := mkGraphView {
  pathToUniqueId : gmap string string;
  uniqueIdToPath : gmap string string;
  nodeNameCounter : gmap string nat;
}.

Definition newGraphView : GraphView := mkGraphView ∅ ∅ ∅.

(** [path.split('/').slice(-2, -1)[0] || 'root'] *)
Definition folderNameOf (path : string) : string :=
  let parts := splitSlash path in
  let parent := if bool_decide (length parts < 2)%nat then None
                else parts !! (length parts - 2)%nat in
  str_or parent "root".

(** The loop [while (uniqueIdToPath.has(testId))], entered with [testId] and
    [counter]; it runs at most [fuel] times. *)
Fixpoint findFreeId (fuel : nat) (taken : gmap string string) (uniqueId testId : string)
    (counter : nat) : string :=
  match fuel with
  | O => testId
  | S fuel' =>
      if bool_decide (is_Some (taken !! testId))
      then findFreeId fuel' taken uniqueId (uniqueId +:+ " " +:+ pretty counter) (S counter)
      else testId
  end.

Definition generateUniqueNodeId (basename path : string) (v : GraphView)
    : string * GraphView :=
  match pathToUniqueId v !! path with
  | Some uniqueId => (uniqueId, v)
  | None =>
      let count := default 0%nat (nodeNameCounter v !! basename) in
      let counter' := <[basename := (count + 1)%nat]> (nodeNameCounter v) in
      let uniqueId :=
        if bool_decide (count = 0%nat) then basename
        else
          let folderName := folderNameOf path in
          let uniqueId := basename +:+ " (" +:+ folderName +:+ ")" in
          findFreeId (S (size (uniqueIdToPath v))) (uniqueIdToPath v) uniqueId uniqueId 1 in
      (uniqueId,
       mkGraphView (<[path := uniqueId]> (pathToUniqueId v))
                   (<[uniqueId := path]> (uniqueIdToPath v))
                   counter')
  end.

Definition getUniqueIdFromPath (path : string) (v : GraphView) : option string :=
  truthy (pathToUniqueId v !! path).

Definition getPathFromUniqueId (uniqueId : string) (v : GraphView) : option string :=
  truthy (uniqueIdToPath v !! uniqueId).

(** * Live updates of the graph *)

(** What the handlers read of a vault file. *)
Module TFile.

Record t := mk { path : string; basename : string }.

End TFile.

Abbreviation TFile := TFile.t.

Definition set_noteTitle (title : string) (m : PhysicsMesh) : PhysicsMesh :=
  mkMesh (position m) (velocity m) (force m) (mass m) (scale m) title
         (uniqueId m) (filePath m) (materialColor m) (emissive m) (emissiveIntensity m).

(** The state of [GraphView] the handlers work on: the three maps of the
    resolver, the graph (unset until the view has built it) and the cache
    of the links of each note. *)
Record LiveGraphView := mkLiveGraphView {
  resolver : GraphView;
  gravityGraph : option GravityGraph;
  previousLinks : gmap string (list string);
}.

(** [onNoteDeleted] *)
Definition onNoteDeleted (file : TFile) (s : LiveGraphView) : LiveGraphView :=
  match gravityGraph s with
  | None => s
  | Some g =>
      match getUniqueIdFromPath (TFile.path file) (resolver s) with
      | None => s
      | Some uniqueId =>
          let v := resolver s in
          let basename := TFile.basename file in
          let count := default 0%nat (nodeNameCounter v !! basename) in
          let counter' :=
            if bool_decide (1 < count)%nat
            then <[basename := (count - 1)%nat]> (nodeNameCounter v)
            else delete basename (nodeNameCounter v) in
          {| resolver :=
               mkGraphView (delete (TFile.path file) (pathToUniqueId v))
                           (delete uniqueId (uniqueIdToPath v))
                           counter';
             gravityGraph := Some (removeNode uniqueId g);
             previousLinks := delete (TFile.path file) (previousLinks s) |}
      end
  end.

(** [onNoteRenamed] *)
Definition onNoteRenamed (file : TFile) (oldPath : string) (s : LiveGraphView)
    : LiveGraphView :=
  match gravityGraph s with
  | None => s
  | Some g =>
      match getUniqueIdFromPath oldPath (resolver s) with
      | None => s
      | Some oldUniqueId =>
          let '(newUniqueId, v) :=
            generateUniqueNodeId (TFile.basename file) (TFile.path file) (resolver s) in
          let g1 := renameNode oldUniqueId newUniqueId (Some (TFile.path file)) g in
          let v' :=
            mkGraphView
              (<[TFile.path file := newUniqueId]> (delete oldPath (pathToUniqueId v)))
              (<[newUniqueId := TFile.path file]> (delete oldUniqueId (uniqueIdToPath v)))
              (nodeNameCounter v) in
          let g2 :=
            match nodes g1 !! newUniqueId with
            | Some node =>
                with_heap
                  (alter (λ m, set_filePath (Some (TFile.path file))
                                 (set_uniqueId newUniqueId
                                    (set_noteTitle (TFile.basename file) m)))
                         node (heap g1))
                  g1
            | None => g1
            end in
          let cache :=
            match previousLinks s !! oldPath with
            | Some links => <[TFile.path file := links]> (delete oldPath (previousLinks s))
            | None => previousLinks s
            end in
          {| resolver := v'; gravityGraph := Some g2; previousLinks := cache |}
      end
  end.

(** * The links of a note *)

(** [s.startsWith(p)], with what follows [p]. *)
Fixpoint afterPrefix (p s : string) : option string :=
  match p, s with
  | EmptyString, _ => Some s
  | String a p', String b s' => if decide (a = b) then afterPrefix p' s' else None
  | String _ _, EmptyString => None
  end.

(** A character class repeated once or more, followed by [k]: the
    repetition is greedy, it takes the longest run first and gives
    characters back one at a time until [k] matches what follows.  [k] is
    given the run and the rest of the text. *)
Fixpoint plusThen {A} (p : ascii → bool) (k : string → string → option A) (s : string)
    : option A :=
  match s with
  | EmptyString => None
  | String c s' =>
      if p c then
        match plusThen p (λ run rest, k (String c run) rest) s' with
        | Some r => Some r
        | None => k (String c EmptyString) s'
        end
      else None
  end.

(** The classes [[^\]|]] and [[^\]]]. *)
Definition notBracketOrBar (c : ascii) : bool :=
  negb (bool_decide (c = "]"%char ∨ c = "|"%char)).

Definition notBracket (c : ascii) : bool := negb (bool_decide (c = "]"%char)).

(** The expression [\[\[([^\]|]+)(?:\|[^\]]+)?\]\]] matched at the start of
    [s]: the text of group 1 and what follows the match.  The optional
    group is tried first, and left out if the match fails with it. *)
Definition wikiLinkAt (s : string) : option (string * string) :=
  s1 ← afterPrefix "[[" s;
  plusThen notBracketOrBar
    (λ target s2,
       match (s3 ← afterPrefix "|" s2;
              plusThen notBracket (λ _ s4, afterPrefix "]]" s4) s3) with
       | Some rest => Some (target, rest)
       | None => rest ← afterPrefix "]]" s2; Some (target, rest)
       end)
    s1.

(** [s.endsWith(suffix)] and [s.includes(c)]. *)
Definition endsWith (suffix s : string) : bool :=
  bool_decide (String.length suffix ≤ String.length s)%nat
  && bool_decide (String.substring (String.length s - String.length suffix)
                            (String.length suffix) s = suffix).

Fixpoint includes (c : ascii) (s : string) : bool :=
  match s with
  | EmptyString => false
  | String a s' => bool_decide (a = c) || includes c s'
  end.

(** The body of the loop of [extractLinks], from [match[1]] to the name that
    is pushed. *)
Definition linkTargetOf (linkTarget : string) : string :=
  let linkTarget :=
    if endsWith ".md" linkTarget
    then String.substring 0 (String.length linkTarget - 3) linkTarget
    else linkTarget in
  if includes "/" linkTarget
  then str_or (last (splitSlash linkTarget)) linkTarget
  else linkTarget.

(** The loop [while ((match = wikiLinkRegex.exec(content)) !== null)] of the
    global expression: a search starts where the last match ended; [skip]
    counts the characters of [content] that still belong to that match. *)
Fixpoint execLoop (skip : nat) (content : string) : list string :=
  match content with
  | EmptyString => []
  | String _ content' =>
      match skip with
      | S skip' => execLoop skip' content'
      | O =>
          match wikiLinkAt content with
          | Some (target, rest) =>
              linkTargetOf target
              :: execLoop (String.length content' - String.length rest) content'
          | None => execLoop 0 content'
          end
      end
  end.

Definition extractLinks (content : string) : list string := execLoop 0 content.

(** * Applying the settings *)

(** The fields of the plugin settings that [updateSettingsParameters] hands
    to the graph and to its particle system; [colors] is what
    [updateNodeColors] is given. *)
Module Settings.

Record t := mk {
  forces : Forces;
  maxSpeed : R;
  freeze : bool;
  baseNodeScale : R;
  linkScaleMultiplier : R;
  maxParticles : nat;
  particlesSpawnRate : R;
  particlesShuffleDelay : R;
  colors : PluginSettings;
}.

End Settings.


(** * Moving with the wheel *)

(** What the wheel handler works on; [wheelAnimating] says that
    [wheelAnimationId] holds the id of a requested frame. *)
Record WheelState := mkWheelState {
  currentWheelVelocity : R;
  wheelAnimating : bool;
  cameraPosition : Vector3;
  controlsTarget : Vector3;
}.

(** [v.addScaledVector(d, s)] *)
Definition addScaledVector (v d : Vector3) (s : R) : Vector3 :=
  Vector3.add v (Vector3.multiplyScalar d s).

(** One frame of [smoothMove]; [direction] is the direction the camera
    looks in. *)
Definition smoothMove (direction : Vector3) (w : WheelState) : WheelState :=
  if Rgtb (Rabs (currentWheelVelocity w)) (1 / 10) then
    {| currentWheelVelocity := currentWheelVelocity w * (90 / 100);
       wheelAnimating := true;
       cameraPosition :=
         addScaledVector (cameraPosition w) direction (currentWheelVelocity w);
       controlsTarget :=
         addScaledVector (controlsTarget w) direction (currentWheelVelocity w) |}
  else
    {| currentWheelVelocity := 0;
       wheelAnimating := false;
       cameraPosition := cameraPosition w;
       controlsTarget := controlsTarget w |}.

(** [handleWheelMovement]; [deltaY] is that of the wheel event. *)
Definition handleWheelMovement (deltaY : R) (direction : Vector3) (w : WheelState)
    : WheelState :=
  let speed := 35 / 100 in
  let delta := (if Rgtb deltaY 0 then -1 else 1) * speed in
  let w1 :=
    {| currentWheelVelocity := currentWheelVelocity w + delta;
       wheelAnimating := wheelAnimating w;
       cameraPosition := cameraPosition w;
       controlsTarget := controlsTarget w |} in
  if wheelAnimating w then w1 else smoothMove direction w1.

(** The frames that follow, one for each direction of the list, as long as
    a frame is requested. *)
Definition wheelFrames (directions : list Vector3) (w : WheelState) : WheelState :=
  foldl (λ w direction, if wheelAnimating w then smoothMove direction w else w)
        w directions.

(** * The vocabulary of the properties *)

(** ** Mutations of the store *)

(** No two positions of the list hold links that join the same two meshes. *)
Definition linksUnique (ls : list Link) : Prop :=
  ∀ i j li lj, ls !! i = Some li → ls !! j = Some lj →
    joins (from li) (to li) lj = true → i = j.

Inductive StoreOp :=
  | OpAddNode (uniqueId : string) (filePath displayName : option string) (rndPhase rndSpeed : R)
  | OpAddLink (fromUniqueId toUniqueId : string)
  | OpRemoveNode (uniqueId : string)
  | OpRemoveLink (fromUniqueId toUniqueId : string)
  | OpRenameNode (oldUniqueId newUniqueId : string) (newFilePath : option string).

Definition applyOp (g : GravityGraph) (op : StoreOp) : GravityGraph :=
  match op with
  | OpAddNode i p d r1 r2 => addNode i p d r1 r2 g
  | OpAddLink a b => addLink a b g
  | OpRemoveNode i => removeNode i g
  | OpRemoveLink a b => removeLink a b g
  | OpRenameNode o n p => renameNode o n p g
  end.

(** ** Well-formed stores and particle systems *)

(** Every registered node has its mesh on the heap, no mesh is registered
    under two ids, and the allocator never hands out a used reference. *)
Record wf (g : GravityGraph) : Prop := mkWf {
  wf_heap : ∀ id r, nodes g !! id = Some r → is_Some (heap g !! r);
  wf_inj : ∀ id1 id2 r, nodes g !! id1 = Some r → nodes g !! id2 = Some r → id1 = id2;
  wf_fresh : ∀ r, is_Some (heap g !! r) → (r < nextRef g)%nat;
}.

(** Every pooled slot is a mesh of the system, and the allocator never hands
    out a used reference. *)
Record particlesWf (s : LinkParticleSystem) : Prop := mkParticlesWf {
  pool_allocated : ∀ r, r ∈ particlePool s → is_Some (meshes s !! r);
  meshes_below : ∀ r, is_Some (meshes s !! r) → (r < nextMesh s)%nat;
}.

(** ** The view of one node *)

(** What the body of the loop reads of the store besides the node at hand. *)
Definition config (g : GravityGraph) : Forces * R * bool * R * R * R :=
  (forces g, maxSpeed g, freeze g, velocityTreshold g, baseNodeScale g,
   linkScaleMultiplier g).

(** What the body of the loop reads and writes for the node [uniqueId] with
    mesh [node]. *)
Definition nodeView (uniqueId : string) (node : MeshRef) (g : GravityGraph)
    : option PhysicsMesh * bool * option PulseData :=
  (heap g !! node, bool_decide (uniqueId ∈ frozenNodes g), colorPulseData g !! uniqueId).

(** Two heaps hold the same meshes up to their forces. *)
Definition sameButForces (h h' : gmap MeshRef PhysicsMesh) : Prop :=
  ∀ r, set_force Vector3.zero <$> h' !! r = set_force Vector3.zero <$> h !! r.

(** ** Sums over the live meshes *)

Definition sumVectors (vs : list Vector3) : Vector3 :=
  foldr Vector3.add Vector3.zero vs.

(** The meshes registered in [nodes], in the order the loops visit them. *)
Definition liveMeshes (g : GravityGraph) : list MeshRef := (map_to_list (nodes g)).*2.

(** The sum of the forces, and of the positions, of the meshes [refs]. *)
Definition forceSum (refs : list MeshRef) (h : gmap MeshRef PhysicsMesh) : Vector3 :=
  sumVectors ((λ r, force (deref h r)) <$> refs).

Definition positionSum (refs : list MeshRef) (h : gmap MeshRef PhysicsMesh) : Vector3 :=
  sumVectors ((λ r, position (deref h r)) <$> refs).

(** Both endpoints of every link are registered nodes. *)
Definition linksLive (g : GravityGraph) : Prop :=
  ∀ l, l ∈ links g → from l ∈ liveMeshes g ∧ to l ∈ liveMeshes g.

(** ** The force on one node *)

(** The repulsion a node at [p] receives from a node at [q]: none when the
    two are closer than 0.1, else [rep / distance²] times the unit vector
    from [q] to [p]. *)
Definition repulsionOn (rep : R) (p q : Vector3) : Vector3 :=
  let distance := Vector3.distanceTo p q in
  if Rltb distance (1 / 10) then Vector3.zero
  else Vector3.multiplyScalar
         (Vector3.multiplyScalar (Vector3.sub p q) (1 / distance))
         (rep / (distance * distance)).

(** The pull of the link [l] on the mesh [r]: the spring force
    [(distance - 2.5) * strength] along the unit vector from the [from] end
    to the [to] end when [r] is the [from] end, and its opposite when [r] is
    the [to] end. *)
Definition springOn (strength : R) (h : gmap MeshRef PhysicsMesh) (r : MeshRef)
    (l : Link) : Vector3 :=
  let posFrom := position (deref h (from l)) in
  let posTo := position (deref h (to l)) in
  let distance := Vector3.distanceTo posFrom posTo in
  let direction :=
    Vector3.multiplyScalar
      (Vector3.multiplyScalar (Vector3.sub posTo posFrom) (1 / num_or distance 1))
      ((distance - 25 / 10) * strength) in
  Vector3.add (if decide (from l = r) then direction else Vector3.zero)
              (if decide (to l = r) then Vector3.sub Vector3.zero direction
               else Vector3.zero).

(** The net force on the mesh [r] of the store [g]: the repulsion from every
    other node, the pull of every link, and the attraction of the centre. *)
Definition netForce (g : GravityGraph) (r : MeshRef) : Vector3 :=
  let p := position (deref (heap g) r) in
  let others := filter (λ r', r' ≠ r) (liveMeshes g) in
  Vector3.add
    (Vector3.add
       (sumVectors ((λ r', repulsionOn (repulsion (forces g)) p
                             (position (deref (heap g) r'))) <$> others))
       (sumVectors (springOn (linkStrength (forces g)) (heap g) r <$> links g)))
    (Vector3.multiplyScalar p (- centerAttraction (forces g))).


(** ** Colours *)

(** The pulse data of a node after it is given the colour [c]. *)
Definition recolorPulse (c : Color) (d : PulseData) : PulseData :=
  mkPulse (phase d) (speed d) c
          (colorMultiplyScalar c (calculateBrightnessMultiplier c))
          (calculateBrightnessMultiplier c).

(** ** The particles in flight and the pool *)

(** The particles in flight hold distinct meshes of the pool, a mesh of the
    pool is visible exactly when a particle in flight holds it, and the
    pool is either empty or of the configured size. *)
Record particlesExclusive (s : LinkParticleSystem) : Prop := mkParticlesExclusive {
  flight_distinct : NoDup (mesh <$> particles s);
  flight_pooled : ∀ r, r ∈ mesh <$> particles s → r ∈ particlePool s;
  pool_distinct : NoDup (particlePool s);
  pool_visible : ∀ r, r ∈ particlePool s →
                   (visible (meshes s !!! r) = true ↔ r ∈ mesh <$> particles s);
  pool_size : particlePool s = [] ∨ length (particlePool s) = maxParticles s;
}.

(** ** The events of the view *)

(** Every id that resolves to a path is the id that path resolves to. *)
Definition resolverConsistent (v : GraphView) : Prop :=
  ∀ uniqueId path,
    uniqueIdToPath v !! uniqueId = Some path → pathToUniqueId v !! path = Some uniqueId.

(** The calls that change the resolver: an id asked for a file (when the
    view opens, when nodes are added, when a note is created), a note
    deleted, a note renamed. *)
Inductive LiveEvent :=
  | EvResolve (basename path : string)
  | EvDeleted (file : TFile)
  | EvRenamed (file : TFile) (oldPath : string)
  | EvGraph (g : option GravityGraph).

(** [EvGraph g] stands for what the rest of the view does to the graph
    between two of the other events: it builds it, adds nodes and links to
    it, runs its ticks. *)
Definition applyLiveEvent (s : LiveGraphView) (e : LiveEvent) : LiveGraphView :=
  match e with
  | EvResolve basename path =>
      {| resolver := (generateUniqueNodeId basename path (resolver s)).2;
         gravityGraph := gravityGraph s;
         previousLinks := previousLinks s |}
  | EvDeleted file => onNoteDeleted file s
  | EvRenamed file oldPath => onNoteRenamed file oldPath s
  | EvGraph g =>
      {| resolver := resolver s; gravityGraph := g; previousLinks := previousLinks s |}
  end.

(** ** The characters of a string *)

Fixpoint allChars (p : ascii → bool) (s : string) : bool :=
  match s with
  | EmptyString => true
  | String c s' => p c && allChars p s'
  end.

(** A folder name: not empty, without a slash. *)
Definition folderName (segment : string) : Prop :=
  segment ≠ "" ∧ includes "/" segment = false.

(** The hierarchy of the folder with the segments [parts]. *)
Definition hierarchyOf (parts : list string) : list string :=
  (λ i, String.concat "/" (take (S i) parts)) <$> seq 0 (length parts).

(** ** The ids the resolver tries *)

(** The ids the loop tries, in order. *)
Definition candidate (uniqueId : string) (k : nat) : string :=
  match k with
  | O => uniqueId
  | S _ => uniqueId +:+ " " +:+ pretty k
  end.

(** ** Example stores *)

(** Three nodes, [B] linked to [A] and to [C]. *)
Definition graphABC : GravityGraph :=
  addLink "B" "C" (addLink "A" "B"
    (addNode "C" None None 0 0 (addNode "B" None None 0 0
      (addNode "A" None None 0 0 newGravityGraph)))).

(** A node with a file path, linked to a second node. *)
Definition graphXZ : GravityGraph :=
  addLink "X" "Z" (addNode "Z" None None 0 0
    (addNode "X" (Some "notes/X.md") (Some "X") 0 0 newGravityGraph)).

(** A store with the freeze policy on and one node ["A"], placed at
    (-3, 0, 0) with velocity (-0.003, 0, 0) (the host places a new node and
    gives it a velocity this way, in [startNodeAddition]). *)
Definition graphDrifting : GravityGraph :=
  let g := setFreeze true (addNode "A" None None 0 0 newGravityGraph) in
  with_heap
    (alter (λ m, set_velocity (Vector3.mk (- 3 / 1000) 0 0)
                   (set_position (Vector3.mk (- 3) 0 0) m))
           0%nat (heap g))
    g.

(** Three nodes placed apart: [A] at (3, 0, 0) with velocity (3, 4, 0),
    faster than [maxSpeed]; [B] at (0, 4, 0); [C] at the origin.  [B] is
    linked to [A] and to [C] (the host places a new node and gives it a
    velocity before it adds the links). *)
Definition graphSpread : GravityGraph :=
  let g := addNode "C" None None 0 0 (addNode "B" None None 0 0
             (addNode "A" None None 0 0 newGravityGraph)) in
  let g1 :=
    with_heap (alter (λ m, set_velocity (Vector3.mk 3 4 0)
                             (set_position (Vector3.mk 3 0 0) m))
                     0%nat (heap g)) g in
  let g2 := with_heap (alter (set_position (Vector3.mk 0 4 0)) 1%nat (heap g1)) g1 in
  addLink "B" "C" (addLink "A" "B" g2).

(** Settings that colour the folder [notes] red; [0xff0000] is red and, for
    the example, every other number white. *)
Definition settingsRedNotes : PluginSettings :=
  mkSettings (mkFolderColorSettings {["notes" := "#ff0000"]} "#ffffff")
             (λ hex, match hex with
                     | Hex 16711680 => mkColor 1 0 0
                     | _ => white
                     end).

(** A store whose one node is a note of a folder named [constructor]. *)
Definition graphConstructor : GravityGraph :=
  addNode "n" (Some "constructor/n.md") None 0 0 newGravityGraph.

(** * Properties of the graph store *)

Section store_facts.

Implicit Types (g : GravityGraph) (l : Link).

Lemma addNode_links uniqueId filePath displayName rndPhase rndSpeed g :
  links (addNode uniqueId filePath displayName rndPhase rndSpeed g) = links g.
Proof. unfold addNode. by destruct (getNodeColor _ _ _). Qed.


Lemma removeLabelForNode_labels uniqueId g :
  labels (removeLabelForNode uniqueId g) = delete uniqueId (labels g).
Proof.
  unfold removeLabelForNode.
  destruct (labels g !! uniqueId) eqn:E; [done|].
  by rewrite delete_id.
Qed.

Lemma removeLabelForNode_frame uniqueId g :
  let g' := removeLabelForNode uniqueId g in
  heap g' = heap g ∧ nodes g' = nodes g ∧ links g' = links g
  ∧ nodeFilePaths g' = nodeFilePaths g ∧ colorPulseData g' = colorPulseData g
  ∧ nodeToUniqueId g' = nodeToUniqueId g ∧ nextRef g' = nextRef g
  ∧ frozenNodes g' = frozenNodes g.
Proof. unfold removeLabelForNode. by destruct (labels g !! uniqueId). Qed.

Lemma deref_lookup (h : gmap MeshRef PhysicsMesh) r m :
  h !! r = Some m → deref h r = m.
Proof. intros H. unfold deref. by rewrite lookup_total_alt, H. Qed.

Lemma deref_alter_eq (f : PhysicsMesh → PhysicsMesh) (h : gmap MeshRef PhysicsMesh) r m :
  h !! r = Some m → deref (alter f r h) r = f m.
Proof. intros H. apply deref_lookup. by rewrite lookup_alter_eq, H. Qed.

Lemma deref_alter_ne (f : PhysicsMesh → PhysicsMesh) (h : gmap MeshRef PhysicsMesh) r r' :
  r ≠ r' → deref (alter f r h) r' = deref h r'.
Proof. intros H. unfold deref. by rewrite !lookup_total_alt, lookup_alter_ne. Qed.

Lemma joins_sym a b l : joins a b l = joins b a l.
Proof. unfold joins. apply orb_comm. Qed.

Lemma existsb_joins_sym a b (ls : list Link) :
  existsb (joins b a) ls = existsb (joins a b) ls.
Proof. induction ls as [|l ls IH]; simpl; [done|]. by rewrite IH, (joins_sym a b). Qed.

Lemma existsb_snoc (p : Link → bool) ls l :
  existsb p (ls ++ [l]) = existsb p ls || p l.
Proof. rewrite existsb_app. simpl. by rewrite orb_false_r. Qed.

Lemma joins_self a b geometry : joins a b (mkLink a b geometry) = true.
Proof. unfold joins; simpl. by rewrite !bool_decide_eq_true_2 by done. Qed.

End store_facts.

(** C9.  A link request that names an id which is not a live node changes
    nothing: [addLink] and [removeLink] return the store as it was (and, as
    total functions, always return). *)
Theorem invalid_reference_is_ignored (g : GravityGraph) (a b : string) :
  nodes g !! a = None ∨ nodes g !! b = None →
  addLink a b g = g ∧ removeLink a b g = g.
Proof.
  intros [H | H]; unfold addLink, removeLink; rewrite H.
  - done.
  - by destruct (nodes g !! a).
Qed.

Lemma invalid_reference_is_ignored_witness :
  let g := addNode "A" None None 0 0 newGravityGraph in
  addLink "A" "ghost" g = g ∧ removeLink "A" "ghost" g = g.
Proof.
  apply (invalid_reference_is_ignored
           (addNode "A" None None 0 0 newGravityGraph) "A" "ghost").
  right. reflexivity.
Defined.

(** C5.  [removeNode] of a live id removes the node and, in the same call,
    exactly the links that have its mesh as an endpoint; every other node
    keeps its mesh, and with it its position and velocity. *)
Theorem removeNode_cascades (g : GravityGraph) (uniqueId : string) (node : MeshRef) :
  nodes g !! uniqueId = Some node →
  let g' := removeNode uniqueId g in
  nodes g' !! uniqueId = None
  ∧ links g' = filter (λ l, negb (touches node l) = true) (links g)
  ∧ (∀ l, l ∈ links g' ↔ l ∈ links g ∧ from l ≠ node ∧ to l ≠ node)
  ∧ (∀ other ref, other ≠ uniqueId → nodes g !! other = Some ref →
       nodes g' !! other = Some ref
       ∧ position (deref (heap g') ref) = position (deref (heap g) ref)
       ∧ velocity (deref (heap g') ref) = velocity (deref (heap g) ref)).
Proof.
  intros Hnode g'. subst g'. unfold removeNode. rewrite Hnode.
  match goal with |- context [removeLabelForNode _ ?g0] =>
    destruct (removeLabelForNode_frame uniqueId g0) as (Hh & Hn & Hl & _)
  end.
  rewrite Hh, Hn, Hl. simpl.
  split; [apply lookup_delete_eq|].
  split; [done|].
  split.
  - intros l. rewrite list_elem_of_filter. unfold touches.
    rewrite negb_true_iff, orb_false_iff, !bool_decide_eq_false. tauto.
  - intros other ref Hne Hother. rewrite lookup_delete_ne; [done | congruence].
Qed.

Lemma removeNode_cascades_witness :
  let g' := removeNode "B" graphABC in
  nodes g' !! "B" = None
  ∧ links g' = filter (λ l, negb (touches 1%nat l) = true) (links graphABC)
  ∧ (∀ l, l ∈ links g' ↔ l ∈ links graphABC ∧ from l ≠ 1%nat ∧ to l ≠ 1%nat)
  ∧ (∀ other ref, other ≠ "B" → nodes graphABC !! other = Some ref →
       nodes g' !! other = Some ref
       ∧ position (deref (heap g') ref) = position (deref (heap graphABC) ref)
       ∧ velocity (deref (heap g') ref) = velocity (deref (heap graphABC) ref)).
Proof. apply (removeNode_cascades graphABC "B" 1%nat). reflexivity. Defined.

(** In the scenario of the specification both links of [B] go. *)
Example removeNode_B_links :
  length (links graphABC) = 2%nat ∧ links (removeNode "B" graphABC) = [].
Proof. split; reflexivity. Qed.

(** C4, as stated, fails.  A node ["X"] with a file path and a label is
    renamed to ["Y"] without a new path: the file-path entry and the label
    of ["X"] are dropped, and ["Y"] gets neither. *)
Lemma renameNode_drops_path_and_label :
  let g := with_labels {[ "X" := "X" ]}
             (addNode "X" (Some "notes/X.md") (Some "X") 0 0 newGravityGraph) in
  let g' := renameNode "X" "Y" None g in
  nodeFilePaths g !! "X" = Some "notes/X.md"
  ∧ labels g !! "X" = Some "X"
  ∧ nodeFilePaths g' !! "Y" = None
  ∧ labels g' !! "Y" = None.
Proof. repeat split; reflexivity. Qed.

(** The label is dropped also when the new path is given. *)
Example renameNode_drops_label_with_path :
  let g := with_labels {[ "X" := "X" ]}
             (addNode "X" (Some "notes/X.md") (Some "X") 0 0 newGravityGraph) in
  let g' := renameNode "X" "Y" (Some "notes/Y.md") g in
  nodeFilePaths g' !! "Y" = Some "notes/Y.md" ∧ labels g' !! "Y" = None.
Proof. split; reflexivity. Qed.

(** C4, amended.  [renameNode] of a live id keeps the node's position and
    velocity, registers the same mesh under the new id (and writes the new id
    into its [userData]), moves the colour-pulse entry from the old key to
    the new one, and removes the label of the old key; when a new path is
    given, the file-path entry of the old key is replaced by the new path
    under the new key.  The links are untouched, so the endpoint of every
    link that was the renamed mesh is the mesh now registered under the new
    id.  None of this, the file path apart, depends on [newFilePath]. *)
Theorem renameNode_moves_node (g : GravityGraph) (oldId newId : string)
    (newFilePath : option string) (node : MeshRef) (m : PhysicsMesh) :
  nodes g !! oldId = Some node →
  heap g !! node = Some m →
  let g' := renameNode oldId newId newFilePath g in
  (position (deref (heap g') node) = position m
   ∧ velocity (deref (heap g') node) = velocity m)
  ∧ (nodes g' !! newId = Some node
     ∧ uniqueId (deref (heap g') node) = newId
     ∧ (oldId ≠ newId → nodes g' !! oldId = None))
  ∧ (∀ pulseData, colorPulseData g !! oldId = Some pulseData →
       colorPulseData g' !! newId = Some pulseData
       ∧ (oldId ≠ newId → colorPulseData g' !! oldId = None))
  ∧ (∀ p, truthy newFilePath = Some p →
       nodeFilePaths g' !! newId = Some p
       ∧ (oldId ≠ newId → nodeFilePaths g' !! oldId = None))
  ∧ labels g' = delete oldId (labels g)
  ∧ links g' = links g
  ∧ (∀ l, l ∈ links g →
       (from l = node →
          nodes g' !! newId = Some (from l)
          ∧ uniqueId (deref (heap g') (from l)) = newId)
       ∧ (to l = node →
          nodes g' !! newId = Some (to l)
          ∧ uniqueId (deref (heap g') (to l)) = newId)).
Proof.
  intros Hnode Hm g'. subst g'. unfold renameNode. rewrite Hnode.
  match goal with |- context [removeLabelForNode _ ?g0] =>
    destruct (removeLabelForNode_frame oldId g0) as (Hh & Hn & Hl & Hp & Hc & _);
    pose proof (removeLabelForNode_labels oldId g0) as Hlab
  end.
  rewrite Hh, Hn, Hl, Hp, Hc, Hlab. simpl. clear Hh Hn Hl Hp Hc Hlab.
  assert (Hd : deref (alter
            (λ m0, match truthy newFilePath with
                   | Some p => set_filePath (Some p) (set_uniqueId newId m0)
                   | None => set_uniqueId newId m0
                   end) node (heap g)) node
          = match truthy newFilePath with
            | Some p => set_filePath (Some p) (set_uniqueId newId m)
            | None => set_uniqueId newId m
            end).
  { by rewrite (deref_alter_eq _ _ _ m). }
  assert (Hid : nodes g !! oldId = Some node) by done.
  split; [|split; [|split; [|split; [|split; [|split]]]]].
  - rewrite Hd. by destruct (truthy newFilePath).
  - split; [apply lookup_insert_eq|]. split.
    + rewrite Hd. by destruct (truthy newFilePath).
    + intros Hne. rewrite lookup_insert_ne by done. apply lookup_delete_eq.
  - intros pulseData Hpd. rewrite Hpd. split; [apply lookup_insert_eq|].
    intros Hne. rewrite lookup_insert_ne by done. apply lookup_delete_eq.
  - intros p Hp. rewrite Hp. split; [apply lookup_insert_eq|].
    intros Hne. rewrite lookup_insert_ne by done. apply lookup_delete_eq.
  - done.
  - done.
  - intros l _. split; intros ->.
    + split; [apply lookup_insert_eq|]. rewrite Hd. by destruct (truthy newFilePath).
    + split; [apply lookup_insert_eq|]. rewrite Hd. by destruct (truthy newFilePath).
Qed.

Lemma renameNode_moves_node_witness :
  nodes graphXZ !! "X" = Some 0%nat
  ∧ let g' := renameNode "X" "Y" None graphXZ in
    position (deref (heap g') 0%nat) = Vector3.zero
    ∧ velocity (deref (heap g') 0%nat) = Vector3.zero
    ∧ nodes g' !! "Y" = Some 0%nat
    ∧ from <$> links g' = [0%nat].
Proof.
  split; [reflexivity|].
  destruct (renameNode_moves_node graphXZ "X" "Y" None 0%nat
              (deref (heap graphXZ) 0%nat) eq_refl eq_refl)
    as ((Hp & Hv) & (Hn & _) & _ & _ & _ & Hl & _).
  cbv zeta. rewrite Hp, Hv, Hn, Hl. repeat split; reflexivity.
Defined.

(** [renameNode] does not touch the reverse lookup map: the mesh of the
    renamed node still answers the old id there, so the loop of
    [updateAllNodes] counts its links under the old id. *)
Example renameNode_keeps_reverse_lookup :
  let g' := renameNode "X" "Y" None graphXZ in
  nodes g' !! "Y" = Some 0%nat
  ∧ nodeToUniqueId g' !! 0%nat = Some "X"
  ∧ getNodeConnectionCount "Y" g' = 1%nat
  ∧ nodeConnectionCounts g' !! "Y" = None.
Proof. repeat split; reflexivity. Qed.

(** C1, at the failing input.  A second [addNode] of an id allocates a second
    mesh and overwrites the entry of [nodes]; the first mesh stays in the
    reverse lookup map, and a link attached to it survives although neither
    of its endpoints is the mesh now registered under the id, so that a
    repeated [addLink] of the same two ids adds a second link. *)
Lemma addNode_twice_differs :
  let once := addNode "A" None None 0 0 newGravityGraph in
  let twice := addNode "A" None None 0 0 once in
  (size (nodeToUniqueId once) = 1%nat ∧ size (nodeToUniqueId twice) = 2%nat)
  ∧ (nodes once !! "A" = Some 0%nat ∧ nodes twice !! "A" = Some 1%nat)
  ∧ (nodeToUniqueId twice !! 0%nat = Some "A" ∧ nodeToUniqueId twice !! 1%nat = Some "A")
  ∧ let linked := addLink "A" "B" (addNode "B" None None 0 0 once) in
    let relinked := addLink "A" "B" (addNode "A" None None 0 0 linked) in
    (from <$> links linked = [0%nat] ∧ to <$> links linked = [1%nat])
    ∧ (from <$> links relinked = [0%nat; 2%nat] ∧ to <$> links relinked = [1%nat; 1%nat])
    ∧ uniqueId (deref (heap relinked) 0%nat) = "A"
    ∧ uniqueId (deref (heap relinked) 2%nat) = "A".
Proof. repeat split; reflexivity. Qed.

(** X1.  [addLink] is idempotent, in either order of the two ids: a second
    call for the same unordered pair leaves the store as the first left it. *)
Theorem addLink_idempotent (g : GravityGraph) (a b : string) :
  addLink a b (addLink a b g) = addLink a b g
  ∧ addLink b a (addLink a b g) = addLink a b g.
Proof.
  unfold addLink.
  destruct (nodes g !! a) as [fromMesh|] eqn:Ha, (nodes g !! b) as [toMesh|] eqn:Hb;
    simpl; rewrite ?Ha, ?Hb; try done.
  destruct (existsb (joins fromMesh toMesh) (links g)) eqn:He; simpl.
  - rewrite Ha, Hb, He. split; [done|].
    by rewrite existsb_joins_sym, He.
  - rewrite Ha, Hb, existsb_snoc, joins_self, orb_true_r. split; [done|].
    by rewrite existsb_joins_sym, existsb_snoc, joins_self, orb_true_r.
Qed.

Section links_unique.

Lemma linksUnique_nil : linksUnique [].
Proof. intros i j li lj H. by rewrite lookup_nil in H. Qed.

Lemma linksUnique_sublist (l1 l2 : list Link) :
  sublist l1 l2 → linksUnique l2 → linksUnique l1.
Proof.
  intros Hsub. induction Hsub as [|x l1 l2 Hsub IH|x l1 l2 Hsub IH]; intros Hu.
  - done.
  - assert (Hu2 : linksUnique l2).
    { intros i j li lj Hi Hj Hij. by apply (inj S), (Hu (S i) (S j) li lj). }
    intros [|i] [|j] li lj Hi Hj Hij; simpl in *.
    + done.
    + simplify_eq. apply list_elem_of_lookup_2 in Hj.
      apply (sublist_subseteq _ _ Hsub) in Hj.
      apply list_elem_of_lookup_1 in Hj as [k Hk].
      by specialize (Hu 0%nat (S k) li lj eq_refl Hk Hij).
    + simplify_eq. apply list_elem_of_lookup_2 in Hi.
      apply (sublist_subseteq _ _ Hsub) in Hi.
      apply list_elem_of_lookup_1 in Hi as [k Hk].
      by specialize (Hu (S k) 0%nat li lj Hk eq_refl Hij).
    + f_equal. by apply (IH Hu2 i j li lj).
  - apply IH. intros i j li lj Hi Hj Hij.
    by apply (inj S), (Hu (S i) (S j) li lj).
Qed.

Lemma joins_true a b (l : Link) :
  joins a b l = true ↔ (from l = a ∧ to l = b) ∨ (from l = b ∧ to l = a).
Proof.
  unfold joins. by rewrite orb_true_iff, !andb_true_iff, !bool_decide_eq_true.
Qed.

Lemma joins_swap (l1 l2 : Link) :
  joins (from l1) (to l1) l2 = joins (from l2) (to l2) l1.
Proof.
  apply eq_true_iff_eq. rewrite !joins_true. intuition congruence.
Qed.

Lemma linksUnique_snoc (ls : list Link) (l : Link) :
  linksUnique ls → existsb (joins (from l) (to l)) ls = false →
  linksUnique (ls ++ [l]).
Proof.
  intros Hu He i j li lj Hi Hj Hij.
  assert (Hno : ∀ k lk, ls !! k = Some lk → joins (from l) (to l) lk = false).
  { intros k lk Hk. destruct (joins (from l) (to l) lk) eqn:E; [|done].
    assert (existsb (joins (from l) (to l)) ls = true); [|congruence].
    apply existsb_exists. exists lk. split; [|done].
    apply list_elem_of_In. by eapply list_elem_of_lookup_2. }
  destruct (decide (i < length ls)%nat) as [Hil|Hil],
           (decide (j < length ls)%nat) as [Hjl|Hjl].
  - rewrite lookup_app_l in Hi, Hj by done. by eapply Hu.
  - rewrite lookup_app_l in Hi by done.
    rewrite lookup_app_r in Hj by lia.
    apply list_lookup_singleton_Some in Hj as [_ <-].
    rewrite joins_swap in Hij. by rewrite (Hno _ _ Hi) in Hij.
  - rewrite lookup_app_l in Hj by done.
    rewrite lookup_app_r in Hi by lia.
    apply list_lookup_singleton_Some in Hi as [_ <-].
    by rewrite (Hno _ _ Hj) in Hij.
  - rewrite lookup_app_r in Hi, Hj by lia.
    apply list_lookup_singleton_Some in Hi as [Hi _].
    apply list_lookup_singleton_Some in Hj as [Hj _]. lia.
Qed.

Lemma applyOp_linksUnique (g : GravityGraph) (op : StoreOp) :
  linksUnique (links g) → linksUnique (links (applyOp g op)).
Proof.
  intros Hu. destruct op as [i p d r1 r2|a b|i|a b|o n p]; simpl.
  - by rewrite addNode_links.
  - unfold addLink.
    destruct (nodes g !! a) as [fromMesh|], (nodes g !! b) as [toMesh|]; try done.
    destruct (existsb _ _) eqn:He; [done|]. simpl.
    by apply linksUnique_snoc.
  - unfold removeNode. destruct (nodes g !! i) as [node|]; [|done].
    match goal with |- context [removeLabelForNode _ ?g0] =>
      destruct (removeLabelForNode_frame i g0) as (_ & _ & -> & _) end.
    simpl. eapply linksUnique_sublist; [apply sublist_filter|done].
  - unfold removeLink.
    destruct (nodes g !! a) as [fromMesh|], (nodes g !! b) as [toMesh|]; try done.
    destruct (findIndex _ _); [|done]. simpl.
    eapply linksUnique_sublist; [apply sublist_delete|done].
  - unfold renameNode. destruct (nodes g !! o) as [node|]; [|done].
    match goal with |- context [removeLabelForNode _ ?g0] =>
      destruct (removeLabelForNode_frame o g0) as (_ & _ & -> & _) end.
    done.
Qed.

End links_unique.

(** X2.  Whatever mutations the store receives, no two of its links join the
    same unordered pair of meshes. *)
Theorem links_unique_always (ops : list StoreOp) :
  linksUnique (links (foldl applyOp newGravityGraph ops)).
Proof.
  induction ops as [|op ops IH] using rev_ind.
  - apply linksUnique_nil.
  - rewrite foldl_app. simpl. by apply applyOp_linksUnique.
Qed.

(** * Properties of the physics engine *)

Section arithmetic.

Lemma checked_div_Some (x y : R) : y ≠ 0 → x ÷ y = Some (x / y).
Proof. intros H. unfold checked_div. by destruct (Req_EM_T y 0). Qed.

Lemma Rltb_true (x y : R) : Rltb x y = true ↔ x < y.
Proof. unfold Rltb. destruct (Rlt_dec x y); split; (done || lra). Qed.

Lemma Rltb_false (x y : R) : Rltb x y = false ↔ y <= x.
Proof. unfold Rltb. destruct (Rlt_dec x y); split; (done || lra). Qed.

Lemma Rgtb_true (x y : R) : Rgtb x y = true ↔ x > y.
Proof. unfold Rgtb. rewrite Rltb_true. lra. Qed.

Lemma Rgtb_false (x y : R) : Rgtb x y = false ↔ x <= y.
Proof. unfold Rgtb. by rewrite Rltb_false. Qed.

Lemma num_or_nonzero (x : R) : num_or x 1 ≠ 0.
Proof. unfold num_or. destruct (Req_EM_T x 0); lra. Qed.

Lemma lengthSq_nonneg (v : Vector3) : 0 <= Vector3.lengthSq v.
Proof. unfold Vector3.lengthSq. nra. Qed.

Lemma length_nonneg (v : Vector3) : 0 <= Vector3.length v.
Proof. apply sqrt_pos. Qed.

Lemma length_sub_distanceTo (a b : Vector3) :
  Vector3.length (Vector3.subVectors a b) = Vector3.distanceTo a b.
Proof. reflexivity. Qed.

Lemma length_multiplyScalar (v : Vector3) (s : R) :
  Vector3.length (Vector3.multiplyScalar v s) = Rabs s * Vector3.length v.
Proof.
  unfold Vector3.length.
  replace (Vector3.lengthSq (Vector3.multiplyScalar v s))
    with (Rsqr s * Vector3.lengthSq v)
    by (unfold Vector3.lengthSq, Vector3.multiplyScalar, Rsqr; simpl; ring).
  rewrite sqrt_mult; [|apply Rle_0_sqr|apply lengthSq_nonneg].
  by rewrite sqrt_Rsqr_abs.
Qed.

(** [normalize] never divides by zero: its divisor is the length, or 1
    when the length is zero. *)
Lemma normalize_Some (v : Vector3) :
  Vector3.normalize v
  = Some (Vector3.multiplyScalar v (1 / num_or (Vector3.length v) 1)).
Proof.
  unfold Vector3.normalize, Vector3.divideScalar.
  by rewrite checked_div_Some by apply num_or_nonzero.
Qed.

Lemma normalize_nonzero (v : Vector3) :
  Vector3.length v ≠ 0 →
  Vector3.normalize v = Some (Vector3.multiplyScalar v (1 / Vector3.length v)).
Proof.
  intros H. rewrite normalize_Some. unfold num_or.
  by destruct (Req_EM_T (Vector3.length v) 0).
Qed.


Lemma foldM_total {A S : Type} (f : S → A → option S) (l : list A) :
  (∀ s a, is_Some (f s a)) → ∀ s, is_Some (foldM f s l).
Proof.
  intros Hf. induction l as [|a l IH]; intros s; simpl; [by eexists|].
  destruct (Hf s a) as [s' ->]. simpl. apply IH.
Qed.

End arithmetic.

Section repulsion.

(** The nested loops visit every pair of indices [i < j < n], once. *)
Lemma elem_of_indexPairs (n i j : nat) :
  (i, j) ∈ indexPairs n ↔ (i < j < n)%nat.
Proof.
  unfold indexPairs. rewrite list_elem_of_bind. split.
  - intros (i' & Hj & Hi). apply list_elem_of_bind in Hj as (j' & Hij & Hj).
    apply list_elem_of_singleton in Hij. simplify_eq.
    apply elem_of_seq in Hi, Hj. lia.
  - intros H. exists i. split; [|apply elem_of_seq; lia].
    apply list_elem_of_bind. exists j. split; [by apply list_elem_of_singleton|].
    apply elem_of_seq. lia.
Qed.

Lemma NoDup_indexPairs (n : nat) : NoDup (indexPairs n).
Proof.
  unfold indexPairs. apply NoDup_bind; [| |apply NoDup_seq].
  - intros i1 i2 [i j] _ _ H1 H2.
    apply list_elem_of_bind in H1 as (j1 & H1 & _).
    apply list_elem_of_bind in H2 as (j2 & H2 & _).
    apply list_elem_of_singleton in H1, H2. congruence.
  - intros i _. apply NoDup_bind; [| |apply NoDup_seq].
    + intros j1 j2 [i' j] _ _ H1 H2.
      apply list_elem_of_singleton in H1, H2. congruence.
    + intros j _. apply NoDup_singleton.
Qed.

Lemma repulsePair_skip (rep : R) (nodeA nodeB : MeshRef) (h : gmap MeshRef PhysicsMesh) :
  Vector3.distanceTo (position (deref h nodeA)) (position (deref h nodeB)) < 1 / 10 →
  repulsePair rep nodeA nodeB h = Some h.
Proof. intros H. unfold repulsePair. apply Rltb_true in H. by rewrite H. Qed.

Lemma repulsePair_apply (rep : R) (nodeA nodeB : MeshRef) (h : gmap MeshRef PhysicsMesh) :
  let posA := position (deref h nodeA) in
  let posB := position (deref h nodeB) in
  let distance := Vector3.distanceTo posA posB in
  1 / 10 <= distance →
  let direction :=
    Vector3.multiplyScalar
      (Vector3.multiplyScalar (Vector3.subVectors posA posB) (1 / distance))
      (rep / (distance * distance)) in
  repulsePair rep nodeA nodeB h
  = Some (update_force (λ f, Vector3.sub f direction) nodeB
            (update_force (λ f, Vector3.add f direction) nodeA h)).
Proof.
  intros posA posB distance Hd direction. unfold repulsePair.
  fold posA posB. fold distance.
  apply Rltb_false in Hd as Hd'. rewrite Hd'.
  rewrite checked_div_Some by nra. simpl.
  rewrite normalize_nonzero by (rewrite length_sub_distanceTo; fold distance; lra).
  simpl. by rewrite length_sub_distanceTo.
Qed.

Lemma repulsePair_total (rep : R) (nodeA nodeB : MeshRef) (h : gmap MeshRef PhysicsMesh) :
  is_Some (repulsePair rep nodeA nodeB h).
Proof.
  destruct (Rlt_dec
    (Vector3.distanceTo (position (deref h nodeA)) (position (deref h nodeB))) (1 / 10)).
  - rewrite repulsePair_skip by done. by eexists.
  - rewrite repulsePair_apply by lra. by eexists.
Qed.

Lemma springLink_total (strength : R) (h : gmap MeshRef PhysicsMesh) (link : Link) :
  is_Some (springLink strength h link).
Proof. unfold springLink. rewrite normalize_Some. by eexists. Qed.

Lemma repulsionPhase_total (rep : R) (nodeArray : list MeshRef)
    (h : gmap MeshRef PhysicsMesh) :
  is_Some (repulsionPhase rep nodeArray h).
Proof.
  unfold repulsionPhase. apply foldM_total. intros h' [i j].
  destruct (nodeArray !! i) as [nodeA|], (nodeArray !! j) as [nodeB|]; try by eexists.
  apply repulsePair_total.
Qed.

Lemma calculateForces_total (g : GravityGraph) : is_Some (calculateForces g).
Proof.
  unfold calculateForces.
  destruct (repulsionPhase_total (repulsion (forces g)) (map_to_list (nodes g)).*2
              (resetForces (map_to_list (nodes g)) (heap g))) as [h1 ->].
  simpl.
  destruct (foldM_total (springLink (linkStrength (forces g))) (links g)
              (springLink_total _) h1) as [h2 ->].
  by eexists.
Qed.

End repulsion.

(** * Well-formed stores *)

Section wf_facts.

Lemma wf_new : wf newGravityGraph.
Proof.
  split; simpl.
  - intros id r H. by rewrite lookup_empty in H.
  - intros id1 id2 r H. by rewrite lookup_empty in H.
  - intros r [m H]. by rewrite lookup_empty in H.
Qed.

Lemma wf_addNode g uniqueId filePath displayName rndPhase rndSpeed :
  wf g → wf (addNode uniqueId filePath displayName rndPhase rndSpeed g).
Proof.
  intros [Hh Hi Hf]. unfold addNode.
  destruct (getNodeColor _ _ _) as [nodeColor|]; [|by split].
  split; simpl.
  - intros id r. rewrite lookup_insert. case_decide as Hid.
    + intros [= <-]. rewrite lookup_insert_eq. by eexists.
    + intros Hx. apply lookup_insert_is_Some. right.
      split; [|by eapply Hh]. intros <-.
      apply Hh, Hf in Hx. lia.
  - intros id1 id2 r. rewrite !lookup_insert.
    repeat case_decide; simplify_eq; try done.
    + intros [= <-] Hx. apply Hh, Hf in Hx. lia.
    + intros Hx [= <-]. apply Hh, Hf in Hx. lia.
    + apply Hi.
  - intros r. rewrite lookup_insert_is_Some. intros [<- | [_ H]]; [lia|].
    apply Hf in H. lia.
Qed.

Lemma wf_links g ls : wf g → wf (with_links ls g).
Proof. intros [Hh Hi Hf]. by split. Qed.

Lemma wf_labels g ls : wf g → wf (with_labels ls g).
Proof. intros [Hh Hi Hf]. by split. Qed.

Lemma wf_removeLabelForNode g uniqueId : wf g → wf (removeLabelForNode uniqueId g).
Proof.
  intros H. unfold removeLabelForNode.
  destruct (labels g !! uniqueId); [by apply wf_labels|done].
Qed.

Lemma wf_addLink g a b : wf g → wf (addLink a b g).
Proof.
  intros H. unfold addLink.
  destruct (nodes g !! a), (nodes g !! b); try done.
  destruct (existsb _ _); [done|]. by apply wf_links.
Qed.

Lemma wf_removeLink g a b : wf g → wf (removeLink a b g).
Proof.
  intros H. unfold removeLink.
  destruct (nodes g !! a), (nodes g !! b); try done.
  destruct (findIndex _ _); [|done]. by apply wf_links.
Qed.

Lemma wf_removeNode g uniqueId : wf g → wf (removeNode uniqueId g).
Proof.
  intros [Hh Hi Hf]. unfold removeNode.
  destruct (nodes g !! uniqueId) as [node|]; [|done].
  apply wf_removeLabelForNode. split; simpl.
  - intros id r H. apply lookup_delete_Some in H as [_ H]. by eapply Hh.
  - intros id1 id2 r H1 H2.
    apply lookup_delete_Some in H1 as [_ H1].
    apply lookup_delete_Some in H2 as [_ H2]. by eapply Hi.
  - done.
Qed.

Lemma wf_renameNode g oldId newId newFilePath :
  wf g → wf (renameNode oldId newId newFilePath g).
Proof.
  intros [Hh Hi Hf]. unfold renameNode.
  destruct (nodes g !! oldId) as [node|] eqn:Hold; [|done].
  apply wf_removeLabelForNode. split; simpl.
  - intros id r. rewrite lookup_insert. case_decide.
    + intros [= <-]. rewrite lookup_alter_eq.
      destruct (Hh _ _ Hold) as [m ->]. by eexists.
    + intros Hx. apply lookup_delete_Some in Hx as [_ Hx].
      apply lookup_alter_is_Some. by eapply Hh.
  - intros id1 id2 r. rewrite !lookup_insert.
    repeat case_decide; simplify_eq; try done.
    + intros [= <-] Hx. apply lookup_delete_Some in Hx as [Hne Hx].
      destruct Hne. by eapply Hi.
    + intros Hx [= <-]. apply lookup_delete_Some in Hx as [Hne Hx].
      destruct Hne. by eapply Hi.
    + intros H1 H2.
      apply lookup_delete_Some in H1 as [_ H1].
      apply lookup_delete_Some in H2 as [_ H2]. by eapply Hi.
  - intros r H. apply lookup_alter_is_Some in H. by apply Hf.
Qed.

Lemma wf_applyOp g op : wf g → wf (applyOp g op).
Proof.
  destruct op; simpl.
  - apply wf_addNode.
  - apply wf_addLink.
  - apply wf_removeNode.
  - apply wf_removeLink.
  - apply wf_renameNode.
Qed.

(** X6.  Every store reached by mutations of a new one is well formed. *)
Lemma wf_reachable (ops : list StoreOp) : wf (foldl applyOp newGravityGraph ops).
Proof.
  induction ops as [|op ops IH] using rev_ind; [apply wf_new|].
  rewrite foldl_app. by apply wf_applyOp.
Qed.

(** A change of the heap that keeps its domain keeps the store well formed. *)
Lemma wf_same_dom g g' :
  nodes g' = nodes g → nextRef g' = nextRef g → dom (heap g') = dom (heap g) →
  wf g → wf g'.
Proof.
  intros Hn Hr Hd [Hh Hi Hf]. split.
  - intros id r. rewrite Hn, <-elem_of_dom, Hd, elem_of_dom. apply Hh.
  - rewrite Hn. apply Hi.
  - intros r. rewrite Hr, <-elem_of_dom, Hd, elem_of_dom. apply Hf.
Qed.

End wf_facts.

(** * The update loop acts on each node as its body does *)

Section update_loop.

Implicit Types (g : GravityGraph) (vis : gset string).

Local Arguments updateLabel : simpl never.
Local Arguments updateScale : simpl never.
Local Arguments updateColor : simpl never.
Local Arguments updatePosition : simpl never.

Lemma integrate_total g v f : is_Some (integrate g v f).
Proof.
  unfold integrate.
  assert (∀ v0 : Vector3,
    is_Some (if Rgtb (Vector3.length v0) (maxSpeed g)
             then unit ← Vector3.normalize v0;
                  Some (Vector3.multiplyScalar unit (maxSpeed g))
             else Some v0)) as Hclamp.
  { intros v0. destruct (Rgtb _ _); [|by eexists].
    rewrite normalize_Some. by eexists. }
  destruct (Rgtb (friction (forces g)) 0); [|apply Hclamp].
  destruct (Rgtb (Vector3.lengthSq (Vector3.add v f)) (1 / 10000)) eqn:Hs;
    [|apply Hclamp].
  apply Rgtb_true in Hs.
  rewrite checked_div_Some.
  - apply Hclamp.
  - assert (0 < sqrt (Vector3.lengthSq (Vector3.add v f))); [|lra].
    apply sqrt_lt_R0. lra.
Qed.

Lemma integrate_config g1 g2 v f :
  config g1 = config g2 → integrate g1 v f = integrate g2 v f.
Proof. unfold config, integrate. intros [= -> -> _ _ _ _]. done. Qed.

Lemma calcLinkScale_config g1 g2 c :
  config g1 = config g2 → calcLinkScale g1 c = calcLinkScale g2 c.
Proof. unfold config, calcLinkScale. intros [= _ _ _ _ -> ->]. done. Qed.

Lemma updatePosition_total uniqueId node g : is_Some (updatePosition uniqueId node g).
Proof.
  unfold updatePosition. destruct (negb _).
  - destruct (integrate_total g (velocity (deref (heap g) node))
                (force (deref (heap g) node))) as [v ->]. simpl.
    destruct (freeze g); [|by eexists]. destruct (_ && _); by eexists.
  - destruct (Rgtb _ _); by eexists.
Qed.

Lemma updateNode_total counts camera st entry :
  is_Some (updateNode counts camera st entry).
Proof.
  unfold updateNode. destruct entry as [uniqueId node].
  destruct (updatePosition_total uniqueId node st.1) as [g1 ->]. by eexists.
Qed.

Lemma updateAllNodes_total camera g : is_Some (updateAllNodes camera g).
Proof.
  unfold updateAllNodes.
  destruct (foldM_total (updateNode (nodeConnectionCounts g) camera)
              (map_to_list (nodes g)) (updateNode_total _ _) (g, ∅)) as [[g1 vis] ->].
  by eexists.
Qed.

(** The forces and the motion of a tick never divide by zero. *)
Lemma tick_is_Some camera g : is_Some (tick camera g).
Proof.
  unfold tick. destruct (calculateForces_total g) as [g1 ->]. simpl.
  apply updateAllNodes_total.
Qed.

(** **** The body leaves the other nodes alone *)

Lemma updatePosition_frame uniqueId node id' node' g g' :
  uniqueId ≠ id' → node ≠ node' →
  updatePosition id' node' g = Some g' →
  nodeView uniqueId node g' = nodeView uniqueId node g ∧ config g' = config g.
Proof.
  intros Hid Hnode. unfold updatePosition, nodeView, config.
  assert (node' ≠ node) by congruence.
  destruct (negb _).
  - destruct (integrate _ _ _) as [v|]; simpl; [|done].
    destruct (freeze g) eqn:Hfr.
    + destruct (_ && _); intros [= <-]; simpl; rewrite ?Hfr.
      * rewrite lookup_alter_ne by done. split; [|done]. do 2 f_equal.
        apply bool_decide_ext. rewrite elem_of_union, elem_of_singleton. tauto.
      * by rewrite lookup_alter_ne by done.
    + intros [= <-]; simpl. by rewrite Hfr, lookup_alter_ne by done.
  - destruct (Rgtb _ _); intros [= <-]; simpl; [|done].
    split; [|done]. do 2 f_equal. apply bool_decide_ext.
    rewrite elem_of_difference, elem_of_singleton. tauto.
Qed.

Lemma updateColor_frame uniqueId node id' node' g :
  uniqueId ≠ id' → node ≠ node' →
  nodeView uniqueId node (updateColor id' node' g) = nodeView uniqueId node g
  ∧ config (updateColor id' node' g) = config g.
Proof.
  intros Hid Hnode. unfold updateColor, nodeView, config.
  assert (node' ≠ node) by congruence. assert (id' ≠ uniqueId) by congruence.
  destruct (colorPulseData g !! id'); simpl; [|done].
  by rewrite lookup_alter_ne, lookup_insert_ne by done.
Qed.

Lemma updateScale_frame counts uniqueId node id' node' g :
  node ≠ node' →
  nodeView uniqueId node (updateScale counts id' node' g) = nodeView uniqueId node g
  ∧ config (updateScale counts id' node' g) = config g.
Proof.
  intros Hnode. unfold updateScale, nodeView, config. simpl.
  assert (node' ≠ node) by congruence.
  by rewrite lookup_alter_ne by done.
Qed.

Lemma updateLabel_frame camera uniqueId node id' node' g vis :
  nodeView uniqueId node (updateLabel camera id' node' (g, vis)).1 = nodeView uniqueId node g
  ∧ config (updateLabel camera id' node' (g, vis)).1 = config g.
Proof.
  unfold updateLabel. destruct camera as [shouldBeVisible|]; [|done].
  destruct (shouldBeVisible _); [|done]. simpl.
  by destruct (labels g !! id').
Qed.

Lemma updateNode_frame counts camera uniqueId node id' node' st st' :
  uniqueId ≠ id' → node ≠ node' →
  updateNode counts camera st (id', node') = Some st' →
  nodeView uniqueId node st'.1 = nodeView uniqueId node st.1
  ∧ config st'.1 = config st.1.
Proof.
  intros Hid Hnode Hst. unfold updateNode in Hst.
  apply bind_Some in Hst as (g1 & Hp & Hst).
  apply (inj Some) in Hst. subst st'.
  destruct (updatePosition_frame uniqueId node _ _ _ _ Hid Hnode Hp) as [Hv1 Hc1].
  destruct (updateColor_frame uniqueId node id' node' g1 Hid Hnode) as [Hv2 Hc2].
  destruct (updateScale_frame counts uniqueId node id' node'
              (updateColor id' node' g1) Hnode) as [Hv3 Hc3].
  destruct (updateLabel_frame camera uniqueId node id' node'
              (updateScale counts id' node' (updateColor id' node' g1)) st.2)
    as [Hv4 Hc4].
  split; congruence.
Qed.

Lemma foldM_updateNode_frame counts camera uniqueId node l st st' :
  uniqueId ∉ l.*1 → node ∉ l.*2 →
  foldM (updateNode counts camera) st l = Some st' →
  nodeView uniqueId node st'.1 = nodeView uniqueId node st.1
  ∧ config st'.1 = config st.1.
Proof.
  revert st. induction l as [|[id' node'] l IH]; intros st Hid Hnode Hfold.
  - by apply (inj Some) in Hfold as <-.
  - apply bind_Some in Hfold as (st1 & H1 & H2).
    rewrite fmap_cons in Hid. rewrite fmap_cons in Hnode. simpl in Hid, Hnode.
    apply not_elem_of_cons in Hid as [Hid1 Hid], Hnode as [Hnode1 Hnode].
    destruct (updateNode_frame _ _ _ _ _ _ _ _ Hid1 Hnode1 H1) as [Hv1 Hc1].
    destruct (IH st1 Hid Hnode H2) as [Hv2 Hc2].
    split; congruence.
Qed.

Lemma updatePosition_config uniqueId node g g' :
  updatePosition uniqueId node g = Some g' → config g' = config g.
Proof.
  unfold updatePosition, config. destruct (negb _).
  - destruct (integrate _ _ _) as [v|]; [|done].
    change (Some v ≫= ?f) with (f v). cbv beta.
    destruct (freeze g) eqn:Hfr; [destruct (_ && _)|];
      intros H1; apply (inj Some) in H1; subst g'; simpl; by rewrite ?Hfr.
  - destruct (Rgtb _ _); intros H1; apply (inj Some) in H1; by subst g'.
Qed.

Lemma updateColor_config uniqueId node g :
  config (updateColor uniqueId node g) = config g.
Proof. unfold updateColor. by destruct (colorPulseData g !! uniqueId). Qed.

Lemma updateNode_config counts camera st entry st' :
  updateNode counts camera st entry = Some st' → config st'.1 = config st.1.
Proof.
  destruct entry as [uniqueId node]. intros Hst. unfold updateNode in Hst.
  apply bind_Some in Hst as (g1 & Hp & Hst).
  apply (inj Some) in Hst. subst st'.
  destruct (updateLabel_frame camera uniqueId node uniqueId node
              (updateScale counts uniqueId node (updateColor uniqueId node g1)) st.2)
    as [_ ->].
  change (config (updateScale counts uniqueId node (updateColor uniqueId node g1)))
    with (config (updateColor uniqueId node g1)).
  rewrite updateColor_config. by eapply updatePosition_config.
Qed.

(** **** The body reads of the store only the node at hand *)

Lemma nodeView_deref uniqueId node g1 g2 :
  nodeView uniqueId node g1 = nodeView uniqueId node g2 →
  deref (heap g1) node = deref (heap g2) node.
Proof. unfold nodeView, deref. intros [= H _ _]. by rewrite !lookup_total_alt, H. Qed.

Lemma updatePosition_local uniqueId node g1 g2 g1' :
  nodeView uniqueId node g1 = nodeView uniqueId node g2 →
  config g1 = config g2 →
  updatePosition uniqueId node g1 = Some g1' →
  ∃ g2', updatePosition uniqueId node g2 = Some g2'
         ∧ nodeView uniqueId node g2' = nodeView uniqueId node g1'
         ∧ config g2' = config g1'.
Proof.
  intros Hv Hc. pose proof (nodeView_deref _ _ _ _ Hv) as Hd.
  pose proof (integrate_config g1 g2 (velocity (deref (heap g2) node))
                (force (deref (heap g2) node)) Hc) as Hi.
  unfold nodeView in Hv. injection Hv as Hh Hf Hp.
  unfold config in Hc. injection Hc as Hc1 Hc2 Hc3 Hc4 Hc5 Hc6.
  unfold updatePosition. rewrite Hd, Hf, Hi, Hc3, Hc4.
  assert (∀ X : gset string, bool_decide (uniqueId ∈ {[uniqueId]} ∪ X) = true) as Hin.
  { intros X. apply bool_decide_eq_true_2.
    rewrite elem_of_union, elem_of_singleton. by left. }
  assert (∀ X : gset string, bool_decide (uniqueId ∈ X ∖ {[uniqueId]}) = false) as Hout.
  { intros X. apply bool_decide_eq_false_2.
    rewrite elem_of_difference, elem_of_singleton. tauto. }
  destruct (negb (bool_decide (uniqueId ∈ frozenNodes g2))).
  - destruct (integrate g2 _ _) as [v|]; [|done].
    change (Some v ≫= ?f) with (f v). cbv beta.
    destruct (freeze g2) eqn:Hfr; [destruct (_ && _)|];
      intros H1; apply (inj Some) in H1; subst g1';
      eexists; (split; [reflexivity|]); unfold nodeView, config; simpl;
      by rewrite !lookup_alter_eq, ?Hin, ?Hh, ?Hf, ?Hp, ?Hfr,
           ?Hc1, ?Hc2, ?Hc3, ?Hc4, ?Hc5, ?Hc6.
  - destruct (Rgtb _ _); intros H1; apply (inj Some) in H1; subst g1';
      eexists; (split; [reflexivity|]); unfold nodeView, config; simpl;
      by rewrite ?Hout, ?Hh, ?Hf, ?Hp, ?Hc1, ?Hc2, ?Hc3, ?Hc4, ?Hc5, ?Hc6.
Qed.

Lemma updateColor_local uniqueId node g1 g2 :
  nodeView uniqueId node g1 = nodeView uniqueId node g2 →
  config g1 = config g2 →
  nodeView uniqueId node (updateColor uniqueId node g2)
  = nodeView uniqueId node (updateColor uniqueId node g1)
  ∧ config (updateColor uniqueId node g2) = config (updateColor uniqueId node g1).
Proof.
  intros Hv Hc. unfold nodeView in Hv. injection Hv as Hh Hf Hp.
  unfold config in Hc. injection Hc as Hc1 Hc2 Hc3 Hc4 Hc5 Hc6.
  unfold updateColor. rewrite Hp.
  destruct (colorPulseData g2 !! uniqueId) as [pulseData|] eqn:Hpd;
    unfold nodeView, config; simpl.
  - by rewrite !lookup_alter_eq, !lookup_insert_eq, Hh, Hf, Hc1, Hc2, Hc3, Hc4, Hc5, Hc6.
  - by rewrite Hh, Hf, Hp, Hpd, Hc1, Hc2, Hc3, Hc4, Hc5, Hc6.
Qed.

Lemma updateScale_local counts uniqueId node g1 g2 :
  nodeView uniqueId node g1 = nodeView uniqueId node g2 →
  config g1 = config g2 →
  nodeView uniqueId node (updateScale counts uniqueId node g2)
  = nodeView uniqueId node (updateScale counts uniqueId node g1)
  ∧ config (updateScale counts uniqueId node g2)
    = config (updateScale counts uniqueId node g1).
Proof.
  intros Hv Hc. pose proof (calcLinkScale_config g1 g2) as Hs.
  unfold nodeView in Hv. injection Hv as Hh Hf Hp.
  unfold updateScale, nodeView. simpl.
  rewrite !lookup_alter_eq, Hh, Hf, Hp, (Hs _ Hc). split; [done|].
  unfold config in *. simpl. done.
Qed.

Lemma updateNode_local counts camera uniqueId node g1 g2 vis1 vis2 st1' :
  nodeView uniqueId node g1 = nodeView uniqueId node g2 →
  config g1 = config g2 →
  updateNode counts camera (g1, vis1) (uniqueId, node) = Some st1' →
  ∃ st2', updateNode counts camera (g2, vis2) (uniqueId, node) = Some st2'
          ∧ nodeView uniqueId node st2'.1 = nodeView uniqueId node st1'.1
          ∧ config st2'.1 = config st1'.1.
Proof.
  intros Hv Hc Hst. unfold updateNode in *.
  apply bind_Some in Hst as (p1 & Hp1 & Hst).
  apply (inj Some) in Hst. subst st1'. simpl in Hp1.
  destruct (updatePosition_local _ _ _ _ _ Hv Hc Hp1) as (p2 & Hp2 & Hv2 & Hc2).
  simpl. rewrite Hp2. cbn [mbind option_bind]. eexists. split; [reflexivity|].
  destruct (updateColor_local uniqueId node p2 p1 Hv2 Hc2) as [Hv3 Hc3].
  destruct (updateScale_local counts uniqueId node _ _ Hv3 Hc3) as [Hv4 Hc4].
  destruct (updateLabel_frame camera uniqueId node uniqueId node
              (updateScale counts uniqueId node (updateColor uniqueId node p1)) vis1)
    as [Hv5 Hc5].
  destruct (updateLabel_frame camera uniqueId node uniqueId node
              (updateScale counts uniqueId node (updateColor uniqueId node p2)) vis2)
    as [Hv6 Hc6].
  split; congruence.
Qed.

(** After the loop, the node [uniqueId] is as the body alone leaves it when
    run on the state before the loop. *)
Lemma foldM_updateNode_node counts camera uniqueId node l g vis st' :
  NoDup l.*1 → NoDup l.*2 → (uniqueId, node) ∈ l →
  foldM (updateNode counts camera) (g, vis) l = Some st' →
  ∃ stn, updateNode counts camera (g, vis) (uniqueId, node) = Some stn
         ∧ nodeView uniqueId node st'.1 = nodeView uniqueId node stn.1
         ∧ config st'.1 = config g.
Proof.
  revert g vis. induction l as [|[id' node'] l IH]; intros g vis Hd1 Hd2 Hin Hfold.
  - by apply elem_of_nil in Hin.
  - rewrite fmap_cons in Hd1. rewrite fmap_cons in Hd2. simpl in Hd1, Hd2.
    apply NoDup_cons in Hd1 as [Hn1 Hd1], Hd2 as [Hn2 Hd2].
    apply bind_Some in Hfold as ([g1 vis1] & H1 & H2).
    apply elem_of_cons in Hin as [[= <- <-] | Hin].
    + destruct (foldM_updateNode_frame _ _ _ _ _ _ _ Hn1 Hn2 H2) as [Hv Hc].
      exists (g1, vis1). split; [done|]. split; [done|].
      pose proof (updateNode_config _ _ _ _ _ H1) as Hc1. simpl in *. congruence.
    + assert (uniqueId ≠ id') as Hid.
      { intros <-. apply Hn1. apply list_elem_of_fmap. by exists (uniqueId, node). }
      assert (node ≠ node') as Hnode.
      { intros <-. apply Hn2. apply list_elem_of_fmap. by exists (uniqueId, node). }
      destruct (updateNode_frame _ _ _ _ _ _ _ _ Hid Hnode H1) as [Hv1 Hc1].
      destruct (IH g1 vis1 Hd1 Hd2 Hin H2) as (stn1 & Hn & Hvn & Hcn).
      simpl in Hv1, Hc1.
      destruct (updateNode_local counts camera uniqueId node g1 g vis1 vis stn1
                  Hv1 Hc1 Hn) as (stn & Hstn & Hvs & Hcs).
      exists stn. split; [done|]. split; congruence.
Qed.

(** **** What the body does to its own node *)

Lemma updatePosition_spec uniqueId node g gp m :
  heap g !! node = Some m →
  updatePosition uniqueId node g = Some gp →
  let T := velocityTreshold g * velocityTreshold g in
  ∃ mp, heap gp !! node = Some mp
    ∧ (uniqueId ∈ frozenNodes g →
         mp = m
         ∧ (uniqueId ∉ frozenNodes gp ↔ Vector3.lengthSq (force m) > T * 100))
    ∧ (uniqueId ∉ frozenNodes g →
         ∃ v, integrate g (velocity m) (force m) = Some v
           ∧ (freeze g = true →
                (uniqueId ∈ frozenNodes gp
                 ↔ (Vector3.lengthSq v < T ∧ Vector3.lengthSq (force m) < T * 100))
                ∧ (uniqueId ∈ frozenNodes gp →
                     velocity mp = Vector3.zero ∧ force mp = Vector3.zero
                     ∧ position mp = Vector3.add (position m) Vector3.zero)
                ∧ (uniqueId ∉ frozenNodes gp →
                     velocity mp = v ∧ force mp = force m
                     ∧ position mp = Vector3.add (position m) v))
           ∧ (freeze g = false →
                (uniqueId ∉ frozenNodes gp)
                ∧ force mp = force m
                ∧ velocity mp = (if Rltb (Vector3.lengthSq v) T then Vector3.zero else v)
                ∧ position mp = Vector3.add (position m) (velocity mp))).
Proof.
  intros Hm Hp T. unfold updatePosition in Hp.
  rewrite (deref_lookup _ _ _ Hm) in Hp. fold T in Hp.
  destruct (decide (uniqueId ∈ frozenNodes g)) as [Hfz|Hfz].
  - rewrite bool_decide_eq_true_2 in Hp by done. simpl in Hp.
    destruct (Rgtb _ _) eqn:Hg; apply (inj Some) in Hp; subst gp; simpl;
      (exists m; split; [done|]; split; [|done]; intros _; split; [done|]).
    + apply Rgtb_true in Hg. split; [done|]. intros _.
      rewrite elem_of_difference, elem_of_singleton. tauto.
    + apply Rgtb_false in Hg. split; [done|]. intros Hx. lra.
  - rewrite bool_decide_eq_false_2 in Hp by done. simpl in Hp.
    destruct (integrate g (velocity m) (force m)) as [v|]; [|done].
    change (Some v ≫= ?f) with (f v) in Hp. cbv beta in Hp.
    destruct (freeze g) eqn:Hfr.
    + destruct (_ && _) eqn:Hb; apply (inj Some) in Hp; subst gp; simpl;
        rewrite lookup_alter_eq, Hm; simpl; (eexists; split; [reflexivity|]);
        (split; [done|]); intros _; exists v; (split; [done|]);
        (split; [|done]); intros _; simpl.
      * apply andb_true_iff in Hb as [Hb1 Hb2].
        apply Rltb_true in Hb1, Hb2.
        assert (uniqueId ∈ {[uniqueId]} ∪ frozenNodes g) as Hin.
        { rewrite elem_of_union, elem_of_singleton. by left. }
        split; [done|]. split; [done|]. done.
      * assert (¬ (Vector3.lengthSq v < T ∧ Vector3.lengthSq (force m) < T * 100))
          as Hno.
        { intros [H1 H2]. apply Rltb_true in H1, H2. by rewrite H1, H2 in Hb. }
        split; [tauto|]. split; [done|]. done.
    + apply (inj Some) in Hp; subst gp; simpl.
      rewrite lookup_alter_eq, Hm; simpl. eexists; split; [reflexivity|].
      split; [done|]. intros _. exists v. split; [done|]. split; [done|].
      intros _. simpl. done.
Qed.

Lemma updateNode_spec counts camera g vis uniqueId node stn m :
  heap g !! node = Some m →
  updateNode counts camera (g, vis) (uniqueId, node) = Some stn →
  ∃ gp mp mn,
    updatePosition uniqueId node g = Some gp
    ∧ heap gp !! node = Some mp
    ∧ heap stn.1 !! node = Some mn
    ∧ frozenNodes stn.1 = frozenNodes gp
    ∧ position mn = position mp ∧ velocity mn = velocity mp ∧ force mn = force mp
    ∧ scale mn = Vector3.setScalar (calcLinkScale g (default 0%nat (counts !! uniqueId))).
Proof.
  intros Hm Hst. unfold updateNode in Hst.
  apply bind_Some in Hst as (gp & Hp & Hst). apply (inj Some) in Hst. subst stn.
  simpl in Hp.
  destruct (updatePosition_spec _ _ _ _ _ Hm Hp) as (mp & Hmp & _).
  pose proof (updatePosition_config _ _ _ _ Hp) as Hcp.
  exists gp, mp.
  assert (∃ mc, heap (updateColor uniqueId node gp) !! node = Some mc
                ∧ position mc = position mp ∧ velocity mc = velocity mp
                ∧ force mc = force mp
                ∧ frozenNodes (updateColor uniqueId node gp) = frozenNodes gp)
    as (mc & Hmc & Hc1 & Hc2 & Hc3 & Hc4).
  { unfold updateColor. destruct (colorPulseData gp !! uniqueId); simpl.
    - rewrite lookup_alter_eq, Hmp. simpl. by eexists.
    - by exists mp. }
  set (gc := updateColor uniqueId node gp) in *.
  assert (calcLinkScale gc (default 0%nat (counts !! uniqueId))
          = calcLinkScale g (default 0%nat (counts !! uniqueId))) as Hs.
  { apply calcLinkScale_config. unfold gc. by rewrite updateColor_config. }
  set (gs := updateScale counts uniqueId node gc).
  assert (heap gs !! node
          = Some (set_scale (Vector3.setScalar
                    (calcLinkScale g (default 0%nat (counts !! uniqueId)))) mc)
          ∧ frozenNodes gs = frozenNodes gc) as [Hms Hfs].
  { unfold gs, updateScale. simpl. by rewrite lookup_alter_eq, Hmc, Hs. }
  assert (heap (updateLabel camera uniqueId node (gs, vis)).1 = heap gs
          ∧ frozenNodes (updateLabel camera uniqueId node (gs, vis)).1 = frozenNodes gs)
    as [Hhl Hfl].
  { unfold updateLabel. destruct camera as [shouldBeVisible|]; [|done].
    destruct (shouldBeVisible _); [|done]. cbn [fst].
    by destruct (labels gs !! uniqueId). }
  cbn [snd]. eexists. split; [done|]. split; [done|].
  split; [by rewrite Hhl, Hms|]. split; [congruence|]. by simpl.
Qed.

(** The loop does not touch the maps of nodes and of reverse lookup, nor
    the list of links. *)
Lemma updateNode_static counts camera st entry st' :
  updateNode counts camera st entry = Some st' →
  nodes st'.1 = nodes st.1 ∧ links st'.1 = links st.1
  ∧ nodeToUniqueId st'.1 = nodeToUniqueId st.1.
Proof.
  destruct entry as [id' node']. intros H1.
  unfold updateNode in H1. apply bind_Some in H1 as (gp & Hp & H1).
  apply (inj Some) in H1. subst st'.
  assert (nodes gp = nodes st.1 ∧ links gp = links st.1
          ∧ nodeToUniqueId gp = nodeToUniqueId st.1) as (<- & <- & <-).
  { unfold updatePosition in Hp. destruct (negb _).
    - destruct (integrate _ _ _) as [v|]; [|done].
      change (Some v ≫= ?f) with (f v) in Hp. cbv beta in Hp.
      destruct (freeze st.1); [destruct (_ && _)|];
        apply (inj Some) in Hp; by subst gp.
    - destruct (Rgtb _ _); apply (inj Some) in Hp; by subst gp. }
  unfold updateLabel. destruct camera as [shouldBeVisible|].
  - destruct (shouldBeVisible _); cbn [fst].
    + destruct (labels _ !! id'); unfold updateColor;
        by destruct (colorPulseData gp !! id').
    + unfold updateColor; by destruct (colorPulseData gp !! id').
  - cbn [fst]. unfold updateColor; by destruct (colorPulseData gp !! id').
Qed.

Lemma foldM_updateNode_static counts camera l st st' :
  foldM (updateNode counts camera) st l = Some st' →
  nodes st'.1 = nodes st.1 ∧ links st'.1 = links st.1
  ∧ nodeToUniqueId st'.1 = nodeToUniqueId st.1.
Proof.
  revert st. induction l as [|e l IH]; intros st Hfold.
  - apply (inj Some) in Hfold. by subst.
  - apply bind_Some in Hfold as (st1 & H1 & H2).
    destruct (updateNode_static _ _ _ _ _ H1) as (<- & <- & <-). by apply IH.
Qed.

(** The whole loop, seen from one node. *)
Lemma updateAllNodes_node camera g uniqueId node :
  wf g → nodes g !! uniqueId = Some node →
  ∃ g' stn,
    updateAllNodes camera g = Some g'
    ∧ updateNode (nodeConnectionCounts g) camera (g, ∅) (uniqueId, node) = Some stn
    ∧ heap g' !! node = heap stn.1 !! node
    ∧ (uniqueId ∈ frozenNodes g' ↔ uniqueId ∈ frozenNodes stn.1)
    ∧ nodes g' = nodes g
    ∧ config g' = config g.
Proof.
  intros Hwf Hnode. unfold updateAllNodes.
  destruct (foldM_total (updateNode (nodeConnectionCounts g) camera)
              (map_to_list (nodes g)) (updateNode_total _ _) (g, ∅))
    as [[g1 vis1] Hfold].
  rewrite Hfold. simpl.
  assert (NoDup (map_to_list (nodes g)).*2) as Hnd2.
  { apply NoDup_fmap_2_strong; [|apply NoDup_map_to_list].
    intros [id1 r1] [id2 r2] H1 H2 Heq. simpl in Heq. subst r2.
    apply elem_of_map_to_list in H1, H2.
    by rewrite (wf_inj g Hwf id1 id2 r1 H1 H2). }
  assert ((uniqueId, node) ∈ map_to_list (nodes g)) as Hin
    by (by apply elem_of_map_to_list).
  destruct (foldM_updateNode_node _ _ uniqueId node _ _ _ _
              (NoDup_fst_map_to_list _) Hnd2 Hin Hfold)
    as (stn & Hstn & Hv & Hc).
  eexists _, stn. split; [done|]. split; [done|].
  unfold nodeView in Hv. cbn [fst] in Hv. injection Hv as Hv1 Hv2 Hv3.
  simpl. split; [done|]. split.
  { rewrite <-(bool_decide_eq_true (uniqueId ∈ frozenNodes g1)).
    rewrite <-(bool_decide_eq_true (uniqueId ∈ frozenNodes stn.1)).
    by rewrite Hv2. }
  split; [|done].
  by destruct (foldM_updateNode_static _ _ _ _ _ Hfold) as [Hn _].
Qed.

End update_loop.

(** * One tick, seen from one node *)

Section tick_facts.

Lemma add_zero (p : Vector3) : Vector3.add p Vector3.zero = p.
Proof. destruct p as [x y z]. unfold Vector3.add, Vector3.zero; simpl. f_equal; ring. Qed.

(** A slow node below the speed limit is not slowed further. *)
Lemma integrate_slow g (velocity0 force0 : Vector3) :
  Vector3.lengthSq (Vector3.add velocity0 force0) <= 1 / 10000 →
  1 / 100 <= maxSpeed g →
  integrate g velocity0 force0 = Some (Vector3.add velocity0 force0).
Proof.
  intros Hs Hmax. unfold integrate.
  apply Rgtb_false in Hs as Hs'. rewrite Hs'.
  assert (Rgtb (Vector3.length (Vector3.add velocity0 force0)) (maxSpeed g) = false)
    as Hclamp.
  { apply Rgtb_false. unfold Vector3.length.
    apply Rle_trans with (sqrt (1 / 10000)); [by apply sqrt_le_1_alt|].
    replace (1 / 10000) with (Rsqr (1 / 100)) by (unfold Rsqr; lra).
    rewrite sqrt_Rsqr; lra. }
  destruct (Rgtb (friction (forces g)) 0); simpl; by rewrite Hclamp.
Qed.

Lemma wf_with_heap_alter g (f : PhysicsMesh → PhysicsMesh) (r : MeshRef) :
  wf g → wf (with_heap (alter f r (heap g)) g).
Proof. apply wf_same_dom; [done|done|]. simpl. apply dom_alter_L. Qed.

End tick_facts.

Lemma wf_graphDrifting : wf graphDrifting.
Proof.
  unfold graphDrifting. apply wf_with_heap_alter.
  pose proof (wf_addNode newGravityGraph "A" None None 0 0 wf_new) as [Hh Hi Hf].
  by split.
Qed.

(** The forces of a lone node without links: the centre attraction only. *)
Lemma calculateForces_lone (g : GravityGraph) (uniqueId : string) (node : MeshRef) :
  nodes g = {[uniqueId := node]} → links g = [] →
  calculateForces g
  = Some (with_heap
            (alter (λ m, set_force
                           (Vector3.add (force m)
                              (Vector3.multiplyScalar (position m)
                                 (- centerAttraction (forces g)))) m)
                   node
                   (update_force (λ _, Vector3.zero) node (heap g)))
            g).
Proof.
  intros Hnodes Hlinks. unfold calculateForces.
  by rewrite Hnodes, Hlinks, map_to_list_singleton.
Qed.

(** C3, as stated, fails.  The node of [graphDrifting] is active.  In the
    tick its net force is the centre attraction (0.003, 0, 0), whose square
    0.000009 is not under the squared settle threshold 0.000001; the force
    cancels its velocity, so its speed is 0; and the tick freezes it, because
    the code compares the squared force with 100 times the threshold. *)
Lemma freezes_with_force_above_threshold :
  let T := velocityTreshold graphDrifting * velocityTreshold graphDrifting in
  ∃ g1 g',
    calculateForces graphDrifting = Some g1
    ∧ updateAllNodes None g1 = Some g'
    ∧ ("A" ∉ frozenNodes g1)
    ∧ T <= Vector3.lengthSq (force (deref (heap g1) 0%nat))
    ∧ "A" ∈ frozenNodes g'.
Proof.
  cbv zeta. eexists.
  rewrite (calculateForces_lone graphDrifting "A" 0%nat eq_refl eq_refl).
  match goal with |- context [Some ?g = Some _] => set (g1 := g) end.
  assert (wf g1) as Hwf.
  { unfold g1. apply (wf_same_dom graphDrifting); [done|done| |apply wf_graphDrifting].
    simpl. unfold update_force. by rewrite !dom_alter_L. }
  assert (∃ m, heap g1 !! 0%nat = Some m
               ∧ velocity m = Vector3.mk (- 3 / 1000) 0 0
               ∧ force m = Vector3.add Vector3.zero
                             (Vector3.multiplyScalar (Vector3.mk (- 3) 0 0) (- (1 / 1000))))
    as (m & Hm & Hvel & Hforce).
  { eexists. split; [reflexivity|]. split; reflexivity. }
  destruct (updateAllNodes_node None g1 "A" 0%nat Hwf eq_refl)
    as (g' & stn & Hg' & Hstn & _ & Hfz & _).
  exists g'. split; [done|]. split; [done|].
  split; [apply not_elem_of_empty|].
  fold g1. rewrite (deref_lookup _ _ _ Hm), Hforce.
  split; [unfold Vector3.lengthSq; simpl; lra|].
  apply Hfz.
  destruct (updateNode_spec _ _ _ _ _ _ _ _ Hm Hstn)
    as (gp & mp & mn & Hp & _ & _ & -> & _).
  destruct (updatePosition_spec _ _ _ _ _ Hm Hp) as (mp' & _ & _ & Hact).
  destruct (Hact (not_elem_of_empty _)) as (v & Hv & Hfreeze & _).
  apply (Hfreeze eq_refl).
  rewrite Hvel, Hforce in *.
  rewrite integrate_slow in Hv; [| unfold Vector3.lengthSq; simpl; lra
                                 | simpl; lra].
  apply (inj Some) in Hv. subst v.
  unfold Vector3.lengthSq. simpl. lra.
Qed.

(** The freeze transitions of [updateAllNodes], in terms of the force the
    mesh holds when the loop starts. *)
Lemma updateAllNodes_freeze (camera : option (Vector3 → bool)) (g : GravityGraph)
    (uniqueId : string) (node : MeshRef) :
  wf g → freeze g = true → nodes g !! uniqueId = Some node →
  ∃ g', updateAllNodes camera g = Some g'
    ∧ let m := deref (heap g) node in
      let m' := deref (heap g') node in
      let T := velocityTreshold g * velocityTreshold g in
      (uniqueId ∉ frozenNodes g →
         ∃ v, integrate g (velocity m) (force m) = Some v
           ∧ (uniqueId ∈ frozenNodes g'
              ↔ (Vector3.lengthSq v < T ∧ Vector3.lengthSq (force m) < T * 100))
           ∧ (uniqueId ∈ frozenNodes g' →
                velocity m' = Vector3.zero ∧ position m' = position m)
           ∧ (uniqueId ∉ frozenNodes g' →
                velocity m' = v ∧ position m' = Vector3.add (position m) v))
      ∧ (uniqueId ∈ frozenNodes g →
           position m' = position m ∧ velocity m' = velocity m
           ∧ (uniqueId ∉ frozenNodes g' ↔ Vector3.lengthSq (force m) > T * 100)).
Proof.
  intros Hwf Hfr Hnode.
  destruct (updateAllNodes_node camera g uniqueId node Hwf Hnode)
    as (g' & stn & Hg' & Hstn & Hheap & Hfz & _).
  destruct (wf_heap g Hwf _ _ Hnode) as [m Hm].
  destruct (updateNode_spec _ _ _ _ _ _ _ _ Hm Hstn)
    as (gp & mp & mn & Hp & Hmp & Hmn & Hfn & Hpos & Hvel & _).
  destruct (updatePosition_spec _ _ _ _ _ Hm Hp) as (mp' & Hmp' & Hfrozen & Hactive).
  assert (mp' = mp) as -> by congruence.
  exists g'. split; [done|]. cbv zeta.
  rewrite (deref_lookup _ _ _ Hm).
  rewrite Hmn in Hheap. rewrite (deref_lookup _ _ _ Hheap).
  rewrite Hfn in Hfz. rewrite Hpos, Hvel. split.
  - intros Hact. destruct (Hactive Hact) as (v & Hv & Hon & _).
    destruct (Hon Hfr) as (Hiff & Hstop & Hmove).
    exists v. split; [done|]. split; [by rewrite Hfz|]. split.
    + intros Hin. apply Hfz in Hin.
      destruct (Hstop Hin) as (-> & _ & ->). by rewrite add_zero.
    + intros Hout. rewrite Hfz in Hout. by destruct (Hmove Hout) as (-> & _ & ->).
  - intros Hin. destruct (Hfrozen Hin) as [-> Hiff].
    split; [done|]. split; [done|]. by rewrite Hfz.
Qed.

Section force_frame.

Implicit Types (h : gmap MeshRef PhysicsMesh).

Lemma sameButForces_refl h : sameButForces h h.
Proof. by intros r. Qed.

Lemma sameButForces_trans h1 h2 h3 :
  sameButForces h1 h2 → sameButForces h2 h3 → sameButForces h1 h3.
Proof. intros H12 H23 r. by rewrite H23, H12. Qed.

Lemma sameButForces_alter (f : PhysicsMesh → Vector3) (r : MeshRef) h :
  sameButForces h (alter (λ m, set_force (f m) m) r h).
Proof.
  intros r'. destruct (decide (r = r')) as [->|Hne].
  - rewrite lookup_alter_eq. by destruct (h !! r').
  - by rewrite lookup_alter_ne.
Qed.

Lemma sameButForces_update_force (f : Vector3 → Vector3) (r : MeshRef) h :
  sameButForces h (update_force f r h).
Proof. apply (sameButForces_alter (λ m, f (force m))). Qed.

Lemma sameButForces_resetForces (nodeList : list (string * MeshRef)) h :
  sameButForces h (resetForces nodeList h).
Proof.
  unfold resetForces. revert h.
  induction nodeList as [|[title node] l IH]; intros h; simpl.
  - apply sameButForces_refl.
  - eapply sameButForces_trans; [apply sameButForces_update_force|apply IH].
Qed.

Lemma sameButForces_centerPhase (c : R) (nodeList : list (string * MeshRef)) h :
  sameButForces h (centerPhase c nodeList h).
Proof.
  unfold centerPhase. revert h.
  induction nodeList as [|[title node] l IH]; intros h; simpl.
  - apply sameButForces_refl.
  - eapply sameButForces_trans; [|apply IH].
    apply (sameButForces_alter
             (λ m, Vector3.add (force m) (Vector3.multiplyScalar (position m) (- c)))).
Qed.

Lemma sameButForces_foldM {A}
    (step : gmap MeshRef PhysicsMesh → A → option (gmap MeshRef PhysicsMesh))
    (l : list A) h h' :
  (∀ h a h', step h a = Some h' → sameButForces h h') →
  foldM step h l = Some h' → sameButForces h h'.
Proof.
  intros Hstep. revert h. induction l as [|a l IH]; intros h Hfold.
  - apply (inj Some) in Hfold as <-. apply sameButForces_refl.
  - apply bind_Some in Hfold as (h1 & H1 & H2).
    eapply sameButForces_trans; [by eapply Hstep|by apply IH].
Qed.

Lemma sameButForces_repulsePair rep nodeA nodeB h h' :
  repulsePair rep nodeA nodeB h = Some h' → sameButForces h h'.
Proof.
  unfold repulsePair. destruct (Rltb _ _).
  - intros [= <-]. apply sameButForces_refl.
  - intros H. apply bind_Some in H as (repulsionForce & _ & H).
    apply bind_Some in H as (unit & _ & H). apply (inj Some) in H as <-.
    eapply sameButForces_trans; apply sameButForces_update_force.
Qed.

Lemma sameButForces_springLink strength h link h' :
  springLink strength h link = Some h' → sameButForces h h'.
Proof.
  unfold springLink. intros H. apply bind_Some in H as (unit & _ & H).
  apply (inj Some) in H as <-.
  eapply sameButForces_trans; apply sameButForces_update_force.
Qed.

(** [calculateForces] writes forces only. *)
Lemma calculateForces_frame (g g1 : GravityGraph) :
  calculateForces g = Some g1 →
  sameButForces (heap g) (heap g1) ∧ g1 = with_heap (heap g1) g.
Proof.
  unfold calculateForces. intros H.
  apply bind_Some in H as (h1 & H1 & H). apply bind_Some in H as (h2 & H2 & H).
  apply (inj Some) in H as <-. split; [|done]. simpl.
  eapply sameButForces_trans; [apply sameButForces_resetForces|].
  eapply sameButForces_trans; [|eapply sameButForces_trans;
                                  [|apply sameButForces_centerPhase]].
  - unfold repulsionPhase in H1. eapply sameButForces_foldM; [|exact H1].
    intros h [i j] h'.
    destruct ((map_to_list (nodes g)).*2 !! i) as [nodeA|],
             ((map_to_list (nodes g)).*2 !! j) as [nodeB|];
      try (intros [= <-]; apply sameButForces_refl).
    apply sameButForces_repulsePair.
  - eapply sameButForces_foldM; [|exact H2]. apply sameButForces_springLink.
Qed.

Lemma sameButForces_deref h h' r :
  sameButForces h h' →
  position (deref h' r) = position (deref h r)
  ∧ velocity (deref h' r) = velocity (deref h r).
Proof.
  intros H. specialize (H r). unfold deref. rewrite !lookup_total_alt.
  destruct (h !! r) as [m|], (h' !! r) as [m'|]; simpl in *; try done.
  injection H as H1 H2 _. by rewrite H1, H2.
Qed.

Lemma sameButForces_dom h h' : sameButForces h h' → dom h' = dom h.
Proof.
  intros H. apply set_eq. intros r. rewrite !elem_of_dom. specialize (H r).
  destruct (h !! r), (h' !! r); simpl in *; try done; split; intros [? ?]; done.
Qed.

Lemma wf_calculateForces (g g1 : GravityGraph) :
  calculateForces g = Some g1 → wf g → wf g1.
Proof.
  intros H. destruct (calculateForces_frame _ _ H) as [Hsame ->].
  apply wf_same_dom; [done|done|]. by apply sameButForces_dom.
Qed.

End force_frame.

(** C3, amended.  With the freeze policy on, a tick computes the net force of
    every node and then: an active node becomes frozen exactly when, after
    [velocity += force], the friction and the speed limit, its squared speed
    is under the squared settle threshold and its squared net force is under
    100 times the squared settle threshold; it is then stopped where it is.
    A frozen node is not integrated: its position and velocity stay; it
    becomes active in the tick in which its squared net force exceeds 100
    times the squared settle threshold. *)
Theorem freeze_state_machine (camera : option (Vector3 → bool)) (g : GravityGraph)
    (uniqueId : string) (node : MeshRef) :
  wf g → freeze g = true → nodes g !! uniqueId = Some node →
  ∃ g1 g',
    calculateForces g = Some g1
    ∧ updateAllNodes camera g1 = Some g'
    ∧ tick camera g = Some g'
    ∧ let m := deref (heap g) node in
      let netForce := force (deref (heap g1) node) in
      let m' := deref (heap g') node in
      let T := velocityTreshold g * velocityTreshold g in
      (uniqueId ∉ frozenNodes g →
         ∃ v, integrate g (velocity m) netForce = Some v
           ∧ (uniqueId ∈ frozenNodes g'
              ↔ (Vector3.lengthSq v < T ∧ Vector3.lengthSq netForce < T * 100))
           ∧ (uniqueId ∈ frozenNodes g' →
                velocity m' = Vector3.zero ∧ position m' = position m)
           ∧ (uniqueId ∉ frozenNodes g' →
                velocity m' = v ∧ position m' = Vector3.add (position m) v))
      ∧ (uniqueId ∈ frozenNodes g →
           position m' = position m ∧ velocity m' = velocity m
           ∧ (uniqueId ∉ frozenNodes g' ↔ Vector3.lengthSq netForce > T * 100)).
Proof.
  intros Hwf Hfr Hnode.
  destruct (calculateForces_total g) as [g1 Hg1].
  destruct (calculateForces_frame _ _ Hg1) as [Hsame Heq].
  pose proof (wf_calculateForces _ _ Hg1 Hwf) as Hwf1.
  assert (freeze g1 = true ∧ nodes g1 !! uniqueId = Some node
          ∧ frozenNodes g1 = frozenNodes g
          ∧ velocityTreshold g1 = velocityTreshold g
          ∧ config g1 = config g) as (Hfr1 & Hnode1 & Hfz1 & Hvt1 & Hc1).
  { rewrite Heq. by repeat split. }
  destruct (updateAllNodes_freeze camera g1 uniqueId node Hwf1 Hfr1 Hnode1)
    as (g' & Hg' & Hact & Hfrozen).
  destruct (sameButForces_deref _ _ node Hsame) as [Hpos Hvel].
  exists g1, g'. split; [done|]. split; [done|].
  split; [unfold tick; by rewrite Hg1|].
  cbv zeta in *. rewrite Hfz1, Hvt1, Hpos, Hvel in *.
  rewrite (integrate_config g1 g) in Hact by done. by split.
Qed.

Lemma freeze_state_machine_witness :
  wf graphDrifting ∧ freeze graphDrifting = true
  ∧ nodes graphDrifting !! "A" = Some 0%nat
  ∧ ∃ g', tick None graphDrifting = Some g'.
Proof.
  split; [apply wf_graphDrifting|]. split; [reflexivity|]. split; [reflexivity|].
  destruct (freeze_state_machine None graphDrifting "A" 0%nat
              wf_graphDrifting eq_refl eq_refl) as (g1 & g' & _ & _ & Hg' & _).
  by exists g'.
Defined.

(** The scale [updateAllNodes] gives a node. *)
Lemma updateAllNodes_scale (camera : option (Vector3 → bool)) (g : GravityGraph)
    (uniqueId : string) (node : MeshRef) :
  wf g → nodes g !! uniqueId = Some node →
  ∃ g', updateAllNodes camera g = Some g'
    ∧ scale (deref (heap g') node)
      = Vector3.setScalar
          (calcLinkScale g (default 0%nat (nodeConnectionCounts g !! uniqueId))).
Proof.
  intros Hwf Hnode.
  destruct (updateAllNodes_node camera g uniqueId node Hwf Hnode)
    as (g' & stn & Hg' & Hstn & Hheap & _).
  destruct (wf_heap g Hwf _ _ Hnode) as [m Hm].
  destruct (updateNode_spec _ _ _ _ _ _ _ _ Hm Hstn)
    as (gp & mp & mn & _ & _ & Hmn & _ & _ & _ & _ & Hscale).
  exists g'. split; [done|].
  rewrite Hmn in Hheap. by rewrite (deref_lookup _ _ _ Hheap).
Qed.

(** C10.  Each tick sets the scale of every node to [calcLinkScale] of its
    connection count, the count the loop reads from [nodeConnectionCounts]:
    exactly 1 for a count of 0 or 1, whatever [baseNodeScale] and
    [linkScaleMultiplier] are, and [baseNodeScale + count *
    linkScaleMultiplier] for a count of at least 2. *)
Theorem link_scale_rule (camera : option (Vector3 → bool)) (g : GravityGraph)
    (uniqueId : string) (node : MeshRef) :
  wf g → nodes g !! uniqueId = Some node →
  ∃ g', tick camera g = Some g'
    ∧ let connectionCount := default 0%nat (nodeConnectionCounts g !! uniqueId) in
      scale (deref (heap g') node) = Vector3.setScalar (calcLinkScale g connectionCount)
      ∧ ((connectionCount ≤ 1)%nat → calcLinkScale g connectionCount = 1)
      ∧ ((2 ≤ connectionCount)%nat →
           calcLinkScale g connectionCount
           = baseNodeScale g + INR connectionCount * linkScaleMultiplier g).
Proof.
  intros Hwf Hnode.
  destruct (calculateForces_total g) as [g1 Hg1].
  destruct (calculateForces_frame _ _ Hg1) as [_ Heq].
  pose proof (wf_calculateForces _ _ Hg1 Hwf) as Hwf1.
  assert (nodes g1 !! uniqueId = Some node
          ∧ nodeConnectionCounts g1 = nodeConnectionCounts g
          ∧ config g1 = config g) as (Hnode1 & Hcounts & Hc1).
  { rewrite Heq. by repeat split. }
  destruct (updateAllNodes_scale camera g1 uniqueId node Hwf1 Hnode1)
    as (g' & Hg' & Hscale).
  exists g'. split; [unfold tick; by rewrite Hg1|]. cbv zeta.
  rewrite Hscale, Hcounts, (calcLinkScale_config g1 g) by done.
  split; [done|]. unfold calcLinkScale. split; intros Hc.
  - by rewrite bool_decide_eq_true_2.
  - rewrite bool_decide_eq_false_2; [done|lia].
Qed.

Lemma wf_graphABC : wf graphABC.
Proof.
  unfold graphABC. repeat (apply wf_addLink || apply wf_addNode). apply wf_new.
Qed.

Lemma link_scale_rule_witness :
  wf graphABC ∧ nodes graphABC !! "B" = Some 1%nat
  ∧ default 0%nat (nodeConnectionCounts graphABC !! "B") = 2%nat
  ∧ ∃ g', tick None graphABC = Some g'
      ∧ scale (deref (heap g') 1%nat)
        = Vector3.setScalar (baseNodeScale graphABC + INR 2 * linkScaleMultiplier graphABC).
Proof.
  split; [apply wf_graphABC|]. split; [reflexivity|]. split; [reflexivity|].
  destruct (link_scale_rule None graphABC "B" 1%nat wf_graphABC eq_refl)
    as (g' & Hg' & Hscale & _ & Hmany).
  exists g'. split; [done|]. rewrite Hscale.
  change (default 0%nat (nodeConnectionCounts graphABC !! "B")) with 2%nat in *.
  by rewrite (Hmany (le_n 2)).
Defined.

(** * Properties of the particle flow system *)

Section particle_facts.

Implicit Types (s : LinkParticleSystem) (ms : gmap ParticleRef ParticleMesh).

Lemma foldl_alter_is_Some {A} (f : ParticleMesh → ParticleMesh) (key : A → ParticleRef)
    (l : list A) ms r :
  is_Some (foldl (λ ms x, alter f (key x) ms) ms l !! r) ↔ is_Some (ms !! r).
Proof.
  revert ms. induction l as [|x l IH]; intros ms; simpl; [done|].
  by rewrite IH, lookup_alter_is_Some.
Qed.

Lemma foldl_alter_notin {A} (f : ParticleMesh → ParticleMesh) (key : A → ParticleRef)
    (l : list A) ms r :
  r ∉ key <$> l → foldl (λ ms x, alter f (key x) ms) ms l !! r = ms !! r.
Proof.
  revert ms. induction l as [|x l IH]; intros ms Hr; simpl; [done|].
  rewrite fmap_cons in Hr. apply not_elem_of_cons in Hr as [Hne Hr].
  rewrite IH by done. by rewrite lookup_alter_ne.
Qed.

(** **** The pool after [initializeParticlePool] *)

Lemma iter_allocateSlot n s :
  let s' := Nat.iter n allocateSlot s in
  nextMesh s' = (nextMesh s + n)%nat
  ∧ particlePool s' = particlePool s ++ seq (nextMesh s) n
  ∧ particles s' = particles s
  ∧ maxParticles s' = maxParticles s
  ∧ (∀ r, r ∈ sceneMeshes s' ↔ r ∈ seq (nextMesh s) n ∨ r ∈ sceneMeshes s)
  ∧ (∀ r, (r < nextMesh s)%nat → meshes s' !! r = meshes s !! r)
  ∧ (∀ r, r ∈ seq (nextMesh s) n →
       meshes s' !! r
       = Some (mkParticleMesh false Vector3.zero (Vector3.setScalar 1) false))
  ∧ (∀ r, is_Some (meshes s' !! r) → is_Some (meshes s !! r) ∨ r ∈ seq (nextMesh s) n).
Proof.
  induction n as [|n IH].
  - simpl. rewrite Nat.add_0_r, app_nil_r. repeat split; try done.
    + by right.
    + intros [H|H]; [by apply elem_of_nil in H|done].
    + intros r H. by apply elem_of_nil in H.
    + by left.
  - cbv zeta in *. rewrite Nat.iter_succ.
    set (si := Nat.iter n allocateSlot s) in *.
    destruct IH as (Hn & Hp & Hl & Hm & Hs & Hold & Hnew & Hdom).
    unfold allocateSlot.
    cbn [nextMesh particlePool particles maxParticles sceneMeshes meshes].
    rewrite Hn, Hp, Hl, Hm. rewrite seq_S, app_assoc.
    split; [lia|]. split; [done|]. split; [done|]. split; [done|].
    split; [|split; [|split]].
    + intros r. rewrite elem_of_union, elem_of_singleton, Hs, elem_of_app,
        list_elem_of_singleton. tauto.
    + intros r Hr. rewrite lookup_insert_ne by lia. by apply Hold.
    + intros r Hr. apply elem_of_app in Hr as [Hr|Hr].
      * rewrite lookup_insert_ne; [by apply Hnew|].
        apply elem_of_seq in Hr. lia.
      * apply list_elem_of_singleton in Hr. subst r. by rewrite lookup_insert_eq.
    + intros r. rewrite lookup_insert_is_Some, elem_of_app, list_elem_of_singleton.
      intros [<-|[_ Hr]]; [by right; right|].
      destruct (Hdom r Hr); [by left|by right; left].
Qed.

Lemma scene_remove_all (pool : list ParticleRef) (sc : gset ParticleRef) r :
  r ∈ foldl (λ sc r, sc ∖ {[r]}) sc pool ↔ r ∈ sc ∧ r ∉ pool.
Proof.
  revert sc. induction pool as [|x pool IH]; intros sc; simpl.
  - split; [intros H; split; [done|apply not_elem_of_nil]|by intros [H _]].
  - rewrite IH, elem_of_difference, elem_of_singleton, not_elem_of_cons. tauto.
Qed.

Lemma dispose_all (pool : list ParticleRef) ms r :
  is_Some (ms !! r) →
  r ∈ pool ∨ disposed (ms !!! r) = true →
  disposed (foldl (λ ms r, alter dispose_mesh r ms) ms pool !!! r) = true.
Proof.
  revert ms. induction pool as [|x pool IH]; intros ms [m Hm] Hr; simpl.
  - destruct Hr as [Hr|Hr]; [by apply elem_of_nil in Hr|done].
  - apply IH.
    + apply lookup_alter_is_Some. by eexists.
    + destruct (decide (x = r)) as [->|Hne].
      * right. by rewrite lookup_total_alt, lookup_alter_eq, Hm.
      * destruct Hr as [Hr|Hr].
        -- apply elem_of_cons in Hr as [->|Hr]; [done|by left].
        -- right. by rewrite lookup_total_alt, lookup_alter_ne, <-lookup_total_alt.
Qed.

(** **** The bound on the live particles *)

Lemma advanceParticle_length nodeHeap deltaTime currentTime
    (l : list (nat * Particle)) ms :
  (length (foldr (advanceParticle nodeHeap deltaTime currentTime) (ms, []) l).2
   ≤ length l)%nat.
Proof.
  induction l as [|[i particle] l IH]; simpl; [done|].
  destruct (foldr _ _ l) as [ms' kept]. simpl in *.
  destruct (_ || _); simpl; lia.
Qed.

Lemma update_length nodeHeap deltaTime currentTime links0 shuffledLinks s :
  (length (particles (update nodeHeap deltaTime currentTime links0 shuffledLinks s).1)
   ≤ length (particles s))%nat.
Proof.
  unfold update.
  pose proof (advanceParticle_length nodeHeap deltaTime currentTime
                (imap (λ i particle, (i, particle)) (particles s)) (meshes s)) as H.
  destruct (foldr _ _ _) as [ms kept]. simpl in *.
  by rewrite length_imap in H.
Qed.

Lemma update_maxParticles nodeHeap deltaTime currentTime links0 shuffledLinks s :
  maxParticles (update nodeHeap deltaTime currentTime links0 shuffledLinks s).1
  = maxParticles s.
Proof. unfold update. by destruct (foldr _ _ _). Qed.

Lemma spawnParticle_maxParticles nodeHeap link0 rnd s :
  maxParticles (spawnParticle nodeHeap link0 rnd s) = maxParticles s.
Proof.
  unfold spawnParticle. destruct (bool_decide _); [done|]. by destruct (find _ _).
Qed.

Lemma spawnParticle_full nodeHeap link0 rnd s :
  (maxParticles s ≤ length (particles s))%nat → spawnParticle nodeHeap link0 rnd s = s.
Proof. intros H. unfold spawnParticle. by rewrite bool_decide_eq_true_2. Qed.

Lemma spawnParticle_no_slot nodeHeap link0 rnd s :
  (∀ r, r ∈ particlePool s → visible (meshes s !!! r) = true) →
  spawnParticle nodeHeap link0 rnd s = s.
Proof.
  intros H. unfold spawnParticle. destruct (bool_decide _); [done|].
  destruct (find _ _) as [r|] eqn:Hfind; [|done].
  apply find_some in Hfind as [Hin Hvis].
  apply list_elem_of_In in Hin. by rewrite (H r Hin) in Hvis.
Qed.

Lemma spawnParticle_bound nodeHeap link0 rnd s :
  (length (particles s) ≤ maxParticles s)%nat →
  (length (particles (spawnParticle nodeHeap link0 rnd s)) ≤ maxParticles s)%nat.
Proof.
  intros H. unfold spawnParticle. case_bool_decide as Hfull; [done|].
  destruct (find _ _); [|done]. simpl. rewrite length_app. simpl. lia.
Qed.

Lemma initializeParticlePool_particles s :
  particles (initializeParticlePool s) = []
  ∧ maxParticles (initializeParticlePool s) = maxParticles s.
Proof.
  unfold initializeParticlePool.
  by destruct (iter_allocateSlot (maxParticles s) (dispose s)) as (_ & _ & -> & -> & _).
Qed.

Lemma applyParticleOp_bound s op :
  (length (particles s) ≤ maxParticles s)%nat →
  (length (particles (applyParticleOp s op)) ≤ maxParticles (applyParticleOp s op))%nat.
Proof.
  intros H. destruct op; simpl.
  - rewrite spawnParticle_maxParticles. by apply spawnParticle_bound.
  - rewrite update_maxParticles. etrans; [apply update_length|done].
  - done.
  - done.
  - unfold setMaxParticles.
    destruct (initializeParticlePool_particles
      (mkParticleSystem (meshes s) (nextMesh s) (sceneMeshes s) (particles s)
         (particlePool s) maxParticles0 (spawnRate s) (lastSpawn s) (particlesDelay s)))
      as [-> _]. simpl. lia.
  - lia.
  - lia.
Qed.

Lemma newLinkParticleSystem_bound maxParticles0 :
  particles (newLinkParticleSystem maxParticles0) = [].
Proof. unfold newLinkParticleSystem. apply initializeParticlePool_particles. Qed.

Lemma run_bound s (ops : list ParticleOp) :
  (length (particles s) ≤ maxParticles s)%nat →
  (length (particles (foldl applyParticleOp s ops))
   ≤ maxParticles (foldl applyParticleOp s ops))%nat.
Proof.
  revert s. induction ops as [|op ops IH]; intros s H; simpl; [done|].
  by apply IH, applyParticleOp_bound.
Qed.

Lemma hotPath_maxParticles s (ops : list ParticleOp) :
  forallb hotPath ops = true →
  maxParticles (foldl applyParticleOp s ops) = maxParticles s.
Proof.
  revert s. induction ops as [|op ops IH]; intros s H; simpl; [done|].
  simpl in H. apply andb_true_iff in H as [Hop H]. rewrite IH by done.
  destruct op; try done; simpl.
  - apply spawnParticle_maxParticles.
  - apply update_maxParticles.
Qed.

End particle_facts.

(** C7.  In every state the particle system reaches, the live particles are
    at most [maxParticles]; a spawn attempt made when they are [maxParticles],
    or when every pooled mesh is visible (no idle slot), leaves the system as
    it is; and the bound holds again after a spawn and after an update. *)
Theorem particle_count_bounded (maxParticles0 : nat) (ops : list ParticleOp) :
  let s := foldl applyParticleOp (newLinkParticleSystem maxParticles0) ops in
  (length (particles s) ≤ maxParticles s)%nat
  ∧ (∀ nodeHeap link0 rnd,
       length (particles s) = maxParticles s → spawnParticle nodeHeap link0 rnd s = s)
  ∧ (∀ nodeHeap link0 rnd,
       (∀ r, r ∈ particlePool s → visible (meshes s !!! r) = true) →
       spawnParticle nodeHeap link0 rnd s = s)
  ∧ (∀ nodeHeap link0 rnd,
       let s' := spawnParticle nodeHeap link0 rnd s in
       (length (particles s') ≤ maxParticles s')%nat)
  ∧ (∀ nodeHeap deltaTime currentTime links0 shuffledLinks,
       let s' := (update nodeHeap deltaTime currentTime links0 shuffledLinks s).1 in
       (length (particles s') ≤ maxParticles s')%nat).
Proof.
  intros s.
  assert (length (particles s) ≤ maxParticles s)%nat as Hs.
  { apply run_bound. rewrite newLinkParticleSystem_bound. simpl. lia. }
  split; [done|]. split; [|split; [|split]].
  - intros nodeHeap link0 rnd Heq. apply spawnParticle_full. lia.
  - intros nodeHeap link0 rnd. apply spawnParticle_no_slot.
  - intros nodeHeap link0 rnd. by apply (applyParticleOp_bound s (PSpawn nodeHeap link0 rnd)).
  - intros nodeHeap deltaTime currentTime links0 shuffledLinks.
    by apply (applyParticleOp_bound s
                (PUpdate nodeHeap deltaTime currentTime links0 shuffledLinks)).
Qed.

Section particle_wf.

Implicit Types (s : LinkParticleSystem) (ms : gmap ParticleRef ParticleMesh).

Lemma particlesWf_same_dom s s' :
  particlePool s' = particlePool s → nextMesh s' = nextMesh s →
  (∀ r, is_Some (meshes s' !! r) ↔ is_Some (meshes s !! r)) →
  particlesWf s → particlesWf s'.
Proof.
  intros Hp Hn Hd [H1 H2]. split.
  - intros r. rewrite Hp, Hd. apply H1.
  - intros r. rewrite Hn, Hd. apply H2.
Qed.

Lemma advanceParticle_is_Some nodeHeap deltaTime currentTime
    (l : list (nat * Particle)) ms r :
  is_Some ((foldr (advanceParticle nodeHeap deltaTime currentTime) (ms, []) l).1 !! r)
  ↔ is_Some (ms !! r).
Proof.
  induction l as [|[i particle] l IH]; simpl; [done|].
  destruct (foldr _ _ l) as [ms' kept]. simpl in *.
  destruct (_ || _); simpl; by rewrite lookup_alter_is_Some.
Qed.

Lemma particlesWf_dispose s : particlesWf s → particlesWf (dispose s).
Proof.
  intros [H1 H2]. split; simpl.
  - intros r Hr. by apply elem_of_nil in Hr.
  - intros r. rewrite !foldl_alter_is_Some. apply H2.
Qed.

Lemma particlesWf_initializeParticlePool s :
  particlesWf s → particlesWf (initializeParticlePool s).
Proof.
  intros Hwf. apply particlesWf_dispose in Hwf as [H1 H2].
  unfold initializeParticlePool.
  destruct (iter_allocateSlot (maxParticles s) (dispose s))
    as (Hn & Hp & _ & _ & _ & Hold & Hnew & Hdom).
  split.
  - intros r. rewrite Hp. intros Hr. apply elem_of_app in Hr as [Hr|Hr].
    + rewrite Hold; [by apply H1|]. by apply H2, H1.
    + rewrite Hnew by done. by eexists.
  - intros r Hr. rewrite Hn. destruct (Hdom r Hr) as [Hr'|Hr'].
    + apply H2 in Hr'. lia.
    + apply elem_of_seq in Hr'. lia.
Qed.

Lemma particlesWf_applyParticleOp s op :
  particlesWf s → particlesWf (applyParticleOp s op).
Proof.
  intros Hwf. destruct op; simpl.
  - unfold spawnParticle. destruct (bool_decide _); [done|].
    destruct (find _ _); [|done].
    eapply particlesWf_same_dom; [| | |exact Hwf]; simpl; [done|done|].
    intros r. by rewrite lookup_alter_is_Some.
  - eapply particlesWf_same_dom; [| | |exact Hwf]; unfold update.
    + by destruct (foldr _ _ _).
    + by destruct (foldr _ _ _).
    + intros r.
      pose proof (advanceParticle_is_Some nodeHeap deltaTime currentTime
                    (imap (λ i particle, (i, particle)) (particles s)) (meshes s) r) as H.
      by destruct (foldr _ _ _).
  - by destruct Hwf.
  - by destruct Hwf.
  - apply particlesWf_initializeParticlePool. by destruct Hwf.
  - eapply particlesWf_same_dom; [| | |exact Hwf]; simpl; [done|done|].
    intros r. apply foldl_alter_is_Some.
  - by apply particlesWf_dispose.
Qed.

Lemma particlesWf_reachable maxParticles0 (ops : list ParticleOp) :
  particlesWf (foldl applyParticleOp (newLinkParticleSystem maxParticles0) ops).
Proof.
  induction ops as [|op ops IH] using rev_ind.
  - apply particlesWf_initializeParticlePool. split; simpl.
    + intros r Hr. by apply elem_of_nil in Hr.
    + intros r [m Hm]. by rewrite lookup_empty in Hm.
  - rewrite foldl_app. by apply particlesWf_applyParticleOp.
Qed.

End particle_wf.

(** C8.  In whatever state it is called, [setMaxParticles n] empties the list
    of live particles and rebuilds the pool: every slot of the old pool is
    taken off the scene and disposed and is no slot of the new pool, which
    consists of [n] meshes that did not exist before, invisible and on the
    scene.  The live count is 0 right after, and stays within [n] under any
    further spawns and updates. *)
Theorem setMaxParticles_rebuilds_pool (maxParticles0 : nat) (ops : list ParticleOp)
    (n : nat) :
  let s := foldl applyParticleOp (newLinkParticleSystem maxParticles0) ops in
  let s' := setMaxParticles n s in
  particles s' = []
  ∧ maxParticles s' = n
  ∧ particlePool s' = seq (nextMesh s) n
  ∧ (∀ r, r ∈ particlePool s →
       (r ∉ particlePool s') ∧ (r ∉ sceneMeshes s') ∧ disposed (meshes s' !!! r) = true)
  ∧ (∀ r, r ∈ particlePool s' →
       meshes s !! r = None
       ∧ r ∈ sceneMeshes s'
       ∧ meshes s' !! r
         = Some (mkParticleMesh false Vector3.zero (Vector3.setScalar 1) false))
  ∧ (∀ hot, forallb hotPath hot = true →
       (length (particles (foldl applyParticleOp s' hot)) ≤ n)%nat).
Proof.
  intros s s'.
  pose proof (particlesWf_reachable maxParticles0 ops) as [Hpool Hbelow]. fold s in Hpool, Hbelow.
  set (s0 := mkParticleSystem (meshes s) (nextMesh s) (sceneMeshes s) (particles s)
               (particlePool s) n (spawnRate s) (lastSpawn s) (particlesDelay s)).
  destruct (iter_allocateSlot n (dispose s0))
    as (Hn & Hp & Hl & Hm & Hs & Hold & Hnew & Hdom).
  change (Nat.iter n allocateSlot (dispose s0)) with s' in *.
  change (nextMesh (dispose s0)) with (nextMesh s) in *.
  change (particlePool (dispose s0)) with (@nil ParticleRef) in *.
  change (particles (dispose s0)) with (@nil Particle) in *.
  change (maxParticles (dispose s0)) with n in *.
  split; [done|]. split; [done|]. split; [done|]. split; [|split].
  - intros r Hr. pose proof (Hbelow r (Hpool r Hr)) as Hlt.
    assert (r ∉ seq (nextMesh s) n) as Hnot by (rewrite elem_of_seq; lia).
    split; [by rewrite Hp|]. split.
    + rewrite Hs. intros [Hx|Hx]; [done|].
      simpl in Hx. apply scene_remove_all in Hx as [_ Hx]. done.
    + rewrite lookup_total_alt, Hold, <-lookup_total_alt by done. simpl.
      apply dispose_all; [|by left].
      apply foldl_alter_is_Some. by apply Hpool.
  - intros r. rewrite Hp. simpl. intros Hr. split; [|split].
    + destruct (meshes s !! r) as [m|] eqn:Hmr; [|done].
      assert (r < nextMesh s)%nat by (apply Hbelow; by eexists).
      apply elem_of_seq in Hr. lia.
    + apply Hs. by left.
    + by apply Hnew.
  - intros hot Hhot.
    pose proof (run_bound s' hot) as Hb.
    rewrite (hotPath_maxParticles s' hot Hhot), Hl, Hm in Hb. apply Hb. simpl. lia.
Qed.

(** The scenario of the specification, scaled down: with a pool of 5 and 3
    particles in flight, [setMaxParticles 1] leaves none. *)
Example setMaxParticles_discards_in_flight :
  let l := mkParticleLink 0 1 in
  let s := foldl applyParticleOp (newLinkParticleSystem 5)
             [PSpawn ∅ l 0; PSpawn ∅ l 0; PSpawn ∅ l 0] in
  length (particles s) = 3%nat ∧ length (particles (setMaxParticles 1 s)) = 0%nat
  ∧ particlePool (setMaxParticles 1 s) = [5%nat].
Proof. repeat split; reflexivity. Qed.

(** * Properties of the identity resolver *)

Example folderNameOf_examples :
  folderNameOf "x/a.md" = "x" ∧ folderNameOf "a.md" = "root"
  ∧ folderNameOf "p/q/a.md" = "q" ∧ folderNameOf "/a.md" = "root".
Proof. repeat split; reflexivity. Qed.

(** C2, at the failing input.  Three notes: ["x/a.md"] and ["y/a.md"], both
    named ["a"], and ["a (y).md"], named ["a (y)"].  The second gets the id
    ["a (y)"]; the third is the first of its name and gets its name, the
    same id, without a look at the ids taken: two live paths share one id,
    and the reverse map keeps only the last of them. *)
Lemma generateUniqueNodeId_collision :
  let r1 := generateUniqueNodeId "a" "x/a.md" newGraphView in
  let r2 := generateUniqueNodeId "a" "y/a.md" r1.2 in
  let r3 := generateUniqueNodeId "a (y)" "a (y).md" r2.2 in
  r1.1 = "a" ∧ r2.1 = "a (y)" ∧ r3.1 = "a (y)"
  ∧ pathToUniqueId r3.2 !! "y/a.md" = Some "a (y)"
  ∧ pathToUniqueId r3.2 !! "a (y).md" = Some "a (y)"
  ∧ uniqueIdToPath r3.2 !! "a (y)" = Some "a (y).md".
Proof. repeat split; reflexivity. Qed.

Section resolver_facts.

Implicit Types (v : GraphView) (taken : gmap string string).

Lemma string_app_inv_head (s a b : string) : s +:+ a = s +:+ b → a = b.
Proof. induction s as [|c s IH]; simpl; [done|]. intros [= H]. by apply IH. Qed.

Lemma string_app_length (a b : string) :
  String.length (a +:+ b) = (String.length a + String.length b)%nat.
Proof. induction a as [|c a IH]; simpl; [done|]. by rewrite IH. Qed.

Lemma candidate_inj (uniqueId : string) : Inj (=) (=) (candidate uniqueId).
Proof.
  intros [|i] [|j] H; simpl in H; [done| | |].
  - apply (f_equal String.length) in H. rewrite string_app_length in H.
    simpl in H. lia.
  - apply (f_equal String.length) in H. rewrite string_app_length in H.
    simpl in H. lia.
  - do 2 apply string_app_inv_head in H. by apply (inj pretty) in H.
Qed.

Lemma candidates_bounded taken (uniqueId : string) (j : nat) :
  (∀ i, (i < j)%nat → is_Some (taken !! candidate uniqueId i)) → (j ≤ size taken)%nat.
Proof.
  intros H.
  assert (NoDup (candidate uniqueId <$> seq 0 j)) as Hnd.
  { apply NoDup_fmap_2; [apply candidate_inj|apply NoDup_seq]. }
  assert (size (list_to_set (C := gset string) (candidate uniqueId <$> seq 0 j)) = j)
    as Hsz.
  { rewrite size_list_to_set by done. by rewrite length_fmap, length_seq. }
  rewrite <-Hsz, <-size_dom. apply subseteq_size.
  intros x Hx. apply elem_of_list_to_set, list_elem_of_fmap in Hx as (i & -> & Hi).
  apply elem_of_dom, H. apply elem_of_seq in Hi. lia.
Qed.

(** The loop ends within its fuel, on an id that is not taken. *)
Lemma findFreeId_spec taken (uniqueId : string) (fuel j : nat) :
  (∀ i, (i < j)%nat → is_Some (taken !! candidate uniqueId i)) →
  (j + fuel = S (size taken))%nat →
  ∃ k, findFreeId fuel taken uniqueId (candidate uniqueId j) (S j) = candidate uniqueId k
       ∧ taken !! candidate uniqueId k = None
       ∧ ∀ i, (i < k)%nat → is_Some (taken !! candidate uniqueId i).
Proof.
  revert j. induction fuel as [|fuel IH]; intros j Hj Hfuel.
  - apply candidates_bounded in Hj. lia.
  - simpl. case_bool_decide as Htaken.
    + apply (IH (S j)); [|lia].
      intros i Hi. destruct (decide (i = j)) as [->|]; [done|]. apply Hj. lia.
    + exists j. split; [done|]. split; [|done].
      by apply eq_None_not_Some.
Qed.

Lemma findFreeId_free taken (uniqueId : string) :
  taken !! findFreeId (S (size taken)) taken uniqueId uniqueId 1 = None.
Proof.
  destruct (findFreeId_spec taken uniqueId (S (size taken)) 0) as (k & Hk & Hfree & _);
    [intros i Hi; lia|lia|].
  simpl in Hk. simpl. by rewrite Hk.
Qed.

End resolver_facts.

(** X3.  Resolving a path again returns the id it got, whatever name is
    passed, and changes nothing. *)
Theorem generateUniqueNodeId_idempotent (basename basename' path : string) (v : GraphView) :
  let r := generateUniqueNodeId basename path v in
  generateUniqueNodeId basename' path r.2 = r.
Proof.
  cbv zeta. destruct (generateUniqueNodeId basename path v) as [uniqueId v'] eqn:Hr.
  cbn [snd]. unfold generateUniqueNodeId in *.
  destruct (pathToUniqueId v !! path) as [uniqueId0|] eqn:Hpath.
  - injection Hr as <- <-. by rewrite Hpath.
  - injection Hr as <- <-. simpl. by rewrite lookup_insert_eq.
Qed.

(** X4.  The first note of a name gets the name itself; a later one gets the name
    with its parent folder in parentheses, or that id followed by the first
    of the numbers 1, 2, ... for which the result is not taken; in either of
    the later cases the id is not among the ids taken. *)
Theorem generateUniqueNodeId_shape (basename path : string) (v : GraphView) :
  pathToUniqueId v !! path = None →
  let count := default 0%nat (nodeNameCounter v !! basename) in
  let uniqueId := (generateUniqueNodeId basename path v).1 in
  (count = 0%nat → uniqueId = basename)
  ∧ (count ≠ 0%nat →
       ∃ k, uniqueId = candidate (basename +:+ " (" +:+ folderNameOf path +:+ ")") k
            ∧ uniqueIdToPath v !! uniqueId = None
            ∧ ∀ i, (i < k)%nat →
                is_Some (uniqueIdToPath v
                           !! candidate (basename +:+ " (" +:+ folderNameOf path +:+ ")") i)).
Proof.
  intros Hpath count uniqueId. subst uniqueId. unfold generateUniqueNodeId.
  rewrite Hpath. fold count. cbn [fst]. split; intros Hc.
  - by rewrite bool_decide_eq_true_2.
  - rewrite bool_decide_eq_false_2 by done.
    destruct (findFreeId_spec (uniqueIdToPath v)
                (basename +:+ " (" +:+ folderNameOf path +:+ ")")
                (S (size (uniqueIdToPath v))) 0) as (k & Hk & Hfree & Hbefore);
      [intros i Hi; lia|lia|].
    exists k. change (candidate ?u 0) with u in Hk. rewrite Hk. done.
Qed.

Lemma generateUniqueNodeId_shape_witness :
  let v := (generateUniqueNodeId "a" "x/a.md" newGraphView).2 in
  pathToUniqueId v !! "y/a.md" = None
  ∧ (generateUniqueNodeId "a" "y/a.md" v).1 = "a (y)".
Proof.
  split; [reflexivity|].
  destruct (generateUniqueNodeId_shape "a" "y/a.md"
              (generateUniqueNodeId "a" "x/a.md" newGraphView).2 eq_refl) as [_ H].
  reflexivity.
Defined.

(** * Further properties of a tick *)

Section tick_more.

Implicit Types (g : GravityGraph) (vis : gset string).

Local Arguments updateLabel : simpl never.
Local Arguments updateScale : simpl never.
Local Arguments updateColor : simpl never.
Local Arguments updatePosition : simpl never.

Lemma length_zero : Vector3.length Vector3.zero = 0.
Proof.
  unfold Vector3.length, Vector3.lengthSq, Vector3.zero. simpl.
  replace (0 * 0 + 0 * 0 + 0 * 0) with 0 by ring. apply sqrt_0.
Qed.

(** The speed limit of [integrate]. *)
Lemma integrate_bound g (velocity0 force0 v : Vector3) :
  0 <= maxSpeed g → integrate g velocity0 force0 = Some v →
  Vector3.length v <= maxSpeed g.
Proof.
  intros Hmax H. unfold integrate in H.
  apply bind_Some in H as (v1 & _ & H).
  destruct (Rgtb (Vector3.length v1) (maxSpeed g)) eqn:Hc.
  - apply Rgtb_true in Hc.
    rewrite normalize_nonzero in H by lra.
    apply (inj Some) in H as <-.
    rewrite !length_multiplyScalar.
    rewrite (Rabs_right (maxSpeed g)) by lra.
    rewrite (Rabs_right (1 / Vector3.length v1))
      by (apply Rle_ge, Rlt_le, Rdiv_lt_0_compat; lra).
    right. field. lra.
  - apply Rgtb_false in Hc. by apply (inj Some) in H as <-.
Qed.

(** One tick, for an active node. *)
Lemma tick_active camera g uniqueId node :
  wf g → nodes g !! uniqueId = Some node → uniqueId ∉ frozenNodes g →
  ∃ g1 g' v,
    calculateForces g = Some g1
    ∧ tick camera g = Some g'
    ∧ integrate g (velocity (deref (heap g) node)) (force (deref (heap g1) node)) = Some v
    ∧ (velocity (deref (heap g') node) = v ∨ velocity (deref (heap g') node) = Vector3.zero)
    ∧ position (deref (heap g') node)
      = Vector3.add (position (deref (heap g) node)) (velocity (deref (heap g') node)).
Proof.
  intros Hwf Hnode Hact.
  destruct (calculateForces_total g) as [g1 Hg1].
  destruct (calculateForces_frame _ _ Hg1) as [Hsame Heq].
  pose proof (wf_calculateForces _ _ Hg1 Hwf) as Hwf1.
  assert (nodes g1 !! uniqueId = Some node ∧ frozenNodes g1 = frozenNodes g
          ∧ config g1 = config g) as (Hnode1 & Hfz1 & Hc1).
  { rewrite Heq. by repeat split. }
  destruct (updateAllNodes_node camera g1 uniqueId node Hwf1 Hnode1)
    as (g' & stn & Hg' & Hstn & Hheap & _).
  destruct (wf_heap g1 Hwf1 _ _ Hnode1) as [m Hm].
  destruct (updateNode_spec _ _ _ _ _ _ _ _ Hm Hstn)
    as (gp & mp & mn & Hp & Hmp & Hmn & _ & Hpos & Hvel & _).
  destruct (updatePosition_spec _ _ _ _ _ Hm Hp) as (mp' & Hmp' & _ & Hactive).
  assert (mp' = mp) as -> by congruence.
  rewrite <-Hfz1 in Hact. destruct (Hactive Hact) as (v & Hv & Hon & Hoff).
  destruct (sameButForces_deref _ _ node Hsame) as [Hpos1 Hvel1].
  rewrite (deref_lookup _ _ _ Hm) in Hpos1, Hvel1.
  rewrite (integrate_config g1 g) in Hv by done.
  exists g1, g', v. split; [done|]. split; [unfold tick; by rewrite Hg1|].
  rewrite (deref_lookup _ _ _ Hm), <-Hvel1. split; [done|].
  rewrite Hmn in Hheap. rewrite (deref_lookup _ _ _ Hheap), Hpos, Hvel, <-Hpos1.
  destruct (freeze g1) eqn:Hfr.
  - destruct (Hon eq_refl) as (_ & Hstop & Hmove).
    destruct (decide (uniqueId ∈ frozenNodes gp)) as [Hin|Hout].
    + destruct (Hstop Hin) as (-> & _ & ->). by split; [right|].
    + destruct (Hmove Hout) as (-> & _ & ->). by split; [left|].
  - destruct (Hoff eq_refl) as (_ & _ & Hv' & ->). split; [|done].
    rewrite Hv'. destruct (Rltb _ _); [by right|by left].
Qed.

(** X7.  The speed limit: after a tick an active node moves by its new
    velocity, and that velocity is no longer than [maxSpeed]. *)
Theorem tick_speed_limit (camera : option (Vector3 → bool)) (g : GravityGraph)
    (uniqueId : string) (node : MeshRef) :
  wf g → 0 <= maxSpeed g → nodes g !! uniqueId = Some node →
  uniqueId ∉ frozenNodes g →
  ∃ g', tick camera g = Some g'
    ∧ let m := deref (heap g) node in
      let m' := deref (heap g') node in
      Vector3.length (velocity m') <= maxSpeed g
      ∧ position m' = Vector3.add (position m) (velocity m').
Proof.
  intros Hwf Hmax Hnode Hact.
  destruct (tick_active camera g uniqueId node Hwf Hnode Hact)
    as (g1 & g' & v & _ & Hg' & Hv & Hvel & Hpos).
  exists g'. split; [done|]. cbv zeta. split; [|done].
  destruct Hvel as [-> | ->].
  - by eapply integrate_bound.
  - by rewrite length_zero.
Qed.

Lemma wf_graphSpread : wf graphSpread.
Proof.
  unfold graphSpread. cbv zeta.
  repeat (apply wf_addLink || apply wf_with_heap_alter || apply wf_addNode).
  apply wf_new.
Qed.

Lemma tick_speed_limit_witness :
  velocity (deref (heap graphSpread) 0%nat) = Vector3.mk 3 4 0
  ∧ maxSpeed graphSpread = 2
  ∧ ∃ g', tick None graphSpread = Some g'
      ∧ Vector3.length (velocity (deref (heap g') 0%nat)) <= 2
      ∧ position (deref (heap g') 0%nat)
        = Vector3.add (Vector3.mk 3 0 0) (velocity (deref (heap g') 0%nat)).
Proof.
  split; [reflexivity|]. split; [reflexivity|].
  destruct (tick_speed_limit None graphSpread "A" 0%nat wf_graphSpread)
    as (g' & Hg' & Hv & Hp).
  - change (0 <= 2). lra.
  - reflexivity.
  - apply not_elem_of_empty.
  - exists g'. split; [done|]. split; [exact Hv|exact Hp].
Defined.

(** X8.  A tick adds and removes no node and no link, and leaves every
    link line drawn between the positions its two endpoints have after the
    tick. *)
Theorem tick_links_follow_nodes (camera : option (Vector3 → bool)) (g : GravityGraph) :
  ∃ g', tick camera g = Some g'
    ∧ nodes g' = nodes g
    ∧ (λ l, (from l, to l)) <$> links g' = (λ l, (from l, to l)) <$> links g
    ∧ ∀ l, l ∈ links g' →
        line l = (position (deref (heap g') (from l)),
                  position (deref (heap g') (to l))).
Proof.
  destruct (calculateForces_total g) as [g1 Hg1].
  destruct (calculateForces_frame _ _ Hg1) as [_ Heq].
  assert (nodes g1 = nodes g ∧ links g1 = links g) as [Hn1 Hl1].
  { rewrite Heq. by split. }
  unfold tick. rewrite Hg1. cbn [mbind option_bind]. unfold updateAllNodes.
  destruct (foldM_total (updateNode (nodeConnectionCounts g1) camera)
              (map_to_list (nodes g1)) (updateNode_total _ _) (g1, ∅))
    as [[gl visl] Hfold].
  rewrite Hfold. cbn [mbind option_bind].
  destruct (foldM_updateNode_static _ _ _ _ _ Hfold) as (Hn & Hl & _).
  cbn [fst] in Hn, Hl.
  eexists. split; [reflexivity|]. cbn [nodes with_links with_labels links heap].
  split; [congruence|]. split.
  - rewrite Hl, Hl1, <-list_fmap_compose. by apply list_fmap_ext.
  - intros l Hin. apply list_elem_of_fmap in Hin as (l0 & -> & _). done.
Qed.

(** The whole loop, seen from one node: the mesh, the frozen flag and the
    pulse data are as the body alone leaves them. *)
Lemma updateAllNodes_view camera g uniqueId node :
  wf g → nodes g !! uniqueId = Some node →
  ∃ g' stn,
    updateAllNodes camera g = Some g'
    ∧ updateNode (nodeConnectionCounts g) camera (g, ∅) (uniqueId, node) = Some stn
    ∧ nodeView uniqueId node g' = nodeView uniqueId node stn.1.
Proof.
  intros Hwf Hnode. unfold updateAllNodes.
  destruct (foldM_total (updateNode (nodeConnectionCounts g) camera)
              (map_to_list (nodes g)) (updateNode_total _ _) (g, ∅))
    as [[g1 vis1] Hfold].
  rewrite Hfold. cbn [mbind option_bind].
  assert (NoDup (map_to_list (nodes g)).*2) as Hnd2.
  { apply NoDup_fmap_2_strong; [|apply NoDup_map_to_list].
    intros [id1 r1] [id2 r2] H1 H2 Heq. simpl in Heq. subst r2.
    apply elem_of_map_to_list in H1, H2.
    by rewrite (wf_inj g Hwf id1 id2 r1 H1 H2). }
  assert ((uniqueId, node) ∈ map_to_list (nodes g)) as Hin
    by (by apply elem_of_map_to_list).
  destruct (foldM_updateNode_node _ _ uniqueId node _ _ _ _
              (NoDup_fst_map_to_list _) Hnd2 Hin Hfold)
    as (stn & Hstn & Hv & _).
  eexists _, stn. split; [done|]. split; [done|]. by rewrite <-Hv.
Qed.

Lemma updatePosition_pulse uniqueId node g gp :
  updatePosition uniqueId node g = Some gp → colorPulseData gp = colorPulseData g.
Proof.
  unfold updatePosition. destruct (negb _).
  - destruct (integrate _ _ _) as [v|]; [|done].
    change (Some v ≫= ?f) with (f v). cbv beta.
    destruct (freeze g); [destruct (_ && _)|];
      intros H1; apply (inj Some) in H1; by subst gp.
  - destruct (Rgtb _ _); intros H1; apply (inj Some) in H1; by subst gp.
Qed.

(** What the body does to the glow of its own node. *)
Lemma updateNode_pulse counts camera g vis uniqueId node stn m d :
  heap g !! node = Some m → colorPulseData g !! uniqueId = Some d →
  updateNode counts camera (g, vis) (uniqueId, node) = Some stn →
  let phase' := phase d + speed d * (16 / 1000) in
  colorPulseData stn.1 !! uniqueId
  = Some (mkPulse phase' (speed d) (baseColor d) (pulseColor d)
                  (emissiveStrenghtMultiplier d))
  ∧ emissiveIntensity (deref (heap stn.1) node)
    = (sin phase' + 1) * (5 / 10) * emissiveStrenghtMultiplier d.
Proof.
  intros Hm Hd Hst phase'. unfold updateNode in Hst.
  apply bind_Some in Hst as (gp & Hp & Hst). apply (inj Some) in Hst. subst stn.
  cbn [fst] in Hp.
  destruct (updatePosition_spec _ _ _ _ _ Hm Hp) as (mp & Hmp & _).
  pose proof (updatePosition_pulse _ _ _ _ Hp) as Hpd. rewrite <-Hpd in Hd.
  set (gc := updateColor uniqueId node gp).
  assert (colorPulseData gc !! uniqueId
          = Some (mkPulse phase' (speed d) (baseColor d) (pulseColor d)
                          (emissiveStrenghtMultiplier d))
          ∧ heap gc !! node
            = Some (set_emissiveIntensity
                      ((sin phase' + 1) * (5 / 10) * emissiveStrenghtMultiplier d) mp))
    as [Hc1 Hc2].
  { unfold gc, updateColor. rewrite Hd. simpl.
    by rewrite lookup_insert_eq, lookup_alter_eq, Hmp. }
  set (gs := updateScale counts uniqueId node gc).
  assert (colorPulseData gs = colorPulseData gc
          ∧ emissiveIntensity (deref (heap gs) node)
            = (sin phase' + 1) * (5 / 10) * emissiveStrenghtMultiplier d) as [Hs1 Hs2].
  { unfold gs, updateScale. simpl. split; [done|].
    by rewrite (deref_alter_eq _ _ _ _ Hc2). }
  assert (heap (updateLabel camera uniqueId node (gs, vis)).1 = heap gs
          ∧ colorPulseData (updateLabel camera uniqueId node (gs, vis)).1
            = colorPulseData gs) as [Hl1 Hl2].
  { unfold updateLabel. destruct camera as [shouldBeVisible|]; [|done].
    destruct (shouldBeVisible _); [|done]. cbn [fst].
    by destruct (labels gs !! uniqueId). }
  cbn [snd]. rewrite Hl1, Hl2. split; [congruence|done].
Qed.

(** X9.  The glow of a node: a tick advances the phase of its pulse by
    0.016 times its speed, keeps the rest of the pulse data, and sets the
    emissive intensity of the mesh to [(sin phase + 1) / 2] times the glow
    multiplier, a value between 0 and that multiplier. *)
Theorem tick_pulse (camera : option (Vector3 → bool)) (g : GravityGraph)
    (uniqueId : string) (node : MeshRef) (d : PulseData) :
  wf g → nodes g !! uniqueId = Some node → colorPulseData g !! uniqueId = Some d →
  ∃ g' d',
    tick camera g = Some g'
    ∧ colorPulseData g' !! uniqueId = Some d'
    ∧ phase d' = phase d + speed d * (16 / 1000)
    ∧ speed d' = speed d ∧ baseColor d' = baseColor d ∧ pulseColor d' = pulseColor d
    ∧ emissiveStrenghtMultiplier d' = emissiveStrenghtMultiplier d
    ∧ emissiveIntensity (deref (heap g') node)
      = (sin (phase d') + 1) * (5 / 10) * emissiveStrenghtMultiplier d
    ∧ (0 <= emissiveStrenghtMultiplier d →
         0 <= emissiveIntensity (deref (heap g') node) <= emissiveStrenghtMultiplier d).
Proof.
  intros Hwf Hnode Hd.
  destruct (calculateForces_total g) as [g1 Hg1].
  destruct (calculateForces_frame _ _ Hg1) as [_ Heq].
  pose proof (wf_calculateForces _ _ Hg1 Hwf) as Hwf1.
  assert (nodes g1 !! uniqueId = Some node
          ∧ colorPulseData g1 !! uniqueId = Some d) as (Hnode1 & Hd1).
  { rewrite Heq. by split. }
  destruct (updateAllNodes_view camera g1 uniqueId node Hwf1 Hnode1)
    as (g' & stn & Hg' & Hstn & Hview).
  destruct (wf_heap g1 Hwf1 _ _ Hnode1) as [m Hm].
  destruct (updateNode_pulse _ _ _ _ _ _ _ _ _ Hm Hd1 Hstn) as [Hpd Hem].
  pose proof (nodeView_deref _ _ _ _ Hview) as Hderef.
  unfold nodeView in Hview. injection Hview as _ _ Hpulse.
  eexists g', _. split; [unfold tick; by rewrite Hg1|].
  split; [by rewrite Hpulse, Hpd|]. cbn [phase speed baseColor pulseColor
                                          emissiveStrenghtMultiplier].
  do 5 (split; [done|]). rewrite Hderef, Hem. split; [done|].
  intros Hmult.
  pose proof (SIN_bound (phase d + speed d * (16 / 1000))) as [Hlo Hhi].
  split; nra.
Qed.

Lemma tick_pulse_witness :
  ∃ g' d', tick None graphABC = Some g' ∧ colorPulseData g' !! "B" = Some d'
    ∧ phase d' = 0 * PI * 2 + (5 / 10 + 0 * (15 / 10)) * (16 / 1000).
Proof.
  destruct (tick_pulse None graphABC "B" 1%nat
              {| phase := 0 * PI * 2; speed := 5 / 10 + 0 * (15 / 10);
                 baseColor := white;
                 pulseColor := colorMultiplyScalar white
                                 (calculateBrightnessMultiplier white);
                 emissiveStrenghtMultiplier := calculateBrightnessMultiplier white |}
              wf_graphABC eq_refl eq_refl)
    as (g' & d' & Hg' & Hd' & Hphase & _).
  by exists g', d'.
Defined.

(** X10.  The glow multiplier of a colour with non-negative channels lies
    between 0 and 10; it is 0 for every colour whose brightness is 0.85 or
    more (white among them), and 10 for black. *)
Theorem glow_multiplier_range (c : Color) :
  0 <= red c → 0 <= green c → 0 <= blue c →
  let brightness := red c * (299 / 1000) + green c * (587 / 1000)
                    + blue c * (114 / 1000) in
  0 <= calculateBrightnessMultiplier c <= 10
  ∧ (85 / 100 <= brightness → calculateBrightnessMultiplier c = 0)
  ∧ (brightness = 0 → calculateBrightnessMultiplier c = 10).
Proof.
  intros Hr Hg Hb brightness. unfold calculateBrightnessMultiplier. fold brightness.
  assert (0 <= brightness) as Hbr by (unfold brightness; lra).
  unfold Rmax. destruct (Rle_dec 0 (85 / 100 - brightness)) as [Hle|Hgt].
  - set (q := (85 / 100 - brightness) / (85 / 100)).
    assert (0 <= q <= 1) as [Hq0 Hq1].
    { unfold q. split.
      - apply Rmult_le_pos; lra.
      - apply Rmult_le_reg_r with (85 / 100); [lra|].
        unfold Rdiv at 1. rewrite Rmult_assoc, Rinv_l by lra. lra. }
    split; [simpl; nra|]. split.
    + intros Hbright. assert (q = 0) as -> by (unfold q; replace brightness with (85/100) by lra; lra).
      simpl. lra.
    + intros Hzero. assert (q = 1) as ->.
      { unfold q. rewrite Hzero. field. }
      simpl. lra.
  - replace (0 / (85 / 100)) with 0 by lra. simpl.
    split; [lra|]. split; [intros _; lra|]. intros Hzero. lra.
Qed.

Lemma glow_multiplier_range_witness :
  0 <= calculateBrightnessMultiplier white <= 10
  ∧ calculateBrightnessMultiplier white = 0.
Proof.
  destruct (glow_multiplier_range white) as (Hrange & Hbright & _);
    [simpl; lra|simpl; lra|simpl; lra|].
  split; [done|]. apply Hbright. simpl. lra.
Defined.

(** **** Labels *)

Lemma updatePosition_labels uniqueId node g gp :
  updatePosition uniqueId node g = Some gp → labels gp = labels g.
Proof.
  unfold updatePosition. destruct (negb _).
  - destruct (integrate _ _ _) as [v|]; [|done].
    change (Some v ≫= ?f) with (f v). cbv beta.
    destruct (freeze g); [destruct (_ && _)|];
      intros H1; apply (inj Some) in H1; by subst gp.
  - destruct (Rgtb _ _); intros H1; apply (inj Some) in H1; by subst gp.
Qed.

(** What the body does to the labels, with a camera. *)
Lemma updateNode_labels counts (shouldBeVisible : Vector3 → bool) g vis uniqueId node stn :
  updateNode counts (Some shouldBeVisible) (g, vis) (uniqueId, node) = Some stn →
  let seen := shouldBeVisible (position (deref (heap stn.1) node)) in
  stn.2 = (if seen then {[uniqueId]} ∪ vis else vis)
  ∧ (seen = true → is_Some (labels stn.1 !! uniqueId))
  ∧ (∀ id text, labels g !! id = Some text → labels stn.1 !! id = Some text).
Proof.
  intros Hst. unfold updateNode in Hst.
  apply bind_Some in Hst as (gp & Hp & Hst). apply (inj Some) in Hst. subst stn.
  cbn [fst snd] in *.
  pose proof (updatePosition_labels _ _ _ _ Hp) as Hlp.
  set (gs := updateScale counts uniqueId node (updateColor uniqueId node gp)).
  assert (labels gs = labels g) as Hls.
  { unfold gs, updateScale, updateColor.
    by destruct (colorPulseData gp !! uniqueId). }
  unfold updateLabel.
  destruct (shouldBeVisible (position (deref (heap gs) node))) eqn:Hseen.
  - destruct (labels gs !! uniqueId) as [text0|] eqn:Hl; cbn [fst snd heap with_labels].
    + rewrite Hseen. split; [done|]. split; [by rewrite Hl|].
      intros id text. by rewrite Hls.
    + rewrite Hseen. split; [done|]. cbn [labels with_labels].
      split; [by rewrite lookup_insert_eq|].
      intros id text Hid. rewrite lookup_insert_ne; [by rewrite Hls|].
      intros <-. rewrite Hls in Hl. congruence.
  - cbn [fst snd]. rewrite Hseen. split; [done|]. split; [done|].
    intros id text. by rewrite Hls.
Qed.

Lemma foldM_updateNode_labels counts (shouldBeVisible : Vector3 → bool) l g vis g' vis' :
  NoDup l.*1 → NoDup l.*2 →
  foldM (updateNode counts (Some shouldBeVisible)) (g, vis) l = Some (g', vis') →
  (∀ id, id ∈ vis'
         ↔ id ∈ vis ∨ ∃ node, (id, node) ∈ l
                       ∧ shouldBeVisible (position (deref (heap g') node)) = true)
  ∧ (∀ id, id ∈ vis' → id ∈ vis ∨ is_Some (labels g' !! id))
  ∧ (∀ id text, labels g !! id = Some text → labels g' !! id = Some text).
Proof.
  revert g vis. induction l as [|[id0 node0] l IH]; intros g vis Hd1 Hd2 Hfold.
  - apply (inj Some) in Hfold. injection Hfold as <- <-.
    split; [|split; [by left|done]].
    intros id. split; [by left|]. intros [H|(node & H & _)]; [done|].
    by apply elem_of_nil in H.
  - rewrite fmap_cons in Hd1. rewrite fmap_cons in Hd2. simpl in Hd1, Hd2.
    apply NoDup_cons in Hd1 as [Hn1 Hd1], Hd2 as [Hn2 Hd2].
    apply bind_Some in Hfold as ([g1 vis1] & H1 & H2).
    destruct (updateNode_labels _ _ _ _ _ _ _ H1) as (Hvis1 & Hnew & Hkeep1).
    cbn [fst snd] in Hvis1, Hnew, Hkeep1.
    destruct (IH g1 vis1 Hd1 Hd2 H2) as (Hiff & Hlab & Hkeep).
    destruct (foldM_updateNode_frame _ _ id0 node0 _ _ _ Hn1 Hn2 H2) as [Hview _].
    apply nodeView_deref in Hview. cbn [fst] in Hview. rewrite <-Hview in Hvis1, Hnew.
    split; [|split].
    + intros id. rewrite Hiff. split.
      * intros [Hin|(node & Hin & Hs)].
        -- rewrite Hvis1 in Hin.
           destruct (shouldBeVisible _) eqn:Hseen; [|by left].
           apply elem_of_union in Hin as [Hin|Hin]; [|by left].
           apply elem_of_singleton in Hin as ->. right. exists node0.
           split; [apply list_elem_of_here|done].
        -- right. exists node. split; [by apply list_elem_of_further|done].
      * intros [Hin|(node & Hin & Hs)].
        -- left. rewrite Hvis1. destruct (shouldBeVisible _); [|done].
           apply elem_of_union. by right.
        -- apply elem_of_cons in Hin as [[= -> ->]|Hin].
           ++ left. rewrite Hvis1, Hs. apply elem_of_union. left.
              by apply elem_of_singleton.
           ++ right. by exists node.
    + intros id Hin. destruct (Hlab id Hin) as [Hin1|Hl]; [|by right].
      rewrite Hvis1 in Hin1.
      destruct (shouldBeVisible _) eqn:Hseen; [|by left].
      apply elem_of_union in Hin1 as [Hin1|Hin1]; [|by left].
      apply elem_of_singleton in Hin1 as ->. right.
      destruct (Hnew eq_refl) as [text Htext]. exists text. by apply Hkeep.
    + intros id text Hid. by apply Hkeep, Hkeep1.
Qed.

Lemma foldM_updateNode_labels_none counts l st st' :
  foldM (updateNode counts None) st l = Some st' → labels st'.1 = labels st.1.
Proof.
  revert st. induction l as [|[id0 node0] l IH]; intros st Hfold.
  - by apply (inj Some) in Hfold as <-.
  - apply bind_Some in Hfold as (st1 & H1 & H2).
    rewrite (IH _ H2). unfold updateNode in H1.
    apply bind_Some in H1 as (gp & Hp & H1). apply (inj Some) in H1. subst st1.
    cbn [fst]. rewrite <-(updatePosition_labels _ _ _ _ Hp).
    unfold updateLabel, updateScale, updateColor.
    by destruct (colorPulseData gp !! id0).
Qed.

(** X11.  With a camera, the labels after a tick are those of the nodes that
    are visible where the tick has put them: a label is made for a visible
    node that had none, the label of a node out of sight (or of no node) is
    removed, and a label that stays keeps its text.  Without a camera the
    labels are left as they are. *)
Theorem labels_track_visibility (shouldBeVisible : Vector3 → bool) (g : GravityGraph) :
  wf g →
  (∃ g', tick (Some shouldBeVisible) g = Some g'
     ∧ (∀ id, is_Some (labels g' !! id)
              ↔ ∃ node, nodes g !! id = Some node
                  ∧ shouldBeVisible (position (deref (heap g') node)) = true)
     ∧ (∀ id text, labels g !! id = Some text → is_Some (labels g' !! id) →
                   labels g' !! id = Some text))
  ∧ (∃ g', tick None g = Some g' ∧ labels g' = labels g).
Proof.
  intros Hwf.
  destruct (calculateForces_total g) as [g1 Hg1].
  destruct (calculateForces_frame _ _ Hg1) as [_ Heq].
  pose proof (wf_calculateForces _ _ Hg1 Hwf) as Hwf1.
  assert (nodes g1 = nodes g ∧ labels g1 = labels g) as [Hn1 Hl1].
  { rewrite Heq. by split. }
  unfold tick. rewrite Hg1. cbn [mbind option_bind]. unfold updateAllNodes. split.
  - destruct (foldM_total (updateNode (nodeConnectionCounts g1) (Some shouldBeVisible))
                (map_to_list (nodes g1)) (updateNode_total _ _) (g1, ∅))
      as [[gl visl] Hfold].
    rewrite Hfold. cbn [mbind option_bind].
    assert (NoDup (map_to_list (nodes g1)).*2) as Hnd2.
    { apply NoDup_fmap_2_strong; [|apply NoDup_map_to_list].
      intros [id1 r1] [id2 r2] H1 H2 Heq'. simpl in Heq'. subst r2.
      apply elem_of_map_to_list in H1, H2.
      by rewrite (wf_inj g1 Hwf1 id1 id2 r1 H1 H2). }
    destruct (foldM_updateNode_labels _ _ _ _ _ _ _
                (NoDup_fst_map_to_list _) Hnd2 Hfold) as (Hiff & Hlab & Hkeep).
    eexists. split; [reflexivity|]. cbn [labels with_links with_labels heap].
    assert (∀ id, is_Some (filter (λ kv, kv.1 ∈ visl) (labels gl) !! id) ↔ id ∈ visl)
      as Hfilter.
    { intros id. split.
      - intros [text Htext]. by apply map_lookup_filter_Some in Htext as [_ Hin].
      - intros Hin. destruct (Hlab id Hin) as [Hin0|[text Htext]].
        + by apply not_elem_of_empty in Hin0.
        + exists text. by apply map_lookup_filter_Some. }
    split.
    + intros id. rewrite Hfilter, Hiff. split.
      * intros [Hin|(node & Hin & Hs)]; [by apply not_elem_of_empty in Hin|].
        exists node. apply elem_of_map_to_list in Hin. by rewrite <-Hn1.
      * intros (node & Hin & Hs). right. exists node.
        split; [|done]. apply elem_of_map_to_list. by rewrite Hn1.
    + intros id text Hid Hsome. apply Hfilter in Hsome.
      apply map_lookup_filter_Some. split; [|done].
      apply Hkeep. by rewrite Hl1.
  - destruct (foldM_total (updateNode (nodeConnectionCounts g1) None)
                (map_to_list (nodes g1)) (updateNode_total _ _) (g1, ∅))
      as [[gl visl] Hfold].
    rewrite Hfold. cbn [mbind option_bind].
    eexists. split; [reflexivity|]. cbn [labels with_links with_labels].
    rewrite <-Hl1. apply (foldM_updateNode_labels_none _ _ _ _ Hfold).
Qed.

Lemma labels_track_visibility_witness :
  ∃ g', tick (Some (λ _, true)) graphABC = Some g'
    ∧ is_Some (labels g' !! "A").
Proof.
  destruct (labels_track_visibility (λ _, true) graphABC wf_graphABC)
    as [(g' & Hg' & Hiff & _) _].
  exists g'. split; [done|]. apply Hiff. by exists 0%nat.
Defined.

End tick_more.

(** * The forces of a tick balance *)

Section force_balance.

Implicit Types (h : gmap MeshRef PhysicsMesh) (refs : list MeshRef).

Lemma vector_eq (a b : Vector3) :
  Vector3.x a = Vector3.x b → Vector3.y a = Vector3.y b → Vector3.z a = Vector3.z b →
  a = b.
Proof. destruct a, b. simpl. by intros -> -> ->. Qed.

Local Ltac vec :=
  apply vector_eq;
  unfold Vector3.add, Vector3.sub, Vector3.multiplyScalar, Vector3.zero;
  simpl; ring.

Lemma forceSum_cons r refs h :
  forceSum (r :: refs) h = Vector3.add (force (deref h r)) (forceSum refs h).
Proof. reflexivity. Qed.

Lemma positionSum_cons r refs h :
  positionSum (r :: refs) h = Vector3.add (position (deref h r)) (positionSum refs h).
Proof. reflexivity. Qed.

Lemma forceSum_alter_notin refs h (φ : PhysicsMesh → PhysicsMesh) r :
  r ∉ refs → forceSum refs (alter φ r h) = forceSum refs h.
Proof.
  induction refs as [|r0 refs IH]; [done|]. intros Hnot.
  apply not_elem_of_cons in Hnot as [Hne Hnot].
  by rewrite !forceSum_cons, deref_alter_ne, IH.
Qed.

(** Adding [d] to the force of one mesh adds [d] to the sum. *)
Lemma forceSum_alter refs h (φ : PhysicsMesh → PhysicsMesh) r m (d : Vector3) :
  NoDup refs → r ∈ refs → h !! r = Some m →
  force (φ m) = Vector3.add (force m) d →
  forceSum refs (alter φ r h) = Vector3.add (forceSum refs h) d.
Proof.
  intros Hnd Hin Hm Hφ. induction refs as [|r0 refs IH]; [by apply elem_of_nil in Hin|].
  apply NoDup_cons in Hnd as [Hnot Hnd]. rewrite !forceSum_cons.
  destruct (decide (r = r0)) as [<-|Hne].
  - rewrite forceSum_alter_notin by done.
    rewrite (deref_alter_eq _ _ _ _ Hm), (deref_lookup _ _ _ Hm), Hφ. vec.
  - apply elem_of_cons in Hin as [?|Hin]; [done|].
    rewrite deref_alter_ne, IH by done. vec.
Qed.

Lemma forceSum_update_add refs h r (d : Vector3) :
  NoDup refs → r ∈ refs → is_Some (h !! r) →
  forceSum refs (update_force (λ f, Vector3.add f d) r h)
  = Vector3.add (forceSum refs h) d.
Proof.
  intros Hnd Hin [m Hm]. unfold update_force.
  by apply (forceSum_alter refs h _ r m d).
Qed.

Lemma forceSum_update_sub refs h r (d : Vector3) :
  NoDup refs → r ∈ refs → is_Some (h !! r) →
  forceSum refs (update_force (λ f, Vector3.sub f d) r h)
  = Vector3.sub (forceSum refs h) d.
Proof.
  intros Hnd Hin [m Hm]. unfold update_force.
  rewrite (forceSum_alter refs h _ r m (Vector3.sub Vector3.zero d)) by (done || vec).
  vec.
Qed.

(** A force added to one mesh and subtracted from another (or the same)
    leaves the sum as it was. *)
Lemma forceSum_pair refs h a b (d : Vector3) :
  NoDup refs → a ∈ refs → b ∈ refs → is_Some (h !! a) → is_Some (h !! b) →
  forceSum refs (update_force (λ f, Vector3.sub f d) b
                   (update_force (λ f, Vector3.add f d) a h))
  = forceSum refs h.
Proof.
  intros Hnd Ha Hb Hsa Hsb.
  rewrite forceSum_update_sub, forceSum_update_add; [vec|done..|].
  unfold update_force. by apply lookup_alter_is_Some.
Qed.

Lemma forceSum_repulsePair refs rep a b h h' :
  NoDup refs → a ∈ refs → b ∈ refs → is_Some (h !! a) → is_Some (h !! b) →
  repulsePair rep a b h = Some h' → forceSum refs h' = forceSum refs h.
Proof.
  intros Hnd Ha Hb Hsa Hsb. unfold repulsePair. destruct (Rltb _ _).
  - by intros [= <-].
  - intros H. apply bind_Some in H as (repulsionForce & _ & H).
    apply bind_Some in H as (unit & _ & H). apply (inj Some) in H as <-.
    by apply forceSum_pair.
Qed.

Lemma forceSum_springLink refs strength h link h' :
  NoDup refs → from link ∈ refs → to link ∈ refs →
  is_Some (h !! from link) → is_Some (h !! to link) →
  springLink strength h link = Some h' → forceSum refs h' = forceSum refs h.
Proof.
  intros Hnd Ha Hb Hsa Hsb. unfold springLink.
  intros H. apply bind_Some in H as (unit & _ & H). apply (inj Some) in H as <-.
  by apply forceSum_pair.
Qed.

(** A loop whose rounds write forces only and keep the sum, keeps the sum. *)
Lemma forceSum_foldM {A} refs
    (step : gmap MeshRef PhysicsMesh → A → option (gmap MeshRef PhysicsMesh))
    (l : list A) (ok : A → Prop) h h' :
  (∀ h a h', step h a = Some h' → sameButForces h h') →
  (∀ h a h', ok a → (∀ r, r ∈ refs → is_Some (h !! r)) →
             step h a = Some h' → forceSum refs h' = forceSum refs h) →
  Forall ok l → (∀ r, r ∈ refs → is_Some (h !! r)) →
  foldM step h l = Some h' → forceSum refs h' = forceSum refs h.
Proof.
  intros Hsame Hstep. revert h. induction l as [|a l IH]; intros h Hok Hheap Hfold.
  - by apply (inj Some) in Hfold as <-.
  - apply bind_Some in Hfold as (h1 & H1 & H2).
    apply Forall_cons in Hok as [Ha Hok].
    rewrite (IH h1 Hok); [by apply (Hstep h a)| |done].
    intros r Hr. apply elem_of_dom.
    rewrite (sameButForces_dom _ _ (Hsame _ _ _ H1)). by apply elem_of_dom, Hheap.
Qed.

Lemma sumVectors_zero {A} (l : list A) :
  sumVectors ((λ _, Vector3.zero) <$> l) = Vector3.zero.
Proof.
  induction l as [|a l IH]; [done|].
  rewrite fmap_cons. unfold sumVectors in *. simpl. rewrite IH. vec.
Qed.

Lemma resetForces_zero (nodeList : list (string * MeshRef)) h r :
  is_Some (h !! r) → r ∈ nodeList.*2 ∨ force (deref h r) = Vector3.zero →
  force (deref (resetForces nodeList h) r) = Vector3.zero.
Proof.
  unfold resetForces. revert h.
  induction nodeList as [|[title node] l IH]; intros h Hs Hr; simpl.
  - destruct Hr as [Hr|Hr]; [by apply elem_of_nil in Hr|done].
  - apply IH.
    + unfold update_force. by apply lookup_alter_is_Some.
    + destruct Hs as [m Hm]. unfold update_force.
      destruct (decide (node = r)) as [->|Hne].
      * right. by rewrite (deref_alter_eq _ _ _ _ Hm).
      * rewrite deref_alter_ne by done.
        destruct Hr as [Hr|Hr]; [|by right].
        rewrite fmap_cons in Hr. apply elem_of_cons in Hr as [Hr|Hr]; [|by left].
        simpl in Hr. congruence.
Qed.

Lemma forceSum_resetForces (nodeList : list (string * MeshRef)) h :
  (∀ r, r ∈ nodeList.*2 → is_Some (h !! r)) →
  forceSum (nodeList.*2) (resetForces nodeList h) = Vector3.zero.
Proof.
  intros Hheap. rewrite <-(sumVectors_zero (nodeList.*2)). unfold forceSum. f_equal.
  apply list_fmap_ext. intros i r Hr. apply list_elem_of_lookup_2 in Hr.
  apply resetForces_zero; [by apply Hheap|by left].
Qed.

Lemma positionSum_sameButForces refs h h' :
  sameButForces h h' → positionSum refs h' = positionSum refs h.
Proof.
  intros Hsame. unfold positionSum. f_equal. apply list_fmap_ext. intros i r _.
  by destruct (sameButForces_deref _ _ r Hsame) as [-> _].
Qed.

(** The centre attraction adds to the sum [-c] times the sum of the
    positions of the meshes it visits. *)
Lemma forceSum_centerPhase refs (c : R) (nodeList : list (string * MeshRef)) h :
  NoDup refs → (∀ r, r ∈ nodeList.*2 → r ∈ refs) →
  (∀ r, r ∈ refs → is_Some (h !! r)) →
  forceSum refs (centerPhase c nodeList h)
  = Vector3.add (forceSum refs h)
                (Vector3.multiplyScalar (positionSum (nodeList.*2) h) (- c)).
Proof.
  intros Hnd. unfold centerPhase. revert h.
  induction nodeList as [|[title node] l IH]; intros h Hsub Hheap.
  - simpl. vec.
  - cbn [foldl]. rewrite (fmap_cons snd). cbn [snd].
    set (φ := λ m : PhysicsMesh,
               set_force (Vector3.add (force m)
                            (Vector3.multiplyScalar (position m) (- c))) m).
    assert (sameButForces h (alter φ node h)) as Hsame.
    { apply (sameButForces_alter
               (λ m, Vector3.add (force m) (Vector3.multiplyScalar (position m) (- c)))). }
    assert (node ∈ refs) as Hnode by (apply Hsub; rewrite fmap_cons; apply list_elem_of_here).
    destruct (Hheap node Hnode) as [m Hm].
    rewrite IH.
    + rewrite (forceSum_alter refs h φ node m
                 (Vector3.multiplyScalar (position m) (- c))) by done.
      rewrite (positionSum_sameButForces _ _ _ Hsame), positionSum_cons.
      rewrite (deref_lookup _ _ _ Hm). vec.
    + intros r Hr. apply Hsub. rewrite fmap_cons. by apply list_elem_of_further.
    + intros r Hr. apply elem_of_dom. rewrite (sameButForces_dom _ _ Hsame).
      by apply elem_of_dom, Hheap.
Qed.

Lemma NoDup_liveMeshes g : wf g → NoDup (liveMeshes g).
Proof.
  intros Hwf. apply NoDup_fmap_2_strong; [|apply NoDup_map_to_list].
  intros [id1 r1] [id2 r2] H1 H2 Heq. simpl in Heq. subst r2.
  apply elem_of_map_to_list in H1, H2.
  by rewrite (wf_inj g Hwf id1 id2 r1 H1 H2).
Qed.

Lemma liveMeshes_heap g r : wf g → r ∈ liveMeshes g → is_Some (heap g !! r).
Proof.
  intros Hwf Hr. apply list_elem_of_fmap in Hr as ([id r'] & -> & Hin).
  apply elem_of_map_to_list in Hin. by apply (wf_heap g Hwf id).
Qed.

End force_balance.

(** X12.  The forces of a tick balance.  The repulsion pushes the two nodes
    of a pair apart with opposite forces and a link pulls its two ends with
    opposite forces, so that in a store whose links join registered nodes the
    forces [calculateForces] leaves on the nodes add up to the pull towards
    the centre alone: minus [centerAttraction] times the sum of the
    positions. *)
Theorem forces_balance (g : GravityGraph) :
  wf g → linksLive g →
  ∃ g1, calculateForces g = Some g1
    ∧ forceSum (liveMeshes g) (heap g1)
      = Vector3.multiplyScalar (positionSum (liveMeshes g) (heap g))
                               (- centerAttraction (forces g)).
Proof.
  intros Hwf Hlive.
  pose proof (NoDup_liveMeshes g Hwf) as Hnd.
  destruct (calculateForces_total g) as [g1 Hg1]. exists g1. split; [done|].
  unfold calculateForces in Hg1.
  apply bind_Some in Hg1 as (h1 & H1 & Hg1). apply bind_Some in Hg1 as (h2 & H2 & Hg1).
  apply (inj Some) in Hg1 as <-. cbn [heap with_heap].
  fold (liveMeshes g) in H1.
  set (h0 := resetForces (map_to_list (nodes g)) (heap g)) in *.
  assert (sameButForces (heap g) h0) as Hs0 by apply sameButForces_resetForces.
  assert (∀ h, sameButForces (heap g) h → ∀ r, r ∈ liveMeshes g → is_Some (h !! r))
    as Hheap.
  { intros h Hs r Hr. apply elem_of_dom. rewrite (sameButForces_dom _ _ Hs).
    by apply elem_of_dom, liveMeshes_heap. }
  assert (sameButForces h0 h1 ∧ forceSum (liveMeshes g) h1 = forceSum (liveMeshes g) h0)
    as [Hs1 Hf1].
  { unfold repulsionPhase in H1.
    assert (∀ h (a : nat * nat) h',
              (let '(i, j) := a in
               match liveMeshes g !! i, liveMeshes g !! j with
               | Some nodeA, Some nodeB =>
                   repulsePair (repulsion (forces g)) nodeA nodeB h
               | _, _ => Some h
               end) = Some h' → sameButForces h h') as Hsame.
    { intros h [i j] h'.
      destruct (liveMeshes g !! i) as [nodeA|], (liveMeshes g !! j) as [nodeB|];
        try (intros [= <-]; apply sameButForces_refl).
      apply sameButForces_repulsePair. }
    split.
    - eapply sameButForces_foldM; [|exact H1]. intros h [i j] h'. apply (Hsame h (i, j)).
    - eapply (forceSum_foldM (liveMeshes g) _ _ (λ _, True)); [| | |by apply Hheap|exact H1].
      + intros h [i j] h'. apply (Hsame h (i, j)).
      + intros h [i j] h' _ Hh.
        destruct (liveMeshes g !! i) as [nodeA|] eqn:Hi,
                 (liveMeshes g !! j) as [nodeB|] eqn:Hj; try by intros [= <-].
        apply list_elem_of_lookup_2 in Hi, Hj.
        apply forceSum_repulsePair; auto.
      + by apply Forall_forall. }
  assert (sameButForces (heap g) h1) as Hs01 by (by eapply sameButForces_trans).
  assert (sameButForces h1 h2 ∧ forceSum (liveMeshes g) h2 = forceSum (liveMeshes g) h1)
    as [Hs2 Hf2].
  { split.
    - eapply sameButForces_foldM; [|exact H2]. apply sameButForces_springLink.
    - eapply (forceSum_foldM (liveMeshes g) _ _
                (λ link, from link ∈ liveMeshes g ∧ to link ∈ liveMeshes g));
        [| | |by apply Hheap|exact H2].
      + apply sameButForces_springLink.
      + intros h link h' [Hfrom Hto] Hh. apply forceSum_springLink; auto.
      + apply Forall_forall. intros link Hin. by apply Hlive. }
  assert (sameButForces (heap g) h2) as Hs02 by (by eapply sameButForces_trans).
  rewrite (forceSum_centerPhase (liveMeshes g)); [|done|done|by apply Hheap].
  fold (liveMeshes g).
  rewrite Hf2, Hf1, (positionSum_sameButForces _ _ _ Hs02).
  unfold h0, liveMeshes. rewrite forceSum_resetForces.
  - apply vector_eq; unfold Vector3.add, Vector3.multiplyScalar, Vector3.zero;
      simpl; ring.
  - intros r Hr. by apply liveMeshes_heap.
Qed.

Lemma linksLive_graphSpread : linksLive graphSpread.
Proof.
  assert (∀ id r, nodes graphSpread !! id = Some r → r ∈ liveMeshes graphSpread) as Hin.
  { intros id r Hr. apply list_elem_of_fmap. exists (id, r).
    split; [done|]. by apply elem_of_map_to_list. }
  intros l Hl. change (links graphSpread) with
    [mkLink 0%nat 1%nat (Vector3.mk 3 0 0, Vector3.mk 0 4 0);
     mkLink 1%nat 2%nat (Vector3.mk 0 4 0, Vector3.zero)] in Hl.
  apply elem_of_cons in Hl as [->|Hl]; [|apply elem_of_cons in Hl as [->|Hl]].
  - split; [by apply (Hin "A")|by apply (Hin "B")].
  - split; [by apply (Hin "B")|by apply (Hin "C")].
  - by apply elem_of_nil in Hl.
Qed.

Lemma positionSum_graphSpread :
  positionSum (liveMeshes graphSpread) (heap graphSpread) = Vector3.mk 3 4 0.
Proof.
  assert (liveMeshes graphSpread = [2; 0; 1]%nat) as -> by (vm_compute; reflexivity).
  rewrite !positionSum_cons.
  change (positionSum [] (heap graphSpread)) with Vector3.zero.
  change (position (deref (heap graphSpread) 0%nat)) with (Vector3.mk 3 0 0).
  change (position (deref (heap graphSpread) 1%nat)) with (Vector3.mk 0 4 0).
  change (position (deref (heap graphSpread) 2%nat)) with Vector3.zero.
  apply vector_eq; unfold Vector3.add, Vector3.zero; simpl; ring.
Qed.

Lemma forces_balance_witness :
  ∃ g1, calculateForces graphSpread = Some g1
    ∧ forceSum (liveMeshes graphSpread) (heap g1)
      = Vector3.mk (3 * - (1 / 1000)) (4 * - (1 / 1000)) (0 * - (1 / 1000)).
Proof.
  destruct (forces_balance graphSpread wf_graphSpread linksLive_graphSpread)
    as (g1 & Hg1 & Hsum).
  exists g1. split; [done|]. by rewrite Hsum, positionSum_graphSpread.
Defined.

(** * The force on one node *)

Section force_law.

Implicit Types (h : gmap MeshRef PhysicsMesh) (r a b : MeshRef) (d : Vector3).

Local Ltac vec :=
  apply vector_eq;
  unfold Vector3.add, Vector3.sub, Vector3.multiplyScalar, Vector3.zero;
  simpl; ring.





(** **** A force added to one mesh and taken from another *)





(** **** A loop adds up what its rounds add *)



(** **** The pairs the nested loops visit *)








(** **** The repulsion of a node, pair by pair and node by node *)




(** **** The attraction of the centre *)




End force_law.





(** * Further properties of the graph store *)

Section store_more.

Implicit Types (g : GravityGraph) (ls : list Link).

Lemma with_links_same g : with_links (links g) g = g.
Proof. by destruct g. Qed.

Lemma with_links_twice ls ls' g : with_links ls (with_links ls' g) = with_links ls g.
Proof. done. Qed.

(** [findIndex] returns the position of the first link that satisfies the
    predicate. *)
Lemma findIndex_Some (p : Link → bool) ls i :
  findIndex p ls = Some i →
  ∃ l1 x l2, ls = l1 ++ x :: l2 ∧ length l1 = i ∧ p x = true
             ∧ Forall (λ y, p y = false) l1.
Proof.
  revert i. induction ls as [|y ls IH]; intros i; simpl; [done|].
  destruct (p y) eqn:Hy.
  - intros [= <-]. by exists [], y, ls.
  - destruct (findIndex p ls) as [k|]; [|done]. intros [= <-].
    destruct (IH k eq_refl) as (l1 & x & l2 & -> & <- & Hx & Hl1).
    exists (y :: l1), x, l2. repeat split; [done|]. by apply Forall_cons.
Qed.

Lemma findIndex_None (p : Link → bool) ls :
  findIndex p ls = None → Forall (λ y, p y = false) ls.
Proof.
  induction ls as [|y ls IH]; simpl; [done|].
  destruct (p y) eqn:Hy; [done|].
  destruct (findIndex p ls); [done|]. intros _. apply Forall_cons. auto.
Qed.

Lemma findIndex_snoc (p : Link → bool) ls x :
  existsb p ls = false → p x = true → findIndex p (ls ++ [x]) = Some (length ls).
Proof.
  intros He Hx. induction ls as [|y ls IH]; simpl in *; [by rewrite Hx|].
  apply orb_false_iff in He as [-> He]. by rewrite IH.
Qed.

Lemma filter_all_false (p : Link → bool) ls :
  Forall (λ y, p y = false) ls → filter (λ l, p l = false) ls = ls.
Proof.
  induction 1 as [|y ls Hy _ IH]; [done|].
  by rewrite filter_cons_True, IH.
Qed.

End store_more.

(** X13.  Adding a link between two nodes that no link joins and removing it
    again, with the ids in either order, gives back the store as it was. *)
Theorem addLink_removeLink (g : GravityGraph) (a b : string) (ra rb : MeshRef) :
  nodes g !! a = Some ra → nodes g !! b = Some rb →
  existsb (joins ra rb) (links g) = false →
  removeLink a b (addLink a b g) = g ∧ removeLink b a (addLink a b g) = g.
Proof.
  intros Ha Hb He.
  assert (addLink a b g
          = with_links (links g ++ [mkLink ra rb (position (deref (heap g) ra),
                                                  position (deref (heap g) rb))]) g) as ->.
  { unfold addLink. by rewrite Ha, Hb, He. }
  unfold removeLink. cbn [nodes links with_links]. rewrite Ha, Hb.
  rewrite (findIndex_snoc (joins ra rb)), (findIndex_snoc (joins rb ra));
    [|by rewrite existsb_joins_sym|by rewrite joins_sym, joins_self|done|apply joins_self].
  rewrite with_links_twice.
  rewrite (delete_middle (links g) []), app_nil_r. by rewrite with_links_same.
Qed.

Lemma addLink_removeLink_witness :
  removeLink "A" "C" (addLink "A" "C" graphABC) = graphABC
  ∧ removeLink "C" "A" (addLink "A" "C" graphABC) = graphABC.
Proof. by apply (addLink_removeLink graphABC "A" "C" 0%nat 2%nat). Defined.

(** X14.  In a store without duplicate links, [removeLink] on two registered
    nodes removes the links that join them, in either direction, and keeps
    every other link in place. *)
Theorem removeLink_unlinks (g : GravityGraph) (a b : string) (ra rb : MeshRef) :
  linksUnique (links g) → nodes g !! a = Some ra → nodes g !! b = Some rb →
  links (removeLink a b g) = filter (λ l, joins ra rb l = false) (links g).
Proof.
  intros Hu Ha Hb. unfold removeLink. rewrite Ha, Hb.
  destruct (findIndex (joins ra rb) (links g)) as [i|] eqn:Hi; cbn [links with_links].
  - apply findIndex_Some in Hi as (l1 & x & l2 & Hl & <- & Hx & Hl1).
    rewrite Hl in *. rewrite delete_middle.
    assert (Forall (λ y, joins ra rb y = false) l2) as Hl2.
    { apply Forall_forall. intros y Hy.
      apply list_elem_of_lookup_1 in Hy as [k Hk].
      destruct (joins ra rb y) eqn:Hj; [|done].
      assert (length l1 = (length l1 + S k)%nat); [|lia].
      apply (Hu _ _ x y).
      - by rewrite list_lookup_middle.
      - rewrite lookup_app_r by lia.
        replace (length l1 + S k - length l1)%nat with (S k) by lia. done.
      - apply joins_true in Hx, Hj. apply joins_true. intuition congruence. }
    rewrite filter_app, filter_cons_False by congruence.
    by rewrite !filter_all_false.
  - by rewrite filter_all_false by by apply findIndex_None.
Qed.

Lemma linksUnique_graphABC : linksUnique (links graphABC).
Proof.
  unfold graphABC.
  repeat (apply (applyOp_linksUnique _ (OpAddLink _ _))
          || apply (applyOp_linksUnique _ (OpAddNode _ _ _ _ _))).
  apply linksUnique_nil.
Qed.

Lemma removeLink_unlinks_witness :
  links (removeLink "A" "B" graphABC)
  = filter (λ l, joins 0%nat 1%nat l = false) (links graphABC).
Proof.
  by apply (removeLink_unlinks graphABC "A" "B" 0%nat 1%nat linksUnique_graphABC).
Defined.

Section rename_scale.

Implicit Types (g : GravityGraph).

(** The connection counts are kept under the ids the reverse lookup map
    holds: an id it does not hold has no count. *)
Lemma nodeConnectionCounts_absent g (id : string) :
  map_Forall (λ _ id', id' ≠ id) (nodeToUniqueId g) →
  nodeConnectionCounts g !! id = None.
Proof.
  intros Hrev. unfold nodeConnectionCounts.
  assert (∀ ls counts, counts !! id = None →
            foldl (countLink (nodeToUniqueId g)) counts ls !! id = None) as Hfold.
  { induction ls as [|link ls IH]; intros counts Hc; [done|].
    simpl. apply IH. unfold countLink.
    destruct (nodeToUniqueId g !! from link) as [f|] eqn:Hf; [|done].
    destruct (nodeToUniqueId g !! to link) as [t|] eqn:Ht; simpl;
      [|by destruct (decide (f = ""))].
    destruct (decide (f = "")); [done|]. destruct (decide (t = "")); [done|].
    apply Hrev in Hf, Ht. by rewrite !lookup_insert_ne. }
  by apply Hfold.
Qed.

(** The scale a tick gives a node. *)
Lemma tick_scale camera g (uniqueId : string) (node : MeshRef) :
  wf g → nodes g !! uniqueId = Some node →
  ∃ g', tick camera g = Some g'
    ∧ scale (deref (heap g') node)
      = Vector3.setScalar
          (calcLinkScale g (default 0%nat (nodeConnectionCounts g !! uniqueId))).
Proof.
  intros Hwf Hnode.
  destruct (calculateForces_total g) as [g1 Hg1].
  destruct (calculateForces_frame _ _ Hg1) as [_ Heq].
  pose proof (wf_calculateForces _ _ Hg1 Hwf) as Hwf1.
  assert (nodes g1 !! uniqueId = Some node
          ∧ nodeConnectionCounts g1 = nodeConnectionCounts g
          ∧ config g1 = config g) as (Hnode1 & Hcounts & Hc1).
  { rewrite Heq. by repeat split. }
  destruct (updateAllNodes_scale camera g1 uniqueId node Hwf1 Hnode1)
    as (g' & Hg' & Hscale).
  exists g'. split; [unfold tick; by rewrite Hg1|].
  by rewrite Hscale, Hcounts, (calcLinkScale_config g1 g).
Qed.

End rename_scale.

(** X15.  [renameNode] leaves the reverse lookup map as it is, and the
    connection counts of a tick are kept under the ids of that map.  So a
    node renamed to an id the map does not hold is counted as unconnected:
    the next tick gives it the scale 1, whatever links it has. *)
Theorem renamed_node_scale (camera : option (Vector3 → bool)) (g : GravityGraph)
    (oldId newId : string) (newFilePath : option string) (node : MeshRef) :
  wf g → nodes g !! oldId = Some node →
  map_Forall (λ _ id, id ≠ newId) (nodeToUniqueId g) →
  let g2 := renameNode oldId newId newFilePath g in
  nodes g2 !! newId = Some node
  ∧ links g2 = links g
  ∧ ∃ g', tick camera g2 = Some g'
      ∧ scale (deref (heap g') node) = Vector3.setScalar 1.
Proof.
  intros Hwf Hnode Hrev g2.
  pose proof (wf_renameNode g oldId newId newFilePath Hwf) as Hwf2. fold g2 in Hwf2.
  assert (nodes g2 !! newId = Some node ∧ links g2 = links g
          ∧ nodeToUniqueId g2 = nodeToUniqueId g) as (Hnew & Hlinks & Hrev2).
  { unfold g2, renameNode. rewrite Hnode.
    match goal with |- context [removeLabelForNode _ ?g0] =>
      destruct (removeLabelForNode_frame oldId g0) as (_ & -> & -> & _ & _ & -> & _)
    end.
    cbn [nodes links nodeToUniqueId]. by rewrite lookup_insert_eq. }
  split; [done|]. split; [done|].
  destruct (tick_scale camera g2 newId node Hwf2 Hnew) as (g' & Hg' & Hscale).
  exists g'. split; [done|].
  rewrite Hscale, nodeConnectionCounts_absent by (by rewrite Hrev2).
  unfold calcLinkScale. cbn [default]. by rewrite bool_decide_eq_true_2 by lia.
Qed.

Lemma renamed_node_scale_witness :
  default 0%nat (nodeConnectionCounts graphABC !! "B") = 2%nat
  ∧ ∃ g', tick None (renameNode "B" "B2" None graphABC) = Some g'
      ∧ scale (deref (heap g') 1%nat) = Vector3.setScalar 1.
Proof.
  split; [reflexivity|].
  destruct (renamed_node_scale None graphABC "B" "B2" None 1%nat wf_graphABC eq_refl)
    as (_ & _ & Hg').
  - apply (bool_decide_unpack _). vm_compute. exact I.
  - exact Hg'.
Defined.

(** * Colours and settings *)

Section recolor.

Implicit Types (g : GravityGraph).

Lemma recolorNode_static g entry :
  let g' : GravityGraph := recolorNode g entry in
  currentSettings g' = currentSettings g ∧ nodeFilePaths g' = nodeFilePaths g
  ∧ nodes g' = nodes g ∧ links g' = links g ∧ frozenNodes g' = frozenNodes g
  ∧ labels g' = labels g ∧ nodeToUniqueId g' = nodeToUniqueId g
  ∧ config g' = config g.
Proof.
  destruct entry as [id node]. unfold recolorNode.
  destruct (getNodeColor _ _ _); by repeat split.
Qed.

Lemma recolorNode_Thrown g id node g' :
  recolorNode g (id, node) = Thrown g'
  ↔ getNodeColor (currentSettings g) (nodeFilePaths g) id = None ∧ g' = g.
Proof.
  unfold recolorNode. destruct (getNodeColor _ _ _); split.
  - done.
  - by intros [? _].
  - by intros [= <-].
  - by intros [_ ->].
Qed.

Lemma recolorNode_own g id node g' :
  recolorNode g (id, node) = Returned g' →
  ∃ c, getNodeColor (currentSettings g) (nodeFilePaths g) id = Some c
    ∧ heap g' !! node = set_colors c <$> heap g !! node
    ∧ colorPulseData g' !! id = recolorPulse c <$> colorPulseData g !! id.
Proof.
  unfold recolorNode. destruct (getNodeColor _ _ _) as [c|]; [|done].
  intros [= <-]. exists c. split; [done|]. cbn. rewrite lookup_alter_eq. split; [done|].
  destruct (colorPulseData g !! id) as [d|] eqn:Hd; simpl.
  - by rewrite lookup_insert_eq.
  - by rewrite Hd.
Qed.

Lemma recolorNode_other g id' node' :
  let g' : GravityGraph := recolorNode g (id', node') in
  (∀ node, node ≠ node' → heap g' !! node = heap g !! node)
  ∧ (∀ id, id ≠ id' → colorPulseData g' !! id = colorPulseData g !! id).
Proof.
  unfold recolorNode. destruct (getNodeColor _ _ _) as [c|]; [|done]. cbn. split.
  - intros node Hne. by rewrite lookup_alter_ne.
  - intros id Hne. destruct (colorPulseData g !! id'); simpl; [|done].
    by rewrite lookup_insert_ne.
Qed.

Lemma forEach_cons {A S} (body : S → A → Completion S) (s : S) (a : A) (l : list A) :
  stateOf (forEach body s (a :: l)) = stateOf (forEach body (stateOf (body s a)) l)
  ∨ (∃ s', body s a = Thrown s' ∧ forEach body s (a :: l) = Thrown s').
Proof. cbn. destruct (body s a) as [s'|s']; [by left|right; by exists s']. Qed.

Lemma forEach_recolorNode_static l g :
  let g' : GravityGraph := forEach recolorNode g l in
  currentSettings g' = currentSettings g ∧ nodeFilePaths g' = nodeFilePaths g
  ∧ nodes g' = nodes g ∧ links g' = links g ∧ frozenNodes g' = frozenNodes g
  ∧ labels g' = labels g ∧ nodeToUniqueId g' = nodeToUniqueId g
  ∧ config g' = config g.
Proof.
  revert g. induction l as [|e l IH]; intros g; [done|]. cbn [forEach].
  pose proof (recolorNode_static g e) as Hs. cbv zeta in Hs.
  destruct (recolorNode g e) as [g1|g1]; [|exact Hs].
  destruct (IH g1) as (-> & -> & -> & -> & -> & -> & -> & ->). exact Hs.
Qed.

(** The loop throws exactly when the colour of one of its nodes does not
    resolve. *)
Lemma forEach_recolorNode_Thrown l g :
  (∃ g', forEach recolorNode g l = Thrown g')
  ↔ ∃ id node, (id, node) ∈ l
      ∧ getNodeColor (currentSettings g) (nodeFilePaths g) id = None.
Proof.
  revert g. induction l as [|[id' node'] l IH]; intros g.
  - split; [by intros [g' ?]|]. intros (id & node & Hin & _). by apply elem_of_nil in Hin.
  - cbn [forEach].
    pose proof (recolorNode_static g (id', node')) as (Hs & Hp & _).
    destruct (recolorNode g (id', node')) as [g1|g1] eqn:Hrec.
    + rewrite IH. cbn in Hs, Hp. rewrite Hs, Hp.
      apply recolorNode_own in Hrec as (c & Hc & _). split.
      * intros (id & node & Hin & Hnone). exists id, node.
        split; [by apply list_elem_of_further|done].
      * intros (id & node & Hin & Hnone). exists id, node. split; [|done].
        apply elem_of_cons in Hin as [[= -> ->]|Hin]; [congruence|done].
    + apply recolorNode_Thrown in Hrec as [Hnone _]. split.
      * intros _. exists id', node'. split; [apply list_elem_of_here|done].
      * intros _. by exists g1.
Qed.

Lemma forEach_recolorNode_other l g :
  let g' : GravityGraph := forEach recolorNode g l in
  (∀ node, node ∉ l.*2 → heap g' !! node = heap g !! node)
  ∧ (∀ id, id ∉ l.*1 → colorPulseData g' !! id = colorPulseData g !! id).
Proof.
  revert g. induction l as [|[id' node'] l IH]; intros g; [done|]. cbn [forEach].
  pose proof (recolorNode_other g id' node') as [H1 H2]. cbv zeta in H1, H2.
  destruct (recolorNode g (id', node')) as [g1|g1].
  - destruct (IH g1) as [IH1 IH2]. cbn in H1, H2. split.
    + intros node Hnot. rewrite fmap_cons in Hnot.
      apply not_elem_of_cons in Hnot as [Hne Hnot]. by rewrite IH1, H1.
    + intros id Hnot. rewrite fmap_cons in Hnot.
      apply not_elem_of_cons in Hnot as [Hne Hnot]. by rewrite IH2, H2.
  - split.
    + intros node Hnot. rewrite fmap_cons in Hnot.
      apply not_elem_of_cons in Hnot as [Hne Hnot]. by apply H1.
    + intros id Hnot. rewrite fmap_cons in Hnot.
      apply not_elem_of_cons in Hnot as [Hne Hnot]. by apply H2.
Qed.

Lemma forEach_recolorNode_own l g g' id node :
  NoDup l.*1 → NoDup l.*2 → (id, node) ∈ l →
  forEach recolorNode g l = Returned g' →
  ∃ c, getNodeColor (currentSettings g) (nodeFilePaths g) id = Some c
    ∧ heap g' !! node = set_colors c <$> heap g !! node
    ∧ colorPulseData g' !! id = recolorPulse c <$> colorPulseData g !! id.
Proof.
  revert g. induction l as [|[id' node'] l IH]; intros g Hd1 Hd2 Hin Hret.
  - by apply elem_of_nil in Hin.
  - rewrite fmap_cons in Hd1. rewrite fmap_cons in Hd2. simpl in Hd1, Hd2.
    apply NoDup_cons in Hd1 as [Hn1 Hd1], Hd2 as [Hn2 Hd2]. cbn [forEach] in Hret.
    pose proof (recolorNode_static g (id', node')) as (Hs & Hp & _).
    pose proof (recolorNode_other g id' node') as [Ho1 Ho2].
    destruct (recolorNode g (id', node')) as [g1|g1] eqn:Hrec; [|done].
    cbn in Hs, Hp, Ho1, Ho2.
    apply elem_of_cons in Hin as [[= <- <-]|Hin].
    + apply recolorNode_own in Hrec as (c & Hc & Hh & Hpulse). exists c.
      split; [done|].
      pose proof (forEach_recolorNode_other l g1) as [H1 H2].
      rewrite Hret in H1, H2. cbn in H1, H2.
      by rewrite H1, H2.
    + assert (id ≠ id') as Hid.
      { intros <-. apply Hn1. apply list_elem_of_fmap. by exists (id, node). }
      assert (node ≠ node') as Hnode.
      { intros <-. apply Hn2. apply list_elem_of_fmap. by exists (id, node). }
      destruct (IH g1 Hd1 Hd2 Hin Hret) as (c & Hc & H1 & H2).
      exists c. rewrite Hs, Hp in Hc. rewrite Ho1, Ho2 in * by done. done.
Qed.



Lemma updateNodeColors_Thrown settings g :
  (∃ thrown, updateNodeColors settings g = Thrown thrown)
  ↔ ∃ id, is_Some (nodes g !! id)
      ∧ getNodeColor (Some settings) (nodeFilePaths g) id = None.
Proof.
  unfold updateNodeColors. rewrite forEach_recolorNode_Thrown.
  cbn [currentSettings nodeFilePaths with_settings]. split.
  - intros (id & r & Hin & Hnone). exists id. split; [|done].
    apply elem_of_map_to_list in Hin. by exists r.
  - intros (id & [r Hr] & Hnone). exists id, r. split; [|done].
    by apply elem_of_map_to_list.
Qed.

Lemma updateNodeColors_static settings g :
  let g' : GravityGraph := updateNodeColors settings g in
  currentSettings g' = Some settings ∧ nodeFilePaths g' = nodeFilePaths g
  ∧ nodes g' = nodes g ∧ links g' = links g ∧ frozenNodes g' = frozenNodes g
  ∧ labels g' = labels g ∧ nodeToUniqueId g' = nodeToUniqueId g
  ∧ config g' = config g.
Proof.
  apply (forEach_recolorNode_static (map_to_list (nodes g))
           (with_settings (Some settings) g)).
Qed.


End recolor.

(** X16.  [updateNodeColors] stores the new settings and gives every node
    the colour they resolve for it: the colour and the emissive colour of its
    material, and the base colour of its pulse with the glow multiplier of
    that colour; the phase and the speed of the pulse are kept.  It does so
    unless the colour of some node does not resolve, because the colour
    found for its folder is no string but a member of [Object.prototype]:
    then, and only then, the call ends by a [TypeError].  Either way the new
    settings are stored, and nodes, links and frozen nodes are left as they
    are. *)
Theorem updateNodeColors_recolors (settings : PluginSettings) (g : GravityGraph)
    (uniqueId : string) (node : MeshRef) :
  wf g → nodes g !! uniqueId = Some node →
  let color := getNodeColor (Some settings) (nodeFilePaths g) in
  let g' : GravityGraph := updateNodeColors settings g in
  (currentSettings g' = Some settings
   ∧ nodes g' = nodes g ∧ links g' = links g ∧ frozenNodes g' = frozenNodes g)
  ∧ ((∃ thrown, updateNodeColors settings g = Thrown thrown)
     ↔ ∃ id, is_Some (nodes g !! id) ∧ color id = None)
  ∧ ∀ returned, updateNodeColors settings g = Returned returned →
      ∃ c m, color uniqueId = Some c
        ∧ heap g !! node = Some m
        ∧ heap returned !! node = Some (set_colors c m)
        ∧ colorPulseData returned !! uniqueId
          = recolorPulse c <$> colorPulseData g !! uniqueId.
Proof.
  intros Hwf Hnode color g'. subst color g'.
  pose proof (updateNodeColors_static settings g) as (Hs & _ & Hn & Hl & Hf & _).
  cbv zeta in *. split; [done|]. split; [apply updateNodeColors_Thrown|].
  intros returned Hret. unfold updateNodeColors in Hret.
    assert (NoDup (map_to_list (nodes g)).*2) as Hnd2.
    { apply NoDup_fmap_2_strong; [|apply NoDup_map_to_list].
      intros [id1 r1] [id2 r2] H1 H2 Heq. simpl in Heq. subst r2.
      apply elem_of_map_to_list in H1, H2.
      by rewrite (wf_inj g Hwf id1 id2 r1 H1 H2). }
    assert ((uniqueId, node) ∈ map_to_list (nodes g)) as Hin
      by (by apply elem_of_map_to_list).
    destruct (forEach_recolorNode_own _ (with_settings (Some settings) g) returned
                uniqueId node (NoDup_fst_map_to_list _) Hnd2 Hin Hret)
      as (c & Hc & Hh & Hp).
    cbn [currentSettings nodeFilePaths heap colorPulseData with_settings] in Hc, Hh, Hp.
    destruct (wf_heap g Hwf _ _ Hnode) as [m Hm]. exists c, m.
    split; [done|]. split; [done|]. split; [|done]. by rewrite Hh, Hm.
Qed.

Lemma wf_graphXZ : wf graphXZ.
Proof. unfold graphXZ. repeat (apply wf_addLink || apply wf_addNode). apply wf_new. Qed.

Lemma updateNodeColors_recolors_witness :
  ∃ returned m,
    updateNodeColors settingsRedNotes graphXZ = Returned returned
    ∧ heap graphXZ !! 0%nat = Some m
    ∧ heap returned !! 0%nat = Some (set_colors (mkColor 1 0 0) m).
Proof.
  destruct (updateNodeColors_recolors settingsRedNotes graphXZ "X" 0%nat wf_graphXZ eq_refl)
    as (_ & Hthrown & Hreturned).
  assert (getNodeColor (Some settingsRedNotes) (nodeFilePaths graphXZ) "X"
          = Some (mkColor 1 0 0)) as HX by (vm_compute; reflexivity).
  assert (getNodeColor (Some settingsRedNotes) (nodeFilePaths graphXZ) "Z"
          = Some white) as HZ by (vm_compute; reflexivity).
  destruct (updateNodeColors settingsRedNotes graphXZ) as [returned|thrown].
  - destruct (Hreturned returned eq_refl) as (c & m & Hc & Hm & Hh & _).
    exists returned, m. rewrite HX in Hc. injection Hc as <-. done.
  - exfalso. destruct (proj1 Hthrown (ex_intro _ thrown eq_refl)) as (id & Hid & Hnone).
    change (nodes graphXZ) with (<["Z" := 1%nat]> (<["X" := 0%nat]> (∅ : gmap string MeshRef)))
      in Hid.
    apply lookup_insert_is_Some in Hid as [<-|[_ Hid]]; [congruence|].
    apply lookup_insert_is_Some in Hid as [<-|[_ Hid]]; [congruence|].
    rewrite lookup_empty in Hid. by destruct Hid.
Defined.

(** A node in a folder named [constructor], which has no colour of its own:
    the lookup in [folderColors] finds the member of [Object.prototype], and
    [updateNodeColors] ends by a [TypeError], with the settings stored. *)
Lemma updateNodeColors_throws :
  ∃ thrown, updateNodeColors settingsRedNotes graphConstructor = Thrown thrown
    ∧ currentSettings thrown = Some settingsRedNotes
    ∧ getNodeColorForFile "constructor/n.md" (colorSettings settingsRedNotes)
      = InheritedMember "constructor".
Proof.
  destruct (proj2 (updateNodeColors_Thrown settingsRedNotes graphConstructor))
    as [thrown Hthrown].
  { exists "n". split; [by eexists|]. vm_compute. reflexivity. }
  exists thrown. split; [done|]. split; [|vm_compute; reflexivity].
  pose proof (updateNodeColors_static settingsRedNotes graphConstructor) as (Hs & _).
  cbv zeta in Hs. by rewrite Hthrown in Hs.
Qed.

(** With such settings in the store, [addNode] of a note of that folder ends
    by the same [TypeError]: the file path is stored, the node is not. *)
Lemma addNode_throws :
  let g := storeOf (updateNodeColors settingsRedNotes newGravityGraph) in
  ∃ thrown, addNode "n" (Some "constructor/n.md") None 0 0 g = Thrown thrown
    ∧ nodeFilePaths thrown !! "n" = Some "constructor/n.md"
    ∧ nodes thrown !! "n" = None.
Proof.
  intros g. unfold addNode.
  change (truthy (Some "constructor/n.md")) with (Some "constructor/n.md").
  cbv beta iota zeta.
  assert (getNodeColor (currentSettings g)
            (<["n" := "constructor/n.md"]> (nodeFilePaths g)) "n" = None) as ->
    by (vm_compute; reflexivity).
  eexists. split; [reflexivity|]. split; [|done].
  cbn [nodeFilePaths with_paths]. by rewrite lookup_insert_eq.
Qed.


(** * Properties of the live updates *)

Section live.

Implicit Types (v : GraphView) (s : LiveGraphView).

Lemma truthy_Some (o : option string) (x : string) :
  truthy o = Some x ↔ o = Some x ∧ x ≠ "".
Proof.
  unfold truthy. destruct o as [y|]; [|split; [done|by intros [? _]]].
  destruct (decide (y = "")) as [->|Hne]; split.
  - done.
  - intros [[= <-] Hx]. done.
  - intros [= <-]. done.
  - by intros [[= <-] _].
Qed.

Lemma resolverConsistent_new : resolverConsistent newGraphView.
Proof. intros id p H. simpl in H. by rewrite lookup_empty in H. Qed.

Lemma resolverConsistent_generate basename path v :
  resolverConsistent v →
  resolverConsistent (generateUniqueNodeId basename path v).2.
Proof.
  intros Hv. unfold generateUniqueNodeId.
  destruct (pathToUniqueId v !! path) as [id0|] eqn:Hpath; [done|].
  cbn [snd]. intros id p. cbn [uniqueIdToPath pathToUniqueId].
  rewrite lookup_insert. case_decide as Hid.
  - intros [= <-]. subst id. by rewrite lookup_insert_eq.
  - intros Hp. apply Hv in Hp. rewrite lookup_insert_ne; [done|]. congruence.
Qed.

Lemma resolverConsistent_delete path uniqueId counter v :
  resolverConsistent v → pathToUniqueId v !! path = Some uniqueId →
  resolverConsistent (mkGraphView (delete path (pathToUniqueId v))
                                  (delete uniqueId (uniqueIdToPath v)) counter).
Proof.
  intros Hv Hpath id p. cbn [uniqueIdToPath pathToUniqueId].
  intros Hp. apply lookup_delete_Some in Hp as [Hne Hp]. apply Hv in Hp.
  rewrite lookup_delete_ne; [done|]. congruence.
Qed.

Lemma resolverConsistent_event s e :
  resolverConsistent (resolver s) → resolverConsistent (resolver (applyLiveEvent s e)).
Proof.
  intros Hv. destruct e as [basename path|file|file oldPath|g]; cbn [applyLiveEvent resolver].
  - by apply resolverConsistent_generate.
  - unfold onNoteDeleted. destruct (gravityGraph s); [|done].
    destruct (getUniqueIdFromPath _ _) as [uniqueId|] eqn:Hid; [|done].
    apply truthy_Some in Hid as [Hid _]. cbn [resolver].
    by apply resolverConsistent_delete.
  - unfold onNoteRenamed. destruct (gravityGraph s); [|done].
    destruct (getUniqueIdFromPath _ _) as [oldUniqueId|] eqn:Hid; [|done].
    apply truthy_Some in Hid as [Hid _].
    pose proof (resolverConsistent_generate (TFile.basename file) (TFile.path file)
                  _ Hv) as Hgen.
    destruct (generateUniqueNodeId _ _ _) as [newUniqueId v1] eqn:Hg.
    cbn [resolver snd] in *.
    intros id p. cbn [uniqueIdToPath pathToUniqueId].
    rewrite lookup_insert. case_decide as Hnew.
    + intros [= <-]. subst id. by rewrite lookup_insert_eq.
    + intros Hp. apply lookup_delete_Some in Hp as [Hold Hp]. apply Hgen in Hp.
      assert (pathToUniqueId v1 !! TFile.path file = Some newUniqueId) as Hnewpath.
      { unfold generateUniqueNodeId in Hg.
        destruct (pathToUniqueId (resolver s) !! TFile.path file) as [id0|] eqn:Hpath.
        - by injection Hg as <- <-.
        - injection Hg as <- <-. cbn [pathToUniqueId]. by rewrite lookup_insert_eq. }
      assert (pathToUniqueId v1 !! oldPath = Some oldUniqueId) as Holdpath.
      { unfold generateUniqueNodeId in Hg.
        destruct (pathToUniqueId (resolver s) !! TFile.path file) as [id0|] eqn:Hpath.
        - by injection Hg as <- <-.
        - injection Hg as <- <-. cbn [pathToUniqueId].
          rewrite lookup_insert_ne; [done|]. congruence. }
      rewrite lookup_insert_ne by congruence.
      rewrite lookup_delete_ne; [done|]. congruence.
  - done.
Qed.

Lemma resolverConsistent_reachable (events : list LiveEvent) (g : option GravityGraph)
    (cache : gmap string (list string)) :
  resolverConsistent
    (resolver (foldl applyLiveEvent (mkLiveGraphView newGraphView g cache) events)).
Proof.
  induction events as [|e events IH] using rev_ind.
  - apply resolverConsistent_new.
  - rewrite foldl_app. by apply resolverConsistent_event.
Qed.

End live.

(** X18.  Whatever notes are resolved, deleted and renamed, an id that
    resolves to a path is the id that path resolves to:
    [getUniqueIdFromPath] undoes [getPathFromUniqueId]. *)
Theorem resolver_round_trip (events : list LiveEvent) (g : option GravityGraph)
    (cache : gmap string (list string)) (uniqueId path : string) :
  let v := resolver (foldl applyLiveEvent (mkLiveGraphView newGraphView g cache) events) in
  getPathFromUniqueId uniqueId v = Some path → uniqueId ≠ "" →
  getUniqueIdFromPath path v = Some uniqueId.
Proof.
  intros v Hpath Hid.
  pose proof (resolverConsistent_reachable events g cache) as Hv. fold v in Hv.
  apply truthy_Some in Hpath as [Hpath _]. apply truthy_Some. split; [|done].
  by apply Hv.
Qed.

Lemma resolver_round_trip_witness :
  let v := resolver (foldl applyLiveEvent (mkLiveGraphView newGraphView None ∅)
                       [EvResolve "a" "x/a.md"; EvResolve "a" "y/a.md"]) in
  getPathFromUniqueId "a (y)" v = Some "y/a.md"
  ∧ getUniqueIdFromPath "y/a.md" v = Some "a (y)".
Proof.
  split; [reflexivity|].
  by apply (resolver_round_trip [EvResolve "a" "x/a.md"; EvResolve "a" "y/a.md"] None ∅).
Defined.

(** X19.  A note that is resolved and then deleted leaves the resolver as it
    was: its path and its id are free again and the counter of its name is
    back (the id being one that was free, as every id but a bare basename
    is, and not the empty string). *)
Theorem resolve_then_delete (file : TFile) (v : GraphView) (g : GravityGraph)
    (cache : gmap string (list string)) :
  let r := generateUniqueNodeId (TFile.basename file) (TFile.path file) v in
  pathToUniqueId v !! TFile.path file = None →
  (nodeNameCounter v !! TFile.basename file = None →
   uniqueIdToPath v !! TFile.basename file = None) →
  nodeNameCounter v !! TFile.basename file ≠ Some 0%nat →
  r.1 ≠ "" →
  resolver (onNoteDeleted file (mkLiveGraphView r.2 (Some g) cache)) = v.
Proof.
  intros r Hpath Hfree Hzero Hid. subst r. unfold generateUniqueNodeId in *.
  rewrite Hpath in *. cbn [fst snd] in *.
  set (count := default 0%nat (nodeNameCounter v !! TFile.basename file)) in *.
  set (uniqueId := if bool_decide (count = 0%nat) then TFile.basename file else _) in *.
  assert (uniqueIdToPath v !! uniqueId = None) as Hu.
  { unfold uniqueId. case_bool_decide as Hc.
    - apply Hfree. unfold count in Hc.
      destruct (nodeNameCounter v !! TFile.basename file) as [n|]; [|done].
      simpl in Hc. by subst n.
    - apply findFreeId_free. }
  unfold onNoteDeleted. cbn [gravityGraph resolver].
  unfold getUniqueIdFromPath. cbn [pathToUniqueId].
  rewrite lookup_insert_eq. unfold truthy.
  destruct (decide (uniqueId = "")) as [?|_]; [done|].
  cbn [resolver pathToUniqueId uniqueIdToPath nodeNameCounter].
  rewrite lookup_insert_eq.
  change (default 0%nat (Some (count + 1)%nat)) with (count + 1)%nat.
  rewrite !delete_insert_eq, (delete_id _ _ Hpath), (delete_id _ _ Hu).
  assert ((if bool_decide (1 < count + 1)%nat
           then <[TFile.basename file:=(count + 1 - 1)%nat]>
                  (<[TFile.basename file:=(count + 1)%nat]> (nodeNameCounter v))
           else delete (TFile.basename file) (nodeNameCounter v))
          = nodeNameCounter v) as ->.
  { unfold count in *.
    destruct (nodeNameCounter v !! TFile.basename file) as [n|] eqn:Hn.
    - assert (n ≠ 0%nat) by congruence.
      change (default 0%nat (Some n)) with n.
      rewrite bool_decide_eq_true_2 by lia.
      rewrite insert_insert_eq. apply insert_id. rewrite Hn. f_equal. lia.
    - change (default 0%nat None) with 0%nat.
      rewrite bool_decide_eq_false_2 by lia. by rewrite delete_id. }
  by destruct v.
Qed.

Lemma resolve_then_delete_witness :
  let v := (generateUniqueNodeId "a" "x/a.md" newGraphView).2 in
  resolver (onNoteDeleted (TFile.mk "y/a.md" "a")
              (mkLiveGraphView (generateUniqueNodeId "a" "y/a.md" v).2
                               (Some newGravityGraph) ∅))
  = v.
Proof.
  apply (resolve_then_delete (TFile.mk "y/a.md" "a")
           (generateUniqueNodeId "a" "x/a.md" newGraphView).2 newGravityGraph ∅);
    done.
Defined.

(** X20.  When a note is renamed, its path resolves to the id the resolver
    gives the new name and that id to the new path; the old path resolves to
    nothing; the node keeps its mesh, now registered under the new id, with
    the new name, id and path in its user data; the links stay.  The counter
    of the old name is not given back: only the counter of the new name can
    change. *)
Theorem onNoteRenamed_moves (file : TFile) (oldPath : string) (s : LiveGraphView)
    (g : GravityGraph) (oldUniqueId : string) (node : MeshRef) :
  wf g → gravityGraph s = Some g →
  getUniqueIdFromPath oldPath (resolver s) = Some oldUniqueId →
  nodes g !! oldUniqueId = Some node →
  let newUniqueId :=
    (generateUniqueNodeId (TFile.basename file) (TFile.path file) (resolver s)).1 in
  let s' := onNoteRenamed file oldPath s in
  pathToUniqueId (resolver s') !! TFile.path file = Some newUniqueId
  ∧ uniqueIdToPath (resolver s') !! newUniqueId = Some (TFile.path file)
  ∧ (oldPath ≠ TFile.path file → pathToUniqueId (resolver s') !! oldPath = None)
  ∧ (∀ name, name ≠ TFile.basename file →
       nodeNameCounter (resolver s') !! name = nodeNameCounter (resolver s) !! name)
  ∧ ∃ g' m,
      gravityGraph s' = Some g'
      ∧ nodes g' !! newUniqueId = Some node
      ∧ (oldUniqueId ≠ newUniqueId → nodes g' !! oldUniqueId = None)
      ∧ links g' = links g
      ∧ heap g !! node = Some m
      ∧ heap g' !! node
        = Some (set_filePath (Some (TFile.path file))
                  (set_uniqueId newUniqueId (set_noteTitle (TFile.basename file) m))).
Proof.
  intros Hwf Hg Hold Hnode newUniqueId s'. subst newUniqueId s'.
  unfold onNoteRenamed. rewrite Hg, Hold.
  assert (∀ name, name ≠ TFile.basename file →
            nodeNameCounter
              (generateUniqueNodeId (TFile.basename file) (TFile.path file) (resolver s)).2
              !! name
            = nodeNameCounter (resolver s) !! name) as Hcounter.
  { intros name Hname. unfold generateUniqueNodeId.
    destruct (pathToUniqueId (resolver s) !! TFile.path file); [done|].
    cbn [snd nodeNameCounter]. by rewrite lookup_insert_ne. }
  destruct (generateUniqueNodeId _ _ _) as [newUniqueId v1]. cbn [fst snd] in *.
  cbn [resolver gravityGraph pathToUniqueId uniqueIdToPath nodeNameCounter].
  rewrite !lookup_insert_eq. do 2 (split; [done|]).
  split; [intros Hne; rewrite lookup_insert_ne by done; apply lookup_delete_eq|].
  split; [done|].
  destruct (wf_heap g Hwf _ _ Hnode) as [m Hm].
  set (g1 := renameNode oldUniqueId newUniqueId (Some (TFile.path file)) g).
  assert (nodes g1 = <[newUniqueId := node]> (delete oldUniqueId (nodes g))
          ∧ links g1 = links g
          ∧ ∃ m1, heap g1 !! node = Some m1
                  ∧ set_filePath (Some (TFile.path file))
                      (set_uniqueId newUniqueId (set_noteTitle (TFile.basename file) m1))
                    = set_filePath (Some (TFile.path file))
                        (set_uniqueId newUniqueId
                           (set_noteTitle (TFile.basename file) m)))
    as (Hn1 & Hl1 & m1 & Hm1 & Hsame).
  { unfold g1, renameNode. rewrite Hnode.
    match goal with |- context [removeLabelForNode _ ?g0] =>
      destruct (removeLabelForNode_frame oldUniqueId g0) as (-> & -> & -> & _)
    end.
    cbn [nodes links heap]. split; [done|]. split; [done|].
    rewrite lookup_alter_eq, Hm. eexists. split; [reflexivity|].
    by destruct (truthy (Some (TFile.path file))). }
  rewrite Hn1, lookup_insert_eq.
  eexists _, m. split; [reflexivity|].
  cbn [nodes links heap with_heap]. rewrite Hn1, Hl1, lookup_insert_eq.
  split; [done|]. split.
  { intros Hne. rewrite lookup_insert_ne by done. apply lookup_delete_eq. }
  split; [done|]. split; [done|].
  by rewrite lookup_alter_eq, Hm1, <-Hsame.
Qed.

Lemma onNoteRenamed_moves_witness :
  let v := (generateUniqueNodeId "a" "a.md" newGraphView).2 in
  let s := mkLiveGraphView v (Some (storeOf (addNode "a" (Some "a.md") (Some "a") 0 0
                                               newGravityGraph))) ∅ in
  let s' := onNoteRenamed (TFile.mk "b.md" "b") "a.md" s in
  pathToUniqueId (resolver s') !! "b.md" = Some "b"
  ∧ nodeNameCounter (resolver s') !! "a" = Some 1%nat.
Proof.
  destruct (onNoteRenamed_moves (TFile.mk "b.md" "b") "a.md"
              (mkLiveGraphView (generateUniqueNodeId "a" "a.md" newGraphView).2
                 (Some (storeOf (addNode "a" (Some "a.md") (Some "a") 0 0
                                   newGravityGraph))) ∅)
              (addNode "a" (Some "a.md") (Some "a") 0 0 newGravityGraph) "a" 0%nat)
    as (Hpath & _ & _ & Hcounter & _).
  - apply wf_addNode, wf_new.
  - reflexivity.
  - reflexivity.
  - reflexivity.
  - split; [exact Hpath|]. by rewrite Hcounter.
Defined.

(** * Properties of the link extraction *)

Section links_of_note.

Implicit Types (s t : string) (p : ascii → bool).

Lemma string_app_cons (c : ascii) s1 s2 : String c s1 +:+ s2 = String c (s1 +:+ s2).
Proof. reflexivity. Qed.

Lemma string_app_assoc s1 s2 s3 : (s1 +:+ s2) +:+ s3 = s1 +:+ s2 +:+ s3.
Proof.
  induction s1 as [|c s1 IH]; [done|]. by rewrite !string_app_cons, IH.
Qed.

Lemma afterPrefix_app s1 s2 : afterPrefix s1 (s1 +:+ s2) = Some s2.
Proof.
  induction s1 as [|c s1 IH]; [done|]. rewrite string_app_cons. simpl.
  destruct (decide (c = c)); [done|congruence].
Qed.

(** A run cannot start at a character outside the class. *)
Lemma plusThen_no_run {A} p (k : string → string → option A) s :
  (s = "" ∨ ∃ c s', s = String c s' ∧ p c = false) → plusThen p k s = None.
Proof. intros [->|(c & s' & -> & Hc)]; simpl; [done|by rewrite Hc]. Qed.

(** The run that is taken when the longest one is followed by a match. *)
Lemma plusThen_run {A} p (k : string → string → option A) t rest r :
  t ≠ "" → allChars p t = true →
  (rest = "" ∨ ∃ c s', rest = String c s' ∧ p c = false) →
  k t rest = Some r → plusThen p k (t +:+ rest) = Some r.
Proof.
  revert k. induction t as [|c t IH]; intros k Ht Hall Hrest Hk; [done|].
  simpl in Hall. apply andb_true_iff in Hall as [Hc Hall]. simpl. rewrite Hc.
  destruct t as [|c' t].
  - simpl. by rewrite plusThen_no_run.
  - by rewrite (IH (λ run rest, k (String c run) rest)).
Qed.

(** What a run that matched consists of. *)
Lemma plusThen_Some {A} p (k : string → string → option A) s r :
  plusThen p k s = Some r →
  ∃ run rest, allChars p run = true ∧ k run rest = Some r.
Proof.
  revert k. induction s as [|c s IH]; intros k; simpl; [done|].
  destruct (p c) eqn:Hc; [|done].
  destruct (plusThen p (λ run rest, k (String c run) rest) s) as [r'|] eqn:Hplus.
  - intros [= ->]. apply IH in Hplus as (run & rest & Hrun & Hk).
    exists (String c run), rest. simpl. by rewrite Hc, Hrun.
  - intros Hk. exists (String c ""), s. simpl. by rewrite Hc.
Qed.

Lemma wikiLinkAt_plain target rest :
  target ≠ "" → allChars notBracketOrBar target = true →
  wikiLinkAt ("[[" +:+ target +:+ "]]" +:+ rest) = Some (target, rest).
Proof.
  intros Ht Hall. unfold wikiLinkAt.
  rewrite afterPrefix_app. cbn [mbind option_bind].
  apply plusThen_run; [done|done| |done].
  right. by exists "]"%char, ("]" +:+ rest).
Qed.

Lemma wikiLinkAt_alias target alias rest :
  target ≠ "" → allChars notBracketOrBar target = true →
  alias ≠ "" → allChars notBracket alias = true →
  wikiLinkAt ("[[" +:+ target +:+ "|" +:+ alias +:+ "]]" +:+ rest) = Some (target, rest).
Proof.
  intros Ht Hall Ha Halias. unfold wikiLinkAt.
  rewrite afterPrefix_app. cbn [mbind option_bind].
  apply plusThen_run; [done|done|right; by exists "|"%char, (alias +:+ "]]" +:+ rest)|].
  rewrite (afterPrefix_app "|"). cbn [mbind option_bind].
  rewrite (plusThen_run notBracket _ alias ("]]" +:+ rest) rest); [done|done|done| |].
  - right. by exists "]"%char, ("]" +:+ rest).
  - apply (afterPrefix_app "]]").
Qed.

Lemma wikiLinkAt_other c s : c ≠ "["%char → wikiLinkAt (String c s) = None.
Proof.
  intros Hc. unfold wikiLinkAt. simpl.
  destruct (decide ("["%char = c)); [congruence|done].
Qed.

Lemma execLoop_skip s1 s2 : execLoop (String.length s1) (s1 +:+ s2) = execLoop 0 s2.
Proof. induction s1 as [|c s1 IH]; [done|]. simpl. apply IH. Qed.

Lemma execLoop_text s1 s2 :
  allChars (λ c, negb (bool_decide (c = "["%char))) s1 = true →
  execLoop 0 (s1 +:+ s2) = execLoop 0 s2.
Proof.
  induction s1 as [|c s1 IH]; [done|]. simpl.
  intros Hall. apply andb_true_iff in Hall as [Hc Hall].
  apply negb_true_iff, bool_decide_eq_false in Hc.
  rewrite (wikiLinkAt_other c) by done. by apply IH.
Qed.

(** The loop at the start of a text that a match opens. *)
Lemma execLoop_match (link rest target : string) :
  wikiLinkAt (link +:+ rest) = Some (target, rest) → link ≠ "" →
  execLoop 0 (link +:+ rest) = linkTargetOf target :: execLoop 0 rest.
Proof.
  intros Hmatch Hlink. destruct link as [|c link]; [done|].
  change (String c link +:+ rest) with (String c (link +:+ rest)) in *.
  cbn [execLoop]. rewrite Hmatch. f_equal.
  rewrite string_app_length.
  replace (String.length link + String.length rest - String.length rest)%nat
    with (String.length link) by lia.
  apply execLoop_skip.
Qed.

End links_of_note.

(** X21.  A wiki link in a note, written after text that holds no opening
    bracket, is the first link [extractLinks] finds, and the search goes on
    right after it: the name is that of the link target (made of one or more
    characters other than a closing bracket and a bar), with or without an
    alias after a bar, which is dropped. *)
Theorem extractLinks_link (text target alias rest : string) :
  allChars (λ c, negb (bool_decide (c = "["%char))) text = true →
  target ≠ "" → allChars notBracketOrBar target = true →
  extractLinks (text +:+ "[[" +:+ target +:+ "]]" +:+ rest)
  = linkTargetOf target :: extractLinks rest
  ∧ (alias ≠ "" → allChars notBracket alias = true →
     extractLinks (text +:+ "[[" +:+ target +:+ "|" +:+ alias +:+ "]]" +:+ rest)
     = linkTargetOf target :: extractLinks rest).
Proof.
  intros Htext Ht Hall. unfold extractLinks. split.
  - rewrite execLoop_text by done.
    rewrite <-(execLoop_match ("[[" +:+ target +:+ "]]") rest target).
    + by rewrite !string_app_assoc.
    + rewrite !string_app_assoc. by apply wikiLinkAt_plain.
    + done.
  - intros Ha Halias. rewrite execLoop_text by done.
    rewrite <-(execLoop_match ("[[" +:+ target +:+ "|" +:+ alias +:+ "]]") rest target).
    + by rewrite !string_app_assoc.
    + rewrite !string_app_assoc. by apply wikiLinkAt_alias.
    + done.
Qed.

Lemma extractLinks_link_witness :
  extractLinks "see [[x/b.md|the note]] and [[c]]" = ["b"; "c"].
Proof.
  destruct (extractLinks_link "see " "x/b.md" "the note" " and [[c]]")
    as [_ Halias]; [done..|].
  change (extractLinks ("see " +:+ "[[" +:+ "x/b.md" +:+ "|" +:+ "the note" +:+ "]]"
                        +:+ " and [[c]]") = ["b"; "c"]).
  rewrite (Halias ltac:(done) eq_refl). reflexivity.
Defined.

Section names_of_links.

Implicit Types (s t : string) (p : ascii → bool).

Lemma allChars_substring p s (n m : nat) :
  allChars p s = true → allChars p (String.substring n m s) = true.
Proof.
  revert n m. induction s as [|c s IH]; intros n m Hall.
  - by destruct n, m.
  - simpl in Hall. apply andb_true_iff in Hall as [Hc Hall].
    destruct n as [|n]; [destruct m as [|m]|]; simpl; [done| |by apply IH].
    by rewrite Hc, IH.
Qed.

Lemma splitSlash_nonempty s : splitSlash s ≠ [].
Proof.
  destruct s as [|c s]; simpl; [done|].
  destruct (decide (c = "/"%char)); [done|]. by destruct (splitSlash s).
Qed.

Lemma splitSlash_chars p s :
  allChars p s = true → Forall (λ segment, allChars p segment = true) (splitSlash s).
Proof.
  induction s as [|c s IH]; simpl; intros Hall.
  - by apply Forall_singleton.
  - apply andb_true_iff in Hall as [Hc Hall]. specialize (IH Hall).
    destruct (decide (c = "/"%char)); [by apply Forall_cons|].
    destruct (splitSlash s) as [|segment rest]; [by apply Forall_singleton; simpl; rewrite Hc|].
    apply Forall_cons in IH as [Hseg Hrest]. apply Forall_cons. split; [|done].
    simpl. by rewrite Hc, Hseg.
Qed.

Lemma splitSlash_no_slash s :
  Forall (λ segment, includes "/" segment = false) (splitSlash s).
Proof.
  induction s as [|c s IH]; simpl.
  - by apply Forall_singleton.
  - destruct (decide (c = "/"%char)) as [->|Hc]; [by apply Forall_cons|].
    destruct (splitSlash s) as [|segment rest].
    + apply Forall_singleton. simpl. by rewrite bool_decide_eq_false_2.
    + apply Forall_cons in IH as [Hseg Hrest]. apply Forall_cons. split; [|done].
      simpl. by rewrite bool_decide_eq_false_2, Hseg.
Qed.

Lemma Forall_last {A} (P : A → Prop) (l : list A) x :
  Forall P l → last l = Some x → P x.
Proof.
  intros Hall Hlast. apply last_Some in Hlast as [l' ->].
  rewrite Forall_app, Forall_singleton in Hall. by destruct Hall.
Qed.

Lemma last_is_Some {A} (l : list A) : l ≠ [] → is_Some (last l).
Proof.
  intros Hl. induction l as [|x l _] using rev_ind; [done|].
  rewrite last_snoc. by eexists.
Qed.

Lemma linkTargetOf_chars p t :
  allChars p t = true → allChars p (linkTargetOf t) = true.
Proof.
  intros Hall. unfold linkTargetOf.
  set (t1 := if endsWith ".md" t then _ else t).
  assert (allChars p t1 = true) as H1.
  { unfold t1. destruct (endsWith ".md" t); [by apply allChars_substring|done]. }
  destruct (includes "/" t1); [|done].
  destruct (last_is_Some (splitSlash t1) (splitSlash_nonempty t1)) as [segment Hlast].
  rewrite Hlast. unfold str_or, truthy.
  destruct (decide (segment = "")); [done|]. simpl.
  apply (Forall_last _ _ _ (splitSlash_chars p t1 H1) Hlast).
Qed.

Lemma linkTargetOf_slash t :
  includes "/" (linkTargetOf t) = true → last (splitSlash (linkTargetOf t)) = Some "".
Proof.
  unfold linkTargetOf.
  set (t1 := if endsWith ".md" t then _ else t).
  destruct (includes "/" t1) eqn:Hslash; [|by rewrite Hslash].
  destruct (last_is_Some (splitSlash t1) (splitSlash_nonempty t1)) as [segment Hlast].
  rewrite Hlast. unfold str_or, truthy.
  destruct (decide (segment = "")) as [->|Hne]; simpl; [done|].
  by rewrite (Forall_last _ _ _ (splitSlash_no_slash t1) Hlast).
Qed.

Lemma wikiLinkAt_target s target rest :
  wikiLinkAt s = Some (target, rest) → allChars notBracketOrBar target = true.
Proof.
  unfold wikiLinkAt. intros H. apply bind_Some in H as (s1 & _ & H).
  apply plusThen_Some in H as (run & s2 & Hrun & H).
  destruct (_ ≫= _) as [rest'|].
  - by injection H as <- _.
  - apply bind_Some in H as (rest' & _ & H). by injection H as <- _.
Qed.

Lemma execLoop_names (skip : nat) content name :
  name ∈ execLoop skip content →
  ∃ target, allChars notBracketOrBar target = true ∧ name = linkTargetOf target.
Proof.
  revert skip. induction content as [|c content IH]; intros skip; simpl.
  - intros H. by apply elem_of_nil in H.
  - destruct skip as [|skip]; [|apply IH].
    destruct (wikiLinkAt (String c content)) as [[target rest]|] eqn:Hmatch; [|apply IH].
    intros H. apply elem_of_cons in H as [->|H]; [|by eapply IH].
    exists target. split; [|done]. by eapply wikiLinkAt_target.
Qed.

End names_of_links.

(** X22.  No name that [extractLinks] returns holds a closing bracket or a
    bar, and a name holds a slash only when it ends with one (then the link
    text ended with a slash and is returned whole; of any other path the
    last segment alone is returned). *)
Theorem extractLinks_names (content name : string) :
  name ∈ extractLinks content →
  allChars notBracketOrBar name = true
  ∧ (includes "/" name = true → last (splitSlash name) = Some "").
Proof.
  intros Hin. apply execLoop_names in Hin as (target & Hall & ->).
  split; [by apply linkTargetOf_chars|apply linkTargetOf_slash].
Qed.

Lemma extractLinks_names_witness :
  extractLinks "[[d/e/]] [[f|g]]" = ["d/e/"; "f"]
  ∧ allChars notBracketOrBar "d/e/" = true
  ∧ last (splitSlash "d/e/") = Some "".
Proof.
  assert (extractLinks "[[d/e/]] [[f|g]]" = ["d/e/"; "f"]) as Heq by reflexivity.
  split; [exact Heq|].
  destruct (extractLinks_names "[[d/e/]] [[f|g]]" "d/e/") as [Hchars Hslash].
  - rewrite Heq. apply list_elem_of_here.
  - split; [exact Hchars|]. apply Hslash. reflexivity.
Defined.

(** * Properties of the colours of folders *)

Section folders.

Implicit Types (s t : string) (parts : list string).

Lemma splitSlash_single s : includes "/" s = false → splitSlash s = [s].
Proof.
  induction s as [|c s IH]; simpl; [done|].
  intros H. apply orb_false_iff in H as [Hc H]. apply bool_decide_eq_false in Hc.
  destruct (decide (c = "/"%char)); [done|]. by rewrite IH.
Qed.

Lemma splitSlash_app s t :
  includes "/" s = false → splitSlash (s +:+ "/" +:+ t) = s :: splitSlash t.
Proof.
  induction s as [|c s IH]; [done|]. rewrite string_app_cons. simpl.
  intros H. apply orb_false_iff in H as [Hc H]. apply bool_decide_eq_false in Hc.
  destruct (decide (c = "/"%char)); [done|]. by rewrite IH.
Qed.

Lemma concat_cons_cons (x y : string) parts :
  String.concat "/" (x :: y :: parts) = x +:+ "/" +:+ String.concat "/" (y :: parts).
Proof. reflexivity. Qed.

(** [split] undoes [join] on folder names. *)
Lemma splitSlash_concat parts :
  parts ≠ [] → Forall folderName parts → splitSlash (String.concat "/" parts) = parts.
Proof.
  induction parts as [|x parts IH]; [done|]. intros _ Hall.
  apply Forall_cons in Hall as [[_ Hx] Hall].
  destruct parts as [|y parts]; [by apply splitSlash_single|].
  rewrite concat_cons_cons, splitSlash_app by done. f_equal. by apply IH.
Qed.

(** [join] undoes [split]. *)
Lemma concat_splitSlash s : String.concat "/" (splitSlash s) = s.
Proof.
  induction s as [|c s IH]; [done|]. simpl.
  destruct (decide (c = "/"%char)) as [->|Hc].
  - pose proof (splitSlash_nonempty s) as Hne.
    destruct (splitSlash s) as [|y l]; [done|]. by rewrite concat_cons_cons, IH.
  - pose proof (splitSlash_nonempty s) as Hne.
    destruct (splitSlash s) as [|segment [|y l]]; [done|simpl in *; by rewrite IH|].
    rewrite !concat_cons_cons in *. by rewrite string_app_cons, IH.
Qed.

Lemma concat_folderNames_head (x : string) parts :
  folderName x → ∃ c t, String.concat "/" (x :: parts) = String c t ∧ c ≠ "/"%char.
Proof.
  intros [Hx Hslash]. destruct x as [|c x]; [done|].
  simpl in Hslash. apply orb_false_iff in Hslash as [Hc _].
  apply bool_decide_eq_false in Hc.
  destruct parts as [|y parts]; [by exists c, x|].
  rewrite concat_cons_cons, string_app_cons. by eexists c, _.
Qed.

Lemma filter_folderNames parts :
  Forall folderName parts →
  filter (λ part, (0 < String.length part)%nat) parts = parts.
Proof.
  induction 1 as [|x parts [Hx _] _ IH]; [done|].
  rewrite filter_cons_True, IH; [done|]. destruct x; [done|simpl; lia].
Qed.

(** The hierarchy of a path made of folder names. *)
Lemma getFolderHierarchy_concat parts :
  parts ≠ [] → Forall folderName parts →
  getFolderHierarchy (String.concat "/" parts) = hierarchyOf parts.
Proof.
  intros Hne Hall. unfold getFolderHierarchy, hierarchyOf.
  destruct parts as [|x parts]; [done|].
  apply Forall_cons in Hall as Hall'. destruct Hall' as [Hx _].
  destruct (concat_folderNames_head x parts Hx) as (c & t & Heq & Hc).
  rewrite bool_decide_eq_false_2.
  - by rewrite splitSlash_concat, filter_folderNames.
  - rewrite Heq. intros [?|[= -> _]]; done.
Qed.

Lemma hierarchyOf_snoc parts (x : string) :
  hierarchyOf (parts ++ [x]) = hierarchyOf parts ++ [String.concat "/" (parts ++ [x])].
Proof.
  unfold hierarchyOf. rewrite length_app. simpl.
  rewrite Nat.add_1_r, seq_S, fmap_app. simpl. f_equal.
  - apply list_fmap_ext. intros i j Hj. apply lookup_seq in Hj as [-> Hj].
    simpl. f_equal. by rewrite take_app_le by lia.
  - do 2 f_equal. rewrite firstn_all2; [done|]. rewrite length_app. simpl. lia.
Qed.

Lemma hierarchyOf_take parts (i : nat) :
  (i < length parts)%nat → hierarchyOf (take (S i) parts) = take (S i) (hierarchyOf parts).
Proof.
  intros Hi. unfold hierarchyOf. rewrite length_take, <-fmap_take.
  replace (S i `min` length parts)%nat with (S i) by lia.
  replace (take (S i) (seq 0 (length parts))) with (seq 0 (S i)).
  - apply list_fmap_ext. intros k j Hj. apply lookup_seq in Hj as [-> Hj].
    simpl. f_equal. by rewrite take_take, Nat.min_l by lia.
  - rewrite take_seq. f_equal. lia.
Qed.

Lemma folderNames_of_path s :
  Forall folderName (filter (λ part, (0 < String.length part)%nat) (splitSlash s)).
Proof.
  apply Forall_forall. intros x Hx. apply list_elem_of_filter in Hx as [Hlen Hx].
  split; [by destruct x; [simpl in Hlen; lia|]|].
  pose proof (splitSlash_no_slash s) as Hall.
  by apply (proj1 (Forall_forall _ _) Hall).
Qed.

Lemma getFolderHierarchy_hierarchyOf s :
  ∃ parts, Forall folderName parts ∧ getFolderHierarchy s = hierarchyOf parts.
Proof.
  unfold getFolderHierarchy. case_bool_decide.
  - by exists [].
  - eexists. split; [apply folderNames_of_path|done].
Qed.

End folders.

(** X23.  The hierarchy of a folder lists the folder's ancestors from the
    top down, each with its own ancestors before it: the hierarchy of the
    entry at position [i] is the hierarchy up to that position. *)
Theorem getFolderHierarchy_closed (folderPath entry : string) (i : nat) :
  getFolderHierarchy folderPath !! i = Some entry →
  getFolderHierarchy entry = take (S i) (getFolderHierarchy folderPath).
Proof.
  destruct (getFolderHierarchy_hierarchyOf folderPath) as (parts & Hall & ->).
  intros Hi.
  assert (i < length parts)%nat as Hlt.
  { apply lookup_lt_Some in Hi. unfold hierarchyOf in Hi.
    by rewrite length_fmap, length_seq in Hi. }
  unfold hierarchyOf in Hi. rewrite list_lookup_fmap, lookup_seq_lt in Hi by done.
  injection Hi as <-.
  rewrite getFolderHierarchy_concat.
  - by apply hierarchyOf_take.
  - destruct parts; [simpl in Hlt; lia|done].
  - by apply Forall_take.
Qed.

Lemma getFolderHierarchy_closed_witness :
  getFolderHierarchy "a/b//c/" = ["a"; "a/b"; "a/b/c"]
  ∧ getFolderHierarchy "a/b" = ["a"; "a/b"].
Proof.
  split; [reflexivity|].
  by rewrite (getFolderHierarchy_closed "a/b//c/" "a/b" 1).
Defined.

Section folder_colors.

Implicit Types (s t : string) (parts : list string).

Lemma lastIndexOf_none (c : ascii) s : includes c s = false → lastIndexOf c s = None.
Proof.
  induction s as [|a s IH]; simpl; [done|].
  intros H. apply orb_false_iff in H as [Ha H]. apply bool_decide_eq_false in Ha.
  rewrite IH by done. by destruct (decide (a = c)).
Qed.

Lemma lastIndexOf_app s t :
  includes "/" t = false →
  lastIndexOf "/" (s +:+ "/" +:+ t) = Some (String.length s).
Proof.
  intros Ht. induction s as [|a s IH].
  - simpl. by rewrite lastIndexOf_none.
  - rewrite string_app_cons. simpl. by rewrite IH.
Qed.

Lemma substring_prefix s t : String.substring 0 (String.length s) (s +:+ t) = s.
Proof.
  induction s as [|a s IH]; [by destruct t|].
  rewrite string_app_cons. simpl. by rewrite IH.
Qed.

Lemma folderPathOf_file s t :
  includes "/" t = false → folderPathOf (s +:+ "/" +:+ t) = s.
Proof.
  intros Ht. unfold folderPathOf. rewrite lastIndexOf_app by done.
  apply substring_prefix.
Qed.

(** The colour of a file in the folder with the segments [parts]. *)
Lemma getNodeColorForFile_in parts (name : string) settings :
  parts ≠ [] → Forall folderName parts → includes "/" name = false →
  getNodeColorForFile (String.concat "/" parts +:+ "/" +:+ name) settings
  = default (OwnValue (defaultNodeColorHex settings))
            (firstFolderColor (folderColors settings) (reverse (hierarchyOf parts))).
Proof.
  intros Hne Hall Hname. unfold getNodeColorForFile.
  rewrite folderPathOf_file by done.
  rewrite getFolderHierarchy_concat by done.
  destruct parts as [|x parts]; [done|].
  apply Forall_cons in Hall as [Hx _].
  destruct (concat_folderNames_head x parts Hx) as (c & t & -> & _).
  by rewrite bool_decide_eq_false_2.
Qed.

End folder_colors.

(** X24.  The colour of folders is inherited.  A file in a folder takes the
    colour set for that folder; when none is set there (no entry, an empty
    one or ['inherited']) it takes the colour a file of the same name has
    in the parent folder, and the default colour when the folder has no
    parent.  A file outside every folder takes the default colour. *)
Theorem folder_color_inheritance (parts : list string) (segment name : string)
    (settings : FolderColorSettings) :
  Forall folderName parts → folderName segment → includes "/" name = false →
  let folder := String.concat "/" (parts ++ [segment]) in
  getNodeColorForFile (folder +:+ "/" +:+ name) settings
  = match usableColor (objectGet (folderColors settings) folder) with
    | Some color => color
    | None =>
        match parts with
        | [] => OwnValue (defaultNodeColorHex settings)
        | _ => getNodeColorForFile (String.concat "/" parts +:+ "/" +:+ name) settings
        end
    end
  ∧ getNodeColorForFile name settings = OwnValue (defaultNodeColorHex settings).
Proof.
  intros Hparts Hsegment Hname folder. split.
  - unfold folder. rewrite getNodeColorForFile_in; [| |apply Forall_app|done].
    + rewrite hierarchyOf_snoc, reverse_snoc. cbn [firstFolderColor].
      destruct (usableColor _) as [color|]; [done|].
      destruct parts as [|x parts]; [done|].
      by rewrite getNodeColorForFile_in.
    + by destruct parts.
    + split; [done|]. by apply Forall_singleton.
  - unfold getNodeColorForFile, folderPathOf.
    by rewrite lastIndexOf_none.
Qed.

Lemma folder_color_inheritance_witness :
  let settings := mkFolderColorSettings {["a" := "#ff0000"; "a/b" := "inherited"]}
                                        "#ffffff" in
  getNodeColorForFile "a/b/note.md" settings = getNodeColorForFile "a/note.md" settings
  ∧ getNodeColorForFile "a/note.md" settings = OwnValue "#ff0000".
Proof.
  destruct (folder_color_inheritance ["a"] "b" "note.md"
              (mkFolderColorSettings {["a" := "#ff0000"; "a/b" := "inherited"]} "#ffffff"))
    as [Hb _]; [|done|done|].
  - apply Forall_singleton. done.
  - split; [exact Hb|reflexivity].
Defined.

(** * The pool of the particle flow system *)

Section particle_pool.

Implicit Types (s : LinkParticleSystem) (ms : gmap ParticleRef ParticleMesh).

Lemma visible_alter_hide ms (k r : ParticleRef) :
  visible (alter hide k ms !!! r) = if decide (k = r) then false else visible (ms !!! r).
Proof.
  rewrite !lookup_total_alt. case_decide as Hk.
  - subst k. rewrite lookup_alter_eq. by destruct (ms !! r).
  - by rewrite lookup_alter_ne.
Qed.

Lemma visible_alter_keep (f : ParticleMesh → ParticleMesh) ms (k r : ParticleRef) :
  (∀ m, visible (f m) = visible m) →
  visible (alter f k ms !!! r) = visible (ms !!! r).
Proof.
  intros Hf. rewrite !lookup_total_alt. destruct (decide (k = r)) as [->|Hk].
  - rewrite lookup_alter_eq. destruct (ms !! r); simpl; [apply Hf|done].
  - by rewrite lookup_alter_ne.
Qed.

Lemma visible_clear (l : list Particle) ms (r : ParticleRef) :
  visible (foldl (λ ms particle, alter hide (mesh particle) ms) ms l !!! r)
  = if decide (r ∈ mesh <$> l) then false else visible (ms !!! r).
Proof.
  revert ms. induction l as [|particle l IH]; intros ms.
  - cbn [foldl]. destruct (decide (r ∈ mesh <$> [])) as [H|H]; [|done].
    by apply elem_of_nil in H.
  - cbn [foldl]. rewrite IH, visible_alter_hide, fmap_cons.
    destruct (decide (r ∈ mesh <$> l)) as [H1|H1],
             (decide (r ∈ mesh particle :: (mesh <$> l))) as [H2|H2],
             (decide (mesh particle = r)) as [H3|H3]; try done.
    + exfalso. apply H2. by apply list_elem_of_further.
    + exfalso. apply H2. by apply list_elem_of_further.
    + exfalso. apply elem_of_cons in H2 as [?|?]; congruence.
    + exfalso. apply H2. subst r. apply list_elem_of_here.
Qed.

(** The loop of [update] over the particles, when no two of them hold the
    same mesh: the meshes of the particles it keeps are meshes of the
    particles it was given, in their order; it hides the mesh of a particle
    it drops and changes the visibility of no other mesh. *)
Lemma advance_particles nodeHeap deltaTime currentTime (l : list (nat * Particle)) ms0 :
  NoDup (mesh <$> l.*2) →
  let st := foldr (advanceParticle nodeHeap deltaTime currentTime) (ms0, []) l in
  sublist (mesh <$> st.2) (mesh <$> l.*2)
  ∧ ∀ r, (r ∈ mesh <$> l.*2 → r ∉ mesh <$> st.2 → visible (st.1 !!! r) = false)
         ∧ (r ∉ mesh <$> l.*2 ∨ r ∈ mesh <$> st.2 →
            visible (st.1 !!! r) = visible (ms0 !!! r)).
Proof.
  induction l as [|[i particle] l IH]; intros Hnd.
  - simpl. split; [done|]. intros r. split.
    + intros H. by apply elem_of_nil in H.
    + done.
  - rewrite !fmap_cons in Hnd. cbn [snd] in Hnd.
    apply NoDup_cons in Hnd as [Hnew Hnd]. specialize (IH Hnd).
    cbn [foldr]. cbv zeta in IH.
    destruct (foldr _ _ l) as [ms kept]. cbn [fst snd] in *.
    destruct IH as [Hsub Hvis]. rewrite !fmap_cons. cbn [snd].
    assert (mesh particle ∉ mesh <$> kept) as Hnotkept.
    { intros Hk. apply Hnew. by apply (sublist_subseteq _ _ Hsub). }
    unfold advanceParticle. destruct (_ || _); cbn [fst snd].
    + split; [by apply sublist_cons|]. intros r.
      rewrite visible_alter_hide.
      destruct (decide (mesh particle = r)) as [<-|Hne].
      * split; [done|]. intros [H|H]; [|done].
        exfalso. apply H. apply list_elem_of_here.
      * destruct (Hvis r) as [Hv1 Hv2]. split.
        -- intros Hin Hout. apply elem_of_cons in Hin as [?|Hin]; [congruence|].
           by apply Hv1.
        -- intros [Hout|Hin]; apply Hv2; [left|by right].
           intros Hin. apply Hout. by apply list_elem_of_further.
    + rewrite fmap_cons. cbn [mesh].
      split; [by apply sublist_skip|]. intros r.
      rewrite visible_alter_keep by done.
      destruct (Hvis r) as [Hv1 Hv2].
      destruct (decide (mesh particle = r)) as [<-|Hne].
      * split.
        -- intros _ Hout. exfalso. apply Hout. apply list_elem_of_here.
        -- intros _. apply Hv2. by left.
      * split.
        -- intros Hin Hout. apply elem_of_cons in Hin as [?|Hin]; [congruence|].
           apply Hv1; [done|]. intros Hk. apply Hout. by apply list_elem_of_further.
        -- intros [Hout|Hin]; apply Hv2.
           ++ left. intros Hin. apply Hout. by apply list_elem_of_further.
           ++ apply elem_of_cons in Hin as [?|Hin]; [congruence|]. by right.
Qed.

Lemma imap_pair_snd {A} (l : list A) : (imap (λ i x, (i, x)) l).*2 = l.
Proof.
  assert (∀ (f : nat → nat), (imap (λ i x, (f i, x)) l).*2 = l) as H.
  { induction l as [|x l IH]; intros f; [done|]. simpl. f_equal.
    apply (IH (f ∘ S)). }
  apply (H (λ i, i)).
Qed.

Lemma particlesExclusive_initializeParticlePool s :
  particlesExclusive (initializeParticlePool s).
Proof.
  unfold initializeParticlePool.
  destruct (iter_allocateSlot (maxParticles s) (dispose s))
    as (_ & Hp & Hl & Hm & _ & _ & Hnew & _).
  cbn [particlePool particles maxParticles dispose clearParticles nextMesh app] in *.
  split; rewrite ?Hp, ?Hl, ?Hm.
  - apply NoDup_nil_2.
  - intros r Hr. by apply elem_of_nil in Hr.
  - apply NoDup_seq.
  - intros r Hr. rewrite lookup_total_alt, (Hnew r Hr). simpl. split; [done|].
    intros H. by apply elem_of_nil in H.
  - right. apply length_seq.
Qed.

Lemma particlesExclusive_spawnParticle nodeHeap link0 rnd s :
  particlesWf s → particlesExclusive s →
  particlesExclusive (spawnParticle nodeHeap link0 rnd s).
Proof.
  intros [Halloc _] [Hnd Hpooled Hpool Hvis Hsize]. unfold spawnParticle.
  case_bool_decide; [done|].
  destruct (find _ _) as [r|] eqn:Hfind; [|done].
  apply find_some in Hfind as [Hin Hhidden]. apply list_elem_of_In in Hin.
  apply negb_true_iff in Hhidden.
  assert (r ∉ mesh <$> particles s) as Hfree.
  { intros Hr. apply (Hvis r Hin) in Hr. congruence. }
  destruct (Halloc r Hin) as [m Hm].
  split; cbn [particles particlePool meshes maxParticles].
  - rewrite fmap_app. apply NoDup_app. split; [done|]. split.
    + intros r' Hr' Hr. apply list_elem_of_singleton in Hr. simpl in Hr. by subst r'.
    + apply NoDup_singleton.
  - intros r'. rewrite fmap_app, elem_of_app. intros [Hr'|Hr']; [by apply Hpooled|].
    apply list_elem_of_singleton in Hr'. simpl in Hr'. by subst r'.
  - done.
  - intros r' Hr'. rewrite fmap_app, elem_of_app. cbn [fmap list_fmap mesh].
    rewrite list_elem_of_singleton.
    destruct (decide (r' = r)) as [->|Hne].
    + rewrite lookup_total_alt, lookup_alter_eq, Hm. simpl. split; [by right|done].
    + rewrite lookup_total_alt, lookup_alter_ne, <-lookup_total_alt by done.
      rewrite (Hvis r' Hr'). split; [by left|]. by intros [?|?].
  - done.
Qed.

Lemma particlesExclusive_update nodeHeap deltaTime currentTime links0 shuffledLinks s :
  particlesExclusive s →
  particlesExclusive (update nodeHeap deltaTime currentTime links0 shuffledLinks s).1.
Proof.
  intros [Hnd Hpooled Hpool Hvis Hsize]. unfold update.
  pose proof (advance_particles nodeHeap deltaTime currentTime
                (imap (λ i particle, (i, particle)) (particles s)) (meshes s)) as Hadv.
  rewrite imap_pair_snd in Hadv. specialize (Hadv Hnd). cbv zeta in Hadv.
  destruct (foldr _ _ _) as [ms kept]. cbn [fst snd] in *.
  destruct Hadv as [Hsub Hv].
  split; cbn [particles particlePool meshes maxParticles]; [| |done| |done].
  - apply (sublist_NoDup _ _ Hnd Hsub).
  - intros r Hr. apply Hpooled. by apply (sublist_subseteq _ _ Hsub).
  - intros r Hr. destruct (Hv r) as [Hv1 Hv2].
    destruct (decide (r ∈ mesh <$> kept)) as [Hin|Hout].
    + rewrite Hv2 by (by right). rewrite (Hvis r Hr).
      split; [done|]. intros _. by apply (sublist_subseteq _ _ Hsub).
    + destruct (decide (r ∈ mesh <$> particles s)) as [Hin'|Hout'].
      * rewrite Hv1 by done. split; [done|]. done.
      * rewrite Hv2 by (by left). rewrite (Hvis r Hr). split; [done|]. done.
Qed.

Lemma particlesExclusive_clearParticles s :
  particlesExclusive s → particlesExclusive (clearParticles s).
Proof.
  intros [Hnd Hpooled Hpool Hvis Hsize].
  split; cbn [particles particlePool meshes maxParticles clearParticles]; [| |done| |done].
  - apply NoDup_nil_2.
  - intros r Hr. by apply elem_of_nil in Hr.
  - intros r Hr. rewrite visible_clear. case_decide as Hin.
    + split; [done|]. intros H. by apply elem_of_nil in H.
    + rewrite (Hvis r Hr). split; [done|]. intros H. by apply elem_of_nil in H.
Qed.

Lemma particlesExclusive_applyParticleOp s op :
  particlesWf s → particlesExclusive s → particlesExclusive (applyParticleOp s op).
Proof.
  intros Hwf Hex. destruct op; cbn [applyParticleOp].
  - by apply particlesExclusive_spawnParticle.
  - by apply particlesExclusive_update.
  - by destruct Hex.
  - by destruct Hex.
  - apply particlesExclusive_initializeParticlePool.
  - by apply particlesExclusive_clearParticles.
  - split; cbn [particles particlePool dispose clearParticles];
      try apply NoDup_nil_2; try (intros r Hr; by apply elem_of_nil in Hr).
    by left.
Qed.

Lemma particlesExclusive_reachable maxParticles0 (ops : list ParticleOp) :
  particlesExclusive (foldl applyParticleOp (newLinkParticleSystem maxParticles0) ops).
Proof.
  induction ops as [|op ops IH] using rev_ind.
  - apply particlesExclusive_initializeParticlePool.
  - rewrite foldl_app. apply particlesExclusive_applyParticleOp; [|done].
    apply particlesWf_reachable.
Qed.

End particle_pool.

(** X25.  In every state the particle system reaches, no two particles in
    flight hold the same mesh, every mesh in flight is a mesh of the pool,
    and a mesh of the pool is visible exactly when a particle in flight
    holds it. *)
Theorem particle_meshes_exclusive (maxParticles0 : nat) (ops : list ParticleOp) :
  let s := foldl applyParticleOp (newLinkParticleSystem maxParticles0) ops in
  NoDup (mesh <$> particles s)
  ∧ NoDup (particlePool s)
  ∧ (∀ particle, particle ∈ particles s → mesh particle ∈ particlePool s)
  ∧ (∀ r, r ∈ particlePool s →
       (visible (meshes s !!! r) = true ↔ r ∈ mesh <$> particles s)).
Proof.
  intros s.
  destruct (particlesExclusive_reachable maxParticles0 ops)
    as [Hnd Hpooled Hpool Hvis _]. fold s in Hnd, Hpooled, Hpool, Hvis.
  split; [done|]. split; [done|]. split; [|done].
  intros particle Hin. apply Hpooled. apply list_elem_of_fmap. by exists particle.
Qed.

(** X26.  A spawn below the limit succeeds.  As long as the pool is in place
    and fewer than [maxParticles] particles are in flight, the pool has an
    idle mesh, and [spawnParticle] puts a particle on it: the particle
    starts at the [from] end of its link, with progress 0, and its mesh is
    shown there. *)
Theorem spawn_takes_idle_mesh (maxParticles0 : nat) (ops : list ParticleOp)
    (nodeHeap : gmap MeshRef PhysicsMesh) (link0 : ParticleLink) (rnd : R) :
  let s := foldl applyParticleOp (newLinkParticleSystem maxParticles0) ops in
  particlePool s ≠ [] → (length (particles s) < maxParticles s)%nat →
  ∃ r, r ∈ particlePool s
    ∧ visible (meshes s !!! r) = false
    ∧ let s' := spawnParticle nodeHeap link0 rnd s in
      particles s'
      = particles s ++ [mkParticle r link0 0 (3 / 10 + rnd * (4 / 10)) 1%Z]
      ∧ visible (meshes s' !!! r) = true
      ∧ meshPosition (meshes s' !!! r) = position (deref nodeHeap (linkFrom link0)).
Proof.
  intros s Hpool Hbelow.
  destruct (particlesExclusive_reachable maxParticles0 ops)
    as [Hnd Hpooled Hdistinct Hvis Hsize].
  destruct (particlesWf_reachable maxParticles0 ops) as [Halloc _].
  fold s in Hnd, Hpooled, Hdistinct, Hvis, Hsize, Halloc.
  destruct Hsize as [?|Hsize]; [done|].
  unfold spawnParticle. rewrite bool_decide_eq_false_2 by lia.
  destruct (find _ _) as [r|] eqn:Hfind.
  - apply find_some in Hfind as [Hin Hhidden]. apply list_elem_of_In in Hin.
    apply negb_true_iff in Hhidden. destruct (Halloc r Hin) as [m Hm].
    exists r. split; [done|]. split; [done|].
    cbn [particles meshes]. split; [done|].
    rewrite lookup_total_alt, lookup_alter_eq, Hm. cbn [default from_option fmap option_fmap option_map].
    split; [done|]. cbn [show place meshPosition].
    unfold particlePosition. cbn [direction link progress linkFrom linkTo].
    rewrite !bool_decide_eq_true_2 by done.
    apply vector_eq; unfold Vector3.lerpVectors; simpl; ring.
  - exfalso.
    assert (∀ r, r ∈ particlePool s → r ∈ mesh <$> particles s) as Hall.
    { intros r Hr. apply (Hvis r Hr).
      pose proof (find_none _ _ Hfind r) as Hn.
      rewrite <-list_elem_of_In in Hn. specialize (Hn Hr).
      by apply negb_false_iff in Hn. }
    pose proof (submseteq_length _ _ (NoDup_submseteq _ _ Hdistinct Hall)) as Hlen.
    rewrite length_fmap in Hlen. lia.
Qed.

Lemma spawn_takes_idle_mesh_witness :
  ∃ r, particles (spawnParticle ∅ (mkParticleLink 0 1) 0 (newLinkParticleSystem 2))
       = [mkParticle r (mkParticleLink 0 1) 0 (3 / 10 + 0 * (4 / 10)) 1%Z].
Proof.
  destruct (spawn_takes_idle_mesh 2 [] ∅ (mkParticleLink 0 1) 0) as (r & _ & _ & Hs & _).
  - done.
  - simpl. lia.
  - by exists r.
Defined.

(** * Moving with the wheel comes to rest *)

Section wheel.

Implicit Types (w : WheelState).

Lemma wheelFrames_idle directions w :
  wheelAnimating w = false → wheelFrames directions w = w.
Proof.
  intros Hidle. unfold wheelFrames.
  induction directions as [|d directions IH]; [done|].
  cbn [foldl]. by rewrite Hidle.
Qed.

Lemma smoothMove_offset d w :
  Vector3.sub (cameraPosition (smoothMove d w)) (controlsTarget (smoothMove d w))
  = Vector3.sub (cameraPosition w) (controlsTarget w).
Proof.
  unfold smoothMove. destruct (Rgtb _ _); [|done]. cbn [cameraPosition controlsTarget].
  apply vector_eq;
    unfold addScaledVector, Vector3.sub, Vector3.add, Vector3.multiplyScalar; simpl; ring.
Qed.

Lemma wheelFrames_offset directions w :
  Vector3.sub (cameraPosition (wheelFrames directions w))
              (controlsTarget (wheelFrames directions w))
  = Vector3.sub (cameraPosition w) (controlsTarget w).
Proof.
  unfold wheelFrames. revert w.
  induction directions as [|d directions IH]; intros w; [done|].
  cbn [foldl]. rewrite IH. destruct (wheelAnimating w); [|done].
  apply smoothMove_offset.
Qed.

(** A glide whose speed falls to 0.1 within [n] frames is over after
    [n + 1] frames. *)
Lemma wheelFrames_stops (n : nat) w directions :
  (wheelAnimating w = true → Rabs (currentWheelVelocity w) * (90 / 100) ^ n <= 1 / 10) →
  (n < length directions)%nat →
  wheelAnimating (wheelFrames directions w) = false
  ∧ (wheelAnimating w = true → currentWheelVelocity (wheelFrames directions w) = 0).
Proof.
  revert w directions. induction n as [|n IH]; intros w directions Hslow Hlen;
    (destruct directions as [|d directions]; [simpl in Hlen; lia|]);
    (destruct (wheelAnimating w) eqn:Hanim;
       [|rewrite wheelFrames_idle by done; by split]);
    specialize (Hslow eq_refl); unfold wheelFrames; cbn [foldl]; rewrite Hanim;
    fold (wheelFrames directions (smoothMove d w)).
  - assert (Rgtb (Rabs (currentWheelVelocity w)) (1 / 10) = false) as Hstop.
    { apply Rgtb_false. simpl in Hslow. lra. }
    unfold smoothMove. rewrite Hstop. by rewrite wheelFrames_idle.
  - unfold smoothMove.
    destruct (Rgtb (Rabs (currentWheelVelocity w)) (1 / 10)) eqn:Hfast.
    + destruct (IH {| currentWheelVelocity := currentWheelVelocity w * (90 / 100);
                      wheelAnimating := true;
                      cameraPosition :=
                        addScaledVector (cameraPosition w) d (currentWheelVelocity w);
                      controlsTarget :=
                        addScaledVector (controlsTarget w) d (currentWheelVelocity w) |}
                   directions) as [Hidle Hzero].
      * intros _. cbn [currentWheelVelocity].
        rewrite Rabs_mult, (Rabs_right (90 / 100)) by lra.
        simpl in Hslow. lra.
      * simpl in Hlen. lia.
      * split; [done|]. intros _. by apply Hzero.
    + by rewrite wheelFrames_idle.
Qed.

(** Left alone, a glide is over after some number of frames. *)
Lemma wheelFrames_rest w :
  ∃ N, ∀ directions, (N ≤ length directions)%nat →
    wheelAnimating (wheelFrames directions w) = false
    ∧ (wheelAnimating w = true → currentWheelVelocity (wheelFrames directions w) = 0).
Proof.
  set (v := Rabs (currentWheelVelocity w)).
  assert (0 <= v) as Hv by apply Rabs_pos.
  destruct (pow_lt_1_zero (90 / 100)) with (y := 1 / 10 / (v + 1)) as [n Hn].
  - rewrite Rabs_right; lra.
  - apply Rdiv_lt_0_compat; lra.
  - exists (S n). intros directions Hlen.
    destruct (wheelFrames_stops n w directions) as [Hidle Hzero]; [|lia|].
    + intros _. fold v. specialize (Hn n (le_n n)).
      rewrite Rabs_right in Hn by (apply Rle_ge, pow_le; lra).
      assert (0 <= (90 / 100) ^ n) as Hpow by (apply pow_le; lra).
      assert ((90 / 100) ^ n * (v + 1) < 1 / 10) as Hlt.
      { apply (Rmult_lt_compat_r (v + 1)) in Hn; [|lra].
        unfold Rdiv in Hn at 2. rewrite Rmult_assoc, Rinv_l, Rmult_1_r in Hn by lra.
        exact Hn. }
      nra.
    + by split.
Qed.

Lemma handleWheelMovement_offset deltaY d w :
  Vector3.sub (cameraPosition (handleWheelMovement deltaY d w))
              (controlsTarget (handleWheelMovement deltaY d w))
  = Vector3.sub (cameraPosition w) (controlsTarget w).
Proof.
  unfold handleWheelMovement. cbv zeta. destruct (wheelAnimating w); [done|].
  by rewrite smoothMove_offset.
Qed.

(** After a wheel event either a frame is requested or the velocity is 0. *)
Lemma handleWheelMovement_state deltaY d w :
  wheelAnimating (handleWheelMovement deltaY d w) = false →
  currentWheelVelocity (handleWheelMovement deltaY d w) = 0.
Proof.
  unfold handleWheelMovement. cbv zeta. destruct (wheelAnimating w) eqn:Hanim.
  - cbn [wheelAnimating]. intros Hidle. congruence.
  - unfold smoothMove. by destruct (Rgtb _ _).
Qed.

End wheel.

(** X27.  Moving with the wheel comes to rest.  After a wheel event, and
    after every frame that follows it, the camera and the target of the
    controls have moved together: the vector between them is as it was
    before the event.  And whatever the velocity the earlier events have
    built up, there is a number of frames after which, with no further wheel
    event, the movement is over: no frame is requested any more and the
    velocity is 0. *)
Theorem wheel_glide_stops (deltaY : R) (direction : Vector3) (w : WheelState) :
  (∀ directions,
     let w' := wheelFrames directions (handleWheelMovement deltaY direction w) in
     Vector3.sub (cameraPosition w') (controlsTarget w')
     = Vector3.sub (cameraPosition w) (controlsTarget w))
  ∧ ∃ N, ∀ directions, (N ≤ length directions)%nat →
      let w' := wheelFrames directions (handleWheelMovement deltaY direction w) in
      wheelAnimating w' = false ∧ currentWheelVelocity w' = 0.
Proof.
  split.
  - intros directions w'. subst w'.
    by rewrite wheelFrames_offset, handleWheelMovement_offset.
  - destruct (wheelFrames_rest (handleWheelMovement deltaY direction w)) as [N HN].
    exists N. intros directions Hlen w'. subst w'.
    destruct (HN directions Hlen) as [Hidle Hzero].
    split; [done|].
    destruct (wheelAnimating (handleWheelMovement deltaY direction w)) eqn:Hanim.
    + by apply Hzero.
    + rewrite wheelFrames_idle by done. by apply handleWheelMovement_state.
Qed.

(** * The divisions of a tick *)

Section label_placement.

Implicit Types (view : LabelView.t) (p : Vector3).

Lemma distanceTo_zero (p q : Vector3) : Vector3.distanceTo p q = 0 ↔ p = q.
Proof.
  unfold Vector3.distanceTo, Vector3.distanceToSquared. cbv zeta.
  set (dx := Vector3.x p - Vector3.x q). set (dy := Vector3.y p - Vector3.y q).
  set (dz := Vector3.z p - Vector3.z q).
  pose proof (Rle_0_sqr dx) as Hx. pose proof (Rle_0_sqr dy) as Hy.
  pose proof (Rle_0_sqr dz) as Hz. unfold Rsqr in Hx, Hy, Hz.
  split.
  - intros H. apply sqrt_eq_0 in H; [|lra].
    assert (dx * dx = 0 ∧ dy * dy = 0 ∧ dz * dz = 0) as (Hdx & Hdy & Hdz) by lra.
    apply Rmult_integral in Hdx, Hdy, Hdz.
    apply vector_eq; unfold dx, dy, dz in *; lra.
  - intros ->. unfold dx, dy, dz.
    replace (_ + _) with 0 by ring. apply sqrt_0.
Qed.

(** The placement of a visible label divides by zero exactly when the node
    is where the camera is. *)
Lemma placeLabel_None view p :
  shouldBeVisible view p = true →
  placeLabel view p = None ↔ p = LabelView.cameraPosition view.
Proof.
  unfold shouldBeVisible, placeLabel. intros Hvis.
  apply andb_true_iff in Hvis as [Hnear _].
  unfold Rleb in Hnear. destruct (Rle_dec _ _) as [Hle|]; [clear Hnear|done].
  set (d := Vector3.distanceTo (LabelView.cameraPosition view) p) in *.
  assert (0 <= d) as Hd by apply sqrt_pos.
  split.
  - intros Hnone. symmetry. apply distanceTo_zero. fold d.
    destruct (Req_EM_T d 0) as [|Hne]; [done|exfalso].
    assert (0 < d) as Hpos by lra.
    rewrite !checked_div_Some in Hnone by lra. cbn in Hnone.
    by destruct (Rgtb d _).
  - intros ->. unfold d. rewrite (proj2 (distanceTo_zero _ _) eq_refl).
    unfold checked_div. by destruct (Req_EM_T (0 * (1 / 10)) 0) as [|Hne]; [|lra].
Qed.

(** A loop fails exactly when one of its rounds does, when that does not
    depend on the rounds before. *)
Lemma foldM_None {A S} (f : S → A → option S) (bad : A → Prop) (l : list A) (s : S) :
  (∀ s x, f s x = None ↔ bad x) →
  foldM f s l = None ↔ ∃ x, x ∈ l ∧ bad x.
Proof.
  intros Hf. revert s. induction l as [|x l IH]; intros s.
  - split; [done|]. intros (x & Hx & _). by apply elem_of_nil in Hx.
  - cbn. destruct (f s x) as [s'|] eqn:Hx; cbn.
    + rewrite IH. split.
      * intros (y & Hy & Hbad). exists y. split; [by apply list_elem_of_further|done].
      * intros (y & Hy & Hbad). apply elem_of_cons in Hy as [->|Hy].
        -- by rewrite (proj2 (Hf s x) Hbad) in Hx.
        -- by exists y.
    + split; [|done]. intros _. exists x. split; [apply list_elem_of_here|].
      by apply (Hf s).
Qed.

Lemma labelStyles_None view g :
  labelStyles view g = None
  ↔ ∃ uniqueId node, nodes g !! uniqueId = Some node
      ∧ position (deref (heap g) node) = LabelView.cameraPosition view
      ∧ shouldBeVisible view (position (deref (heap g) node)) = true.
Proof.
  unfold labelStyles.
  rewrite (foldM_None _ (λ entry : string * MeshRef,
             position (deref (heap g) entry.2) = LabelView.cameraPosition view
             ∧ shouldBeVisible view (position (deref (heap g) entry.2)) = true)).
  - split.
    + intros ([uniqueId node] & Hin & Hbad). exists uniqueId, node.
      split; [by apply elem_of_map_to_list|done].
    + intros (uniqueId & node & Hnode & Hbad). exists (uniqueId, node).
      split; [by apply elem_of_map_to_list|done].
  - intros styles [uniqueId node]. cbv beta iota zeta. cbn [snd].
    destruct (shouldBeVisible view (position (deref (heap g) node))) eqn:Hvis.
    + split.
      * intros Hnone. split; [|done]. apply (placeLabel_None view _ Hvis).
        by destruct (placeLabel view (position (deref (heap g) node))).
      * intros [Hp _]. apply (placeLabel_None view _ Hvis) in Hp. by rewrite Hp.
    + split; [done|]. by intros [_ ?].
Qed.

End label_placement.

(** X5.  The divisions of a tick.  The forces and the motion of a tick
    never divide by zero: [tick] yields a result on every store, with or
    without a camera.  The placement of the labels divides by zero in one
    case only: when a node the tick leaves where the camera is, is visible
    (the divisor of the label scale is a tenth of the distance to the
    camera; the divisor of the fade is never zero). *)
Theorem tick_zero_divisor (view : LabelView.t) (g : GravityGraph) :
  (∀ camera, is_Some (tick camera g))
  ∧ ∃ g', tick (Some (shouldBeVisible view)) g = Some g'
      ∧ (tickWithLabels view g = None
         ↔ ∃ uniqueId node, nodes g' !! uniqueId = Some node
             ∧ position (deref (heap g') node) = LabelView.cameraPosition view
             ∧ shouldBeVisible view (position (deref (heap g') node)) = true).
Proof.
  split; [intros camera; apply tick_is_Some|].
  destruct (tick_is_Some (Some (shouldBeVisible view)) g) as [g' Hg'].
  exists g'. split; [done|].
  unfold tickWithLabels. rewrite Hg'. cbn.
  rewrite <-labelStyles_None.
  by destruct (labelStyles view g').
Qed.
